(** * wp-image-engine: the adaptive job-processing core

    A shallow embedding of the four TypeScript modules that make up the
    processing core of the repository, and the properties of them that the
    design document states:

    - [services/errors.ts]         error classes and [isRetryableError]
    - [services/retry.ts]          [calculateBackoff], [sleep], [withRetry]
    - [services/circuitBreaker.ts] the [CircuitBreaker] class
    - [hooks/useJobQueue.ts]       the adaptive job queue hook

    Conventions.  JavaScript numbers that hold counters and [Date.now()]
    readings are integers ([Z]).  The value of [calculateBackoff] is
    studied over IEEE 754 doubles ([Doubles], on the standard library's
    [SpecFloat]); the machines of [withRetry] and of the queue, where a
    delay is only waited for and handed to observers, carry it as an exact
    rational ([Q]).  Asynchronous functions are event-driven machines: the state
    records what is mutable and which activations are suspended at an
    [await], and one event runs the code between two suspension points.
    Values produced by the environment ([Date.now()], [Math.random()], the
    outcome of a wrapped operation, what an observer callback does) are
    inputs of the step that consumes them. *)

From Stdlib Require Import ZArith QArith Qminmax Qpower Lia Lqa Bool.
From Stdlib Require Import Ascii SpecFloat.
From stdpp Require Import base option list gmap strings pretty.

#[local] Open Scope Z_scope.

(* ===================================================================== *)
(** * services/errors.ts *)
(* ===================================================================== *)

Module Errors.

(** The values the code throws and catches.  One constructor per class
    of [errors.ts], the [CircuitOpenError] of [circuitBreaker.ts], the
    three platform classes the code tests for, and [NonError] for a thrown
    value that is not an [Error] object (a string, a number, a plain
    object; [null] and [undefined] are left out). *)
#[warnings="-register-all"]
Inductive JsError :=
| APIError (message : string) (statusCode : option Z) (isRetryable : bool)
           (originalError : option JsError)
| RateLimitError (message : string) (retryAfter : option Z)
| AuthenticationError (message : string)
| ValidationError (message : string) (field : option string)
| TypeError (message : string)
| DOMException (message : string) (name : string)
| CircuitOpenError (message : string) (retryAfter : Z)
| PlainError (message : string)
| NonError (value : string).

(** [error.name]; the [undefined] of a value that is not an [Error] is
    the empty string here, the code only compares the name with
    ['AbortError']. *)
Definition name (e : JsError) : string :=
  match e with
  | APIError _ _ _ _ => "APIError"
  | RateLimitError _ _ => "RateLimitError"
  | AuthenticationError _ => "AuthenticationError"
  | ValidationError _ _ => "ValidationError"
  | TypeError _ => "TypeError"
  | DOMException _ n => n
  | CircuitOpenError _ _ => "CircuitOpenError"
  | PlainError _ => "Error"
  | NonError _ => ""
  end.

(** [error instanceof Error ? error.message : 'Unknown error occurred'] *)
Definition message (e : JsError) : string :=
  match e with
  | APIError m _ _ _ | RateLimitError m _ | AuthenticationError m
  | ValidationError m _ | TypeError m | DOMException m _
  | CircuitOpenError m _ | PlainError m => m
  | NonError _ => "Unknown error occurred"
  end.

(** [error instanceof APIError]: the class and its two subclasses. *)
Definition instanceofAPIError (e : JsError) : bool :=
  match e with
  | APIError _ _ _ _ | RateLimitError _ _ | AuthenticationError _ => true
  | _ => false
  end.

(** [error.statusCode] of an [APIError]: [RateLimitError] calls
    [super(message, 429, true)], [AuthenticationError] calls
    [super(message, 401, false)]. *)
Definition statusCode (e : JsError) : option Z :=
  match e with
  | APIError _ st _ _ => st
  | RateLimitError _ _ => Some 429
  | AuthenticationError _ => Some 401
  | _ => None
  end.

(** [error.isRetryable] of an [APIError]. *)
Definition isRetryableField (e : JsError) : bool :=
  match e with
  | APIError _ _ r _ => r
  | RateLimitError _ _ => true
  | _ => false
  end.

(** [String.prototype.includes] *)
Fixpoint includes (needle hay : string) : bool :=
  String.prefix needle hay ||
  match hay with
  | EmptyString => false
  | String _ rest => includes needle rest
  end.

Record Response := { status : Z; statusText : string }.

(** [APIError.fromResponse(response, body)] *)
Definition fromResponse (response : Response) (body : option string) : JsError :=
  let isRetryable := (500 <=? status response) || (status response =? 429) in
  APIError
    ("API request failed: " +:+ pretty (status response) +:+ " " +:+
     statusText response +:+
     match body with
     | Some b => if String.eqb b "" then "" else " - " +:+ b
     | None => ""
     end)
    (Some (status response)) isRetryable None.

(** [APIError.fromError(error)] *)
Definition fromError (error : JsError) : JsError :=
  if instanceofAPIError error then error
  else match error with
       | TypeError m =>
           if includes "fetch" m
           then APIError "Network error: Unable to connect" None true (Some error)
           else APIError m None false (Some error)
       | DOMException m n =>
           if String.eqb n "AbortError"
           then APIError "Request was cancelled" None false (Some error)
           else APIError m None false (Some error)
       | _ => APIError (message error) None false (Some error)
       end.

(** [isRetryableError(error)] *)
Definition isRetryableError (error : JsError) : bool :=
  if instanceofAPIError error then isRetryableField error
  else match error with
       | TypeError _ => true
       | _ => false
       end.

(** The error kinds of the design document (section 4.1), and its
    retryability table, written from its words for comparison with
    [isRetryableError]. *)
Inductive ErrorKind :=
| Network | Timeout | RateLimited | Authentication | ServerError
| ClientError | Cancelled | Validation | Unknown.

Definition spec_isRetryable (k : ErrorKind) : bool :=
  match k with
  | Network | Timeout | RateLimited | ServerError => true
  | _ => false
  end.

(** How a failure of each kind reaches [isRetryableError] in this code
    base, raw or classified by [fromError].  A network failure is the
    [TypeError] that [fetch] rejects with, whatever its message (the text
    differs between browsers: ["Failed to fetch"], ["Load failed"],
    ["NetworkError when attempting to fetch resource."]).  There is no
    timeout class: the only deadline in the code is the timer of
    [fetchWithRetry], which calls [controller.abort()], so a timeout is
    the same [AbortError] that a caller's cancellation gives. *)
Inductive raisedAs : ErrorKind -> JsError -> Prop :=
| network_raw m :
    raisedAs Network (TypeError m)
| network_classified m :
    raisedAs Network (fromError (TypeError m))
| timeout_abort m :
    raisedAs Timeout (DOMException m "AbortError")
| timeout_classified m :
    raisedAs Timeout (fromError (DOMException m "AbortError"))
| rate_limit_error m ra :
    raisedAs RateLimited (RateLimitError m ra)
| rate_limit_response txt body :
    raisedAs RateLimited (fromResponse {| status := 429; statusText := txt |} body)
| authentication_error m :
    raisedAs Authentication (AuthenticationError m)
| authentication_response st txt body :
    st = 401 \/ st = 403 ->
    raisedAs Authentication (fromResponse {| status := st; statusText := txt |} body)
| server_response st txt body :
    500 <= st ->
    raisedAs ServerError (fromResponse {| status := st; statusText := txt |} body)
| client_response st txt body :
    400 <= st < 500 -> st <> 401 -> st <> 403 -> st <> 429 ->
    raisedAs ClientError (fromResponse {| status := st; statusText := txt |} body)
| cancelled_abort m :
    raisedAs Cancelled (DOMException m "AbortError")
| cancelled_classified m :
    raisedAs Cancelled (fromError (DOMException m "AbortError"))
| validation_error m f :
    raisedAs Validation (ValidationError m f)
| validation_classified m f :
    raisedAs Validation (fromError (ValidationError m f))
| unknown_error m :
    raisedAs Unknown (PlainError m)
| unknown_classified m :
    raisedAs Unknown (fromError (PlainError m))
| unknown_value v :
    raisedAs Unknown (NonError v)
| unknown_value_classified v :
    raisedAs Unknown (fromError (NonError v)).

(** The table the code implements.  For Network it is the answer for the
    raw [TypeError]; what [fromError] makes of one is retryable only when
    its message contains ["fetch"]. *)
Definition code_isRetryable (k : ErrorKind) : bool :=
  match k with
  | Network | RateLimited | ServerError => true
  | _ => false
  end.

(** [getErrorMessage(error)] *)
Definition getErrorMessage (error : JsError) : string :=
  if instanceofAPIError error then
    match statusCode error with
    | Some st =>
        if st =? 401 then "Authentication failed. Check your credentials."
        else if st =? 403 then "Access forbidden. Check your permissions."
        else if st =? 404 then "Resource not found. Check the URL."
        else if st =? 429 then "Rate limited. Please wait before retrying."
        else if negb (st =? 0) && (500 <=? st)
             then "Server error. Please try again later."
        else message error
    | None => message error
    end
  else
    match error with
    | TypeError m =>
        if includes "fetch" m
        then "Network error. Check your connection and CORS settings."
        else m
    | DOMException m n =>
        if String.eqb n "AbortError" then "Operation was cancelled." else m
    | NonError _ => "An unknown error occurred"
    | _ => message error
    end.

End Errors.

(* ===================================================================== *)
(** * services/retry.ts *)
(* ===================================================================== *)

Module Retry.
Import Errors.

Record RetryConfig := {
  maxRetries : Z;
  baseDelay : Q;
  maxDelay : Q;
  backoffMultiplier : Q;
}.

Definition DEFAULT_RETRY_CONFIG : RetryConfig :=
  {| maxRetries := 3; baseDelay := 1000; maxDelay := 30000;
     backoffMultiplier := 2 |}.

(** [calculateBackoff(attempt, config)] in exact arithmetic, as the
    machine of [withRetry] below carries it; [random] is the value that
    [Math.random()] returns, a number in [0, 1).  The same function over
    doubles, with the rounding, [Infinity] and [NaN] of the code, is
    [Doubles.calculateBackoff]. *)
Definition calculateBackoff (random : Q) (attempt : Z) (config : RetryConfig) : Q :=
  let delay := (baseDelay config * backoffMultiplier config ^ attempt)%Q in
  let jitter := (random * 1000)%Q in
  Qmin (delay + jitter) (maxDelay config).

Section WithRetry.

(** Result type of the wrapped operation. *)
Context {T : Type}.

(** [RetryOptions<T>].  The operation itself is the environment: its
    outcomes arrive as events.  [onRetry] returns the error it throws, if
    it throws; an absent callback is [fun _ _ _ => None]. *)
Record RetryOptions := {
  shouldRetry : JsError -> Z -> bool;
  onRetry : JsError -> Z -> Q -> option JsError;
  config : RetryConfig;
}.

(** Where one call of [withRetry] stands.  [Sleeping delay] is the
    [await sleep(delay)]: a [setTimeout(resolve, delay)] that nothing but
    the timer resolves.  [Rejected None] is [throw lastError] with
    [lastError] still [undefined]. *)
Inductive Phase :=
| Running
| Sleeping (delay : Q)
| Resolved (v : T)
| Rejected (e : option JsError).

Record RetryState := {
  phase : Phase;
  attempt : Z;
  lastError : option JsError;
  aborted : bool;                       (* signal?.aborted *)
  calls : nat;                          (* invocations of operation() *)
  retryLog : list (JsError * Z * Q);    (* calls of onRetry *)
}.

Inductive RetryEvent :=
| OpResolved (v : T)
| OpRejected (e : JsError) (random : Q)
| SleepElapsed
| Abort.

Definition setPhase (p : Phase) (s : RetryState) : RetryState :=
  {| phase := p; attempt := attempt s; lastError := lastError s;
     aborted := aborted s; calls := calls s; retryLog := retryLog s |}.

(** Top of the [for] loop: the loop condition, the abort check, and the
    call of [operation()]. *)
Definition loopHead (o : RetryOptions) (s : RetryState) : RetryState :=
  if attempt s <=? maxRetries (config o) then
    if aborted s then setPhase (Rejected (Some (DOMException "Aborted" "AbortError"))) s
    else {| phase := Running; attempt := attempt s; lastError := lastError s;
            aborted := aborted s; calls := S (calls s); retryLog := retryLog s |}
  else setPhase (Rejected (lastError s)) s.

(** The call [withRetry({...})]; [signalAborted] is [signal?.aborted] at
    the time of the call. *)
Definition withRetry (o : RetryOptions) (signalAborted : bool) : RetryState :=
  loopHead o {| phase := Running; attempt := 0; lastError := None;
                aborted := signalAborted; calls := 0; retryLog := [] |}.

(** The [catch] block of the loop body. *)
Definition onCatch (o : RetryOptions) (error : JsError) (random : Q)
    (s : RetryState) : RetryState :=
  let s := {| phase := phase s; attempt := attempt s; lastError := Some error;
              aborted := aborted s; calls := calls s; retryLog := retryLog s |} in
  if aborted s then setPhase (Rejected (Some error)) s
  else
    let isLastAttempt := attempt s =? maxRetries (config o) in
    if isLastAttempt || negb (shouldRetry o error (attempt s))
    then setPhase (Rejected (Some error)) s
    else
      let delay := calculateBackoff random (attempt s) (config o) in
      let delay :=
        match error with
        | RateLimitError _ (Some ra) =>
            if ra =? 0 then delay else Qmax delay (inject_Z (ra * 1000))
        | _ => delay
        end in
      let s := {| phase := phase s; attempt := attempt s; lastError := lastError s;
                  aborted := aborted s; calls := calls s;
                  retryLog := retryLog s ++ [(error, attempt s + 1, delay)] |} in
      match onRetry o error (attempt s + 1) delay with
      | Some thrown => setPhase (Rejected (Some thrown)) s
      | None => setPhase (Sleeping delay) s
      end.

(** One event of a pending call.  A settled call ignores every event. *)
Definition retryStep (o : RetryOptions) (s : RetryState) (ev : RetryEvent) : RetryState :=
  match phase s, ev with
  | Running, OpResolved v => setPhase (Resolved v) s
  | Running, OpRejected e random => onCatch o e random s
  | Sleeping _, SleepElapsed =>
      loopHead o {| phase := phase s; attempt := attempt s + 1;
                    lastError := lastError s; aborted := aborted s;
                    calls := calls s; retryLog := retryLog s |}
  | (Running | Sleeping _), Abort =>
      {| phase := phase s; attempt := attempt s; lastError := lastError s;
         aborted := true; calls := calls s; retryLog := retryLog s |}
  | _, _ => s
  end.

Definition retryRun (o : RetryOptions) (s : RetryState) (evs : list RetryEvent) : RetryState :=
  fold_left (retryStep o) evs s.

(** The call is still pending. *)
Definition pending (s : RetryState) : bool :=
  match phase s with
  | Running | Sleeping _ => true
  | _ => false
  end.

(** While the operation runs the attempt counter is within the loop
    bound, and a sleep is only entered when another attempt is due. *)
Definition retryInv (o : RetryOptions) (s : RetryState) : Prop :=
  match phase s with
  | Running => (attempt s <= maxRetries (config o))%Z
  | Sleeping _ => (attempt s < maxRetries (config o))%Z
  | _ => True
  end.

(** The events of attempts that fail and are retried: each rejection of
    the operation, with the jitter drawn for it, and the end of the sleep
    that follows. *)
Definition failedAttempts (es : list (JsError * Q)) : list RetryEvent :=
  flat_map (fun '(e, random) => [OpRejected e random; SleepElapsed]) es.

(** How the counters of a call stand to its attempt number: the
    operation has been called once more than [attempt] while an attempt
    or its sleep is under way, and a settled call has stayed within the
    bounds of the loop. *)
Definition countersInv (o : RetryOptions) (s : RetryState) : Prop :=
  match phase s with
  | Running =>
      Z.of_nat (calls s) = attempt s + 1 /\
      Z.of_nat (length (retryLog s)) = attempt s /\
      0 <= attempt s <= maxRetries (config o)
  | Sleeping _ =>
      Z.of_nat (calls s) = attempt s + 1 /\
      Z.of_nat (length (retryLog s)) = attempt s + 1 /\
      0 <= attempt s < maxRetries (config o)
  | _ =>
      Z.of_nat (calls s) <= Z.max 0 (maxRetries (config o) + 1) /\
      Z.of_nat (length (retryLog s)) <= Z.max 0 (maxRetries (config o))
  end.

End WithRetry.

Arguments RetryOptions : clear implicits.
Arguments RetryState : clear implicits.
Arguments RetryEvent : clear implicits.
Arguments Phase : clear implicits.

(** The default [shouldRetry = isRetryableError], no [onRetry], default
    configuration. *)
Definition defaultOptions : RetryOptions :=
  {| shouldRetry := fun e _ => isRetryableError e;
     onRetry := fun _ _ _ => None;
     config := DEFAULT_RETRY_CONFIG |}.

End Retry.

(* ===================================================================== *)
(** * services/retry.ts: calculateBackoff in double arithmetic *)
(* ===================================================================== *)

Module Doubles.

(** A JavaScript number is an IEEE 754 binary64 value: [spec_float] of
    the standard library, with 53 bits of precision and exponents
    below 1024.  The arithmetic is that of [SpecFloat], which rounds to
    the nearest value, ties to even. *)
Definition number : Type := spec_float.

Definition prec : Z := 53.
Definition emax : Z := 1024.

Definition NaN : number := S754_nan.
Definition Infinity : number := S754_infinity false.

(** [x * y] and [x + y] *)
Definition mul (x y : number) : number := SFmul prec emax x y.
Definition add (x y : number) : number := SFadd prec emax x y.

(** [x < y] and [x <= y]: false when an operand is [NaN]. *)
Definition ltb (x y : number) : bool := SFltb x y.
Definition leb (x y : number) : bool := SFleb x y.

(** [Number.isNaN(x)] *)
Definition isNaN (x : number) : bool :=
  match x with
  | S754_nan => true
  | _ => false
  end.

(** The number that an integer literal denotes. *)
Definition ofZ (z : Z) : number := binary_normalize prec emax z 0 false.

(** A value that a double can hold: the mantissa fits the precision and
    the exponent the range. *)
Definition isDouble (x : number) : bool := valid_binary prec emax x.

(** [Math.min(x, y)]: [NaN] if an operand is, and [-0] below [+0]. *)
Definition Math_min (x y : number) : number :=
  match SFcompare x y with
  | None => NaN
  | Some Lt => x
  | Some Gt => y
  | Some Eq =>
      match y with
      | S754_zero true => y
      | _ => x
      end
  end.

Record RetryConfig := {
  maxRetries : Z;
  baseDelay : number;
  maxDelay : number;
  backoffMultiplier : number;
}.

Definition DEFAULT_RETRY_CONFIG : RetryConfig :=
  {| maxRetries := 3; baseDelay := ofZ 1000; maxDelay := ofZ 30000;
     backoffMultiplier := ofZ 2 |}.

Section CalculateBackoff.

(** [Math.pow(base, exponent)] for an exponent that is a natural number,
    as the loop counter of [withRetry] is.  ECMAScript leaves its value
    implementation-approximated, so it is a parameter here. *)
Variable pow : number -> N -> number.

(** [calculateBackoff(attempt, config)]; [random] is the value that
    [Math.random()] returns, a number in [0, 1). *)
Definition calculateBackoff (random : number) (attempt : N) (config : RetryConfig)
    : number :=
  let delay := mul (baseDelay config) (pow (backoffMultiplier config) attempt) in
  let jitter := mul random (ofZ 1000) in
  Math_min (add delay jitter) (maxDelay config).

End CalculateBackoff.

(** The power that is rounded correctly: the double nearest to [x^n].
    It is the value that ECMAScript fixes for an exponent of 0 and for a
    base that is [NaN], an infinity or a zero; for the other bases the
    standard asks for an approximation of [x^n], and this is the closest
    one. *)
Definition exactPow (x : number) (n : N) : number :=
  if (n =? 0)%N then ofZ 1
  else
    match x with
    | S754_nan => NaN
    | S754_infinity s => S754_infinity (s && N.odd n)
    | S754_zero s => S754_zero (s && N.odd n)
    | S754_finite s m e =>
        binary_normalize prec emax
          (Z.pow (if s then Z.neg m else Z.pos m) (Z.of_N n)) (e * Z.of_N n) false
    end.

(** ** Rounding, in integers *)

(** The least exponent, and the exponent of the last place of a value
    below [2^e]. *)
Definition emin : Z := SpecFloat.emin prec emax.
Definition fexp (e : Z) : Z := SpecFloat.fexp prec emax e.

(** [m / 2^k] rounded to the nearest integer, ties to even. *)
Definition rne (m k : Z) : Z :=
  let q := m / 2 ^ k in
  let r := m mod 2 ^ k in
  match 2 * r ?= 2 ^ k with
  | Lt => q
  | Eq => if Z.even q then q else q + 1
  | Gt => q + 1
  end.

(** The record of [shr] after [j] shifts of the mantissa [m]: the
    mantissa that is left, the bit that went last, and whether a bit that
    went before it was set. *)
Definition shifted (m j : Z) : shr_record :=
  {| shr_m := m / 2 ^ j;
     shr_r := if j =? 0 then false else Z.testbit m (j - 1);
     shr_s := if j =? 0 then false else negb (m mod 2 ^ (j - 1) =? 0) |}.

(** The double with sign [s] whose value is [n * 2^e], for a mantissa of
    at most [2^53]. *)
Definition pack (s : bool) (n e : Z) : number :=
  match n with
  | Z0 => S754_zero s
  | Zpos p =>
      if n =? 2 ^ 53 then
        if e + 1 <=? emax - prec then S754_finite s (Z.to_pos (2 ^ 52)) (e + 1)
        else S754_infinity s
      else
        if e <=? emax - prec then S754_finite s p e else S754_infinity s
  | Zneg _ => S754_nan
  end.

(** The place of a double that is not negative in the order of the
    doubles: its bit pattern read as an integer. *)
Definition key (x : number) : Z :=
  match x with
  | S754_zero _ => 0
  | S754_finite _ m e => (e - emin) * 2 ^ 52 + Z.pos m
  | S754_infinity _ => 2047 * 2 ^ 52
  | S754_nan => 2047 * 2 ^ 52 + 1
  end.

(** Zero, a positive double or [+Infinity]. *)
Definition notNegative (x : number) : bool :=
  match x with
  | S754_zero _ => true
  | S754_finite s _ _ => negb s
  | S754_infinity s => negb s
  | S754_nan => false
  end.

End Doubles.

(* ===================================================================== *)
(** * services/retry.ts: fetchWithRetry, and its caller wpFetch *)
(* ===================================================================== *)

Module Fetch.
Import Errors Retry.

(** [parseInt(s, 10)]: leading white space, an optional sign, then the
    longest run of decimal digits; [None] is [NaN].  White space is the
    ASCII part of what JavaScript skips, and the number is exact where
    JavaScript rounds to a double. *)
Definition isWhiteSpace (c : ascii) : bool :=
  match nat_of_ascii c with
  | 9%nat | 10%nat | 11%nat | 12%nat | 13%nat | 32%nat => true
  | _ => false
  end.

Fixpoint skipWhiteSpace (s : string) : string :=
  match s with
  | String c rest => if isWhiteSpace c then skipWhiteSpace rest else s
  | EmptyString => s
  end.

Definition digitOf (c : ascii) : option Z :=
  let n := Z.of_nat (nat_of_ascii c) in
  if (48 <=? n) && (n <=? 57) then Some (n - 48) else None.

Fixpoint parseDigits (acc : option Z) (s : string) : option Z :=
  match s with
  | String c rest =>
      match digitOf c with
      | Some d => parseDigits (Some (10 * default 0 acc + d)) rest
      | None => acc
      end
  | EmptyString => acc
  end.

Definition parseInt (s : string) : option Z :=
  match skipWhiteSpace s with
  | String "-"%char rest => Z.opp <$> parseDigits None rest
  | String "+"%char rest => parseDigits None rest
  | s' => parseDigits None s'
  end.

(** What [fetch] resolves with, as far as [fetchWithRetry] reads it:
    [response.status], [response.statusText] and
    [response.headers.get('Retry-After')]. *)
Record FetchResponse := {
  response : Response;
  retryAfterHeader : option string;
}.

(** [response.ok] *)
Definition ok (r : FetchResponse) : bool :=
  (200 <=? status (response r)) && (status (response r) <=? 299).

(** The [operation] closure of [fetchWithRetry] after [await fetch(...)]:
    the response it returns, or the error it throws.  A [Retry-After]
    that is absent, empty or not a number leaves [retryAfter] without a
    usable value. *)
Definition checkResponse (r : FetchResponse) : FetchResponse + JsError :=
  if ok r then inl r
  else if status (response r) =? 429 then
    inr (RateLimitError "Rate limited"
           match retryAfterHeader r with
           | Some h => if String.eqb h "" then None else parseInt h
           | None => None
           end)
  else inr (fromResponse (response r) None).

(** [withRetry({ operation, config: retryConfig, signal: controller.signal })]:
    the default [shouldRetry], no [onRetry]. *)
Definition fetchOptions (retryConfig : RetryConfig) : RetryOptions :=
  {| shouldRetry := fun e _ => isRetryableError e;
     onRetry := fun _ _ _ => None;
     config := retryConfig |}.

(** What can happen to a pending [fetchWithRetry]: [fetch] resolves or
    rejects, the back-off timer fires, or [controller.abort()] is called,
    by the [timeout] timer or by the listener on the caller's signal. *)
Inductive FetchEvent :=
| Responded (r : FetchResponse) (random : Q)
| FetchFailed (e : JsError) (random : Q)
| BackoffElapsed
| ControllerAborted.

Definition toRetryEvent (ev : FetchEvent) : RetryEvent FetchResponse :=
  match ev with
  | Responded r random =>
      match checkResponse r with
      | inl r => OpResolved r
      | inr e => OpRejected e random
      end
  | FetchFailed e random => OpRejected e random
  | BackoffElapsed => SleepElapsed
  | ControllerAborted => Abort
  end.

(** [fetchWithRetry(url, options, retryConfig, timeout)].  The signal that
    [withRetry] reads is that of the new controller, which is not aborted
    when the call is made. *)
Definition fetchWithRetry (retryConfig : RetryConfig) : RetryState FetchResponse :=
  withRetry (fetchOptions retryConfig) false.

Definition fetchRun (retryConfig : RetryConfig) (evs : list FetchEvent)
    : RetryState FetchResponse :=
  retryRun (fetchOptions retryConfig) (fetchWithRetry retryConfig)
           (map toRetryEvent evs).

(** The [catch] block of [wpFetch] in [wordpressService.ts]: what it
    throws for what [fetchWithRetry] rejected with. *)
Definition wpFetchCatch (error : JsError) : JsError :=
  if instanceofAPIError error &&
     match statusCode error with Some st => st =? 401 | None => false end
  then AuthenticationError "Invalid WordPress credentials"
  else error.

(** [wpFetch] calls [fetchWithRetry] with [{ maxRetries: 3 }] over the
    defaults. *)
Definition wpRetryConfig : RetryConfig :=
  {| maxRetries := 3; baseDelay := baseDelay DEFAULT_RETRY_CONFIG;
     maxDelay := maxDelay DEFAULT_RETRY_CONFIG;
     backoffMultiplier := backoffMultiplier DEFAULT_RETRY_CONFIG |}.

End Fetch.

(* ===================================================================== *)
(** * services/circuitBreaker.ts *)
(* ===================================================================== *)

Module Breaker.
Import Errors.

Inductive CircuitState := closed | open | half_open.

#[global] Instance CircuitState_eq_dec : EqDecision CircuitState.
Proof. solve_decision. Defined.

(** [errorFilter] is an optional member: [{...DEFAULT_CONFIG, ...config}]
    keeps the default filter unless the caller's object has the key. *)
Record CircuitBreakerConfig := {
  failureThreshold : Z;
  successThreshold : Z;
  timeout : Z;
  volumeThreshold : Z;
  errorFilter : option (JsError -> bool);
}.

Definition DEFAULT_CONFIG : CircuitBreakerConfig :=
  {| failureThreshold := 5; successThreshold := 2; timeout := 30000;
     volumeThreshold := 5; errorFilter := Some (fun _ => true) |}.

Module Stats.
Record CircuitBreakerStats := {
  state : CircuitState;
  failures : Z;
  successes : Z;
  totalRequests : Z;
  lastFailure : option Z;
  lastSuccess : option Z;
  nextAttempt : option Z;
}.
End Stats.
Abbreviation CircuitBreakerStats := Stats.CircuitBreakerStats.

(** A subscriber, by what it does with the snapshot it is called with:
    it returns ([None]) or it throws. *)
Definition Listener : Type := CircuitBreakerStats -> option JsError.

(** The private fields of the class.  [listeners] is the [Set] of
    subscribers in insertion order, which is the order in which
    [forEach] visits it.  [delivered] is not a field of the class: it
    records the snapshot that each call of [notifyListeners] has taken
    and handed to the subscribers. *)
Record CircuitBreaker := {
  state : CircuitState;
  failures : Z;
  successes : Z;
  totalRequests : Z;
  lastFailure : option Z;
  lastSuccess : option Z;
  halfOpenSuccesses : Z;
  config : CircuitBreakerConfig;
  listeners : list Listener;
  delivered : list CircuitBreakerStats;
}.

(** [new CircuitBreaker(config)] *)
Definition new (cfg : CircuitBreakerConfig) : CircuitBreaker :=
  {| state := closed; failures := 0; successes := 0; totalRequests := 0;
     lastFailure := None; lastSuccess := None; halfOpenSuccesses := 0;
     config := cfg; listeners := []; delivered := [] |}.

(** A method that may throw: the breaker as the method leaves it, and
    the exception if it throws.  The fields written before a [throw]
    stay written. *)
Definition Completion : Type := CircuitBreaker * option JsError.

Definition returns (b : CircuitBreaker) : Completion := (b, None).

(** Statements in sequence: the second runs only if the first returns. *)
Definition andThen (first : Completion) (next : CircuitBreaker -> Completion)
    : Completion :=
  match first with
  | (b, None) => next b
  | (b, Some thrown) => (b, Some thrown)
  end.

(** A number or [null] used as a condition: [null] and [0] are falsy. *)
Definition truthy (t : option Z) : bool :=
  match t with
  | Some v => negb (v =? 0)
  | None => false
  end.

(** A number or [null] used as an operand of [+] or [-]: [null] is [0]. *)
Definition toNumber (t : option Z) : Z := default 0 t.

(** [shouldAttemptReset()]; [now] is [Date.now()]. *)
Definition shouldAttemptReset (now : Z) (b : CircuitBreaker) : bool :=
  if negb (truthy (lastFailure b)) then true
  else timeout (config b) <=? now - toNumber (lastFailure b).

(** [getTimeUntilNextAttempt()]; [now] is [Date.now()]. *)
Definition getTimeUntilNextAttempt (now : Z) (b : CircuitBreaker) : Z :=
  if negb (truthy (lastFailure b)) then 0
  else
    let elapsed := now - toNumber (lastFailure b) in
    Z.max 0 (timeout (config b) - elapsed).

(** [getStats()] *)
Definition getStats (b : CircuitBreaker) : CircuitBreakerStats :=
  {| Stats.state := state b;
     Stats.failures := failures b;
     Stats.successes := successes b;
     Stats.totalRequests := totalRequests b;
     Stats.lastFailure := lastFailure b;
     Stats.lastSuccess := lastSuccess b;
     Stats.nextAttempt :=
       if decide (state b = open)
       then Some (toNumber (lastFailure b) + timeout (config b))
       else None |}.

(** [subscribe(listener)].  The [Set] keeps one entry for a function that
    is added twice; here every call adds a subscriber. *)
Definition subscribe (listener : Listener) (b : CircuitBreaker) : CircuitBreaker :=
  {| state := state b; failures := failures b; successes := successes b;
     totalRequests := totalRequests b; lastFailure := lastFailure b;
     lastSuccess := lastSuccess b; halfOpenSuccesses := halfOpenSuccesses b;
     config := config b; listeners := listeners b ++ [listener];
     delivered := delivered b |}.

(** The function that [subscribe] returns, for the subscriber at
    position [i] of the set. *)
Definition unsubscribe (i : nat) (b : CircuitBreaker) : CircuitBreaker :=
  {| state := state b; failures := failures b; successes := successes b;
     totalRequests := totalRequests b; lastFailure := lastFailure b;
     lastSuccess := lastSuccess b; halfOpenSuccesses := halfOpenSuccesses b;
     config := config b; listeners := delete i (listeners b);
     delivered := delivered b |}.

(** [listeners.forEach(listener => listener(stats))]: the subscribers are
    called in turn, and the first exception ends the loop. *)
Fixpoint forEach (ls : list Listener) (stats : CircuitBreakerStats) : option JsError :=
  match ls with
  | [] => None
  | listener :: rest =>
      match listener stats with
      | Some thrown => Some thrown
      | None => forEach rest stats
      end
  end.

(** [notifyListeners()] *)
Definition notifyListeners (b : CircuitBreaker) : Completion :=
  let stats := getStats b in
  ({| state := state b; failures := failures b; successes := successes b;
      totalRequests := totalRequests b; lastFailure := lastFailure b;
      lastSuccess := lastSuccess b; halfOpenSuccesses := halfOpenSuccesses b;
      config := config b; listeners := listeners b;
      delivered := delivered b ++ [stats] |},
   forEach (listeners b) stats).

(** [transitionTo(newState)] *)
Definition transitionTo (newState : CircuitState) (b : CircuitBreaker) : Completion :=
  notifyListeners
    {| state := newState;
       failures := match newState with closed => 0 | _ => failures b end;
       successes := successes b;
       totalRequests := totalRequests b;
       lastFailure := lastFailure b;
       lastSuccess := lastSuccess b;
       halfOpenSuccesses :=
         match newState with
         | closed | half_open => 0
         | open => halfOpenSuccesses b
         end;
       config := config b;
       listeners := listeners b;
       delivered := delivered b |}.

(** [onSuccess()]; [now] is [Date.now()]. *)
Definition onSuccess (now : Z) (b : CircuitBreaker) : Completion :=
  let b := {| state := state b; failures := failures b;
              successes := successes b + 1;
              totalRequests := totalRequests b; lastFailure := lastFailure b;
              lastSuccess := Some now; halfOpenSuccesses := halfOpenSuccesses b;
              config := config b; listeners := listeners b;
              delivered := delivered b |} in
  andThen
    match state b with
    | half_open =>
        let b := {| state := state b; failures := failures b;
                    successes := successes b; totalRequests := totalRequests b;
                    lastFailure := lastFailure b; lastSuccess := lastSuccess b;
                    halfOpenSuccesses := halfOpenSuccesses b + 1;
                    config := config b; listeners := listeners b;
                    delivered := delivered b |} in
        if successThreshold (config b) <=? halfOpenSuccesses b
        then transitionTo closed b else returns b
    | closed =>
        returns
          {| state := state b; failures := 0;
             successes := successes b; totalRequests := totalRequests b;
             lastFailure := lastFailure b; lastSuccess := lastSuccess b;
             halfOpenSuccesses := halfOpenSuccesses b;
             config := config b; listeners := listeners b;
             delivered := delivered b |}
    | open => returns b
    end
    notifyListeners.

(** [this.config.errorFilter?.(error)] as a condition. *)
Definition counted (cfg : CircuitBreakerConfig) (error : JsError) : bool :=
  match errorFilter cfg with
  | Some f => f error
  | None => false
  end.

(** [onFailure(error)]; [now] is [Date.now()]. *)
Definition onFailure (now : Z) (error : JsError) (b : CircuitBreaker) : Completion :=
  if negb (counted (config b) error) then returns b
  else
    let b := {| state := state b; failures := failures b + 1;
                successes := successes b; totalRequests := totalRequests b;
                lastFailure := Some now; lastSuccess := lastSuccess b;
                halfOpenSuccesses := halfOpenSuccesses b;
                config := config b; listeners := listeners b;
                delivered := delivered b |} in
    andThen
      match state b with
      | half_open => transitionTo open b
      | closed =>
          if (volumeThreshold (config b) <=? totalRequests b) &&
             (failureThreshold (config b) <=? failures b)
          then transitionTo open b else returns b
      | open => returns b
      end
      notifyListeners.

(** How the wrapped operation settles. *)
Inductive Outcome := Fulfilled | Failed (error : JsError).

(** [this.totalRequests++] *)
Definition countRequest (b : CircuitBreaker) : CircuitBreaker :=
  {| state := state b; failures := failures b; successes := successes b;
     totalRequests := totalRequests b + 1; lastFailure := lastFailure b;
     lastSuccess := lastSuccess b; halfOpenSuccesses := halfOpenSuccesses b;
     config := config b; listeners := listeners b; delivered := delivered b |}.

(** [execute] up to its [await].  Either it throws and the operation is
    not called (the [CircuitOpenError], or what a subscriber threw at the
    move to half-open), or the request is counted and the operation is
    called.  [now] is the [Date.now()] of [shouldAttemptReset] and [later]
    that of [getTimeUntilNextAttempt], which is read after it. *)
Definition enter (now later : Z) (b : CircuitBreaker) : Completion :=
  andThen
    (if decide (state b = open) then
       if shouldAttemptReset now b then transitionTo half_open b
       else (b, Some (CircuitOpenError "Circuit breaker is open"
                        (getTimeUntilNextAttempt later b)))
     else returns b)
    (fun b => returns (countRequest b)).

(** [throw error] at the end of a [catch] block whose body may itself
    have thrown. *)
Definition rethrow (error : JsError) (body : Completion) : Completion :=
  andThen body (fun b => (b, Some error)).

(** [execute] after its [await].  [now] is the [Date.now()] of
    [onSuccess], or of [onFailure] when the operation failed.  When
    [onSuccess] throws, which a subscriber can make it do, the [catch]
    block takes the exception for a failure of the operation, and
    [later] is the [Date.now()] of that call of [onFailure]. *)
Definition settle (out : Outcome) (now later : Z) (b : CircuitBreaker) : Completion :=
  match out with
  | Fulfilled =>
      match onSuccess now b with
      | (b, None) => returns b
      | (b, Some thrown) => rethrow thrown (onFailure later thrown b)
      end
  | Failed error => rethrow error (onFailure now error b)
  end.

(** One call of [execute]: the four clock readings it may take and how
    the operation, if it is called, settles. *)
Record Call := {
  calledAt : Z;       (* Date.now() in shouldAttemptReset *)
  rejectedAt : Z;     (* Date.now() in getTimeUntilNextAttempt *)
  outcome : Outcome;
  settledAt : Z;      (* Date.now() in onSuccess, or in onFailure *)
  caughtAt : Z;       (* Date.now() in onFailure after onSuccess threw *)
}.

(** What one call of [execute] did. *)
Record Execution := {
  after : CircuitBreaker;
  invoked : bool;               (* was operation() called *)
  thrown : option JsError;      (* the rejection, if the call rejects *)
}.

(** [execute(operation)] with no other call interleaved. *)
Definition execute (c : Call) (b : CircuitBreaker) : Execution :=
  match enter (calledAt c) (rejectedAt c) b with
  | (b, Some e) => {| after := b; invoked := false; thrown := Some e |}
  | (b, None) =>
      let done := settle (outcome c) (settledAt c) (caughtAt c) b in
      {| after := done.1; invoked := true; thrown := done.2 |}
  end.

(** [reset()] *)
Definition reset (b : CircuitBreaker) : Completion :=
  notifyListeners
    {| state := closed; failures := 0; successes := 0; totalRequests := 0;
       lastFailure := None; lastSuccess := None; halfOpenSuccesses := 0;
       config := config b; listeners := listeners b; delivered := delivered b |}.

(** [forceOpen()]; [now] is [Date.now()]. *)
Definition forceOpen (now : Z) (b : CircuitBreaker) : Completion :=
  andThen (transitionTo open b)
    (fun b =>
       returns
         {| state := state b; failures := failures b; successes := successes b;
            totalRequests := totalRequests b; lastFailure := Some now;
            lastSuccess := lastSuccess b; halfOpenSuccesses := halfOpenSuccesses b;
            config := config b; listeners := listeners b;
            delivered := delivered b |}).

(** [forceClose()] *)
Definition forceClose (b : CircuitBreaker) : Completion :=
  transitionTo closed b.

(** The public operations.  A call of [execute] is two steps, [Enter] and
    [Settle], so that calls may overlap as they do under [await]. *)
Inductive Op :=
| Enter (now later : Z)
| Settle (out : Outcome) (now later : Z)
| Reset
| ForceOpen (now : Z)
| ForceClose
| Subscribe (listener : Listener)
| Unsubscribe (i : nat).

(** The breaker after an operation, whether it returned or threw. *)
Definition apply (b : CircuitBreaker) (op : Op) : CircuitBreaker :=
  match op with
  | Enter now later => (enter now later b).1
  | Settle out now later => (settle out now later b).1
  | Reset => (reset b).1
  | ForceOpen now => (forceOpen now b).1
  | ForceClose => (forceClose b).1
  | Subscribe listener => subscribe listener b
  | Unsubscribe i => unsubscribe i b
  end.

Definition run (cfg : CircuitBreakerConfig) (ops : list Op) : CircuitBreaker :=
  fold_left apply ops (new cfg).

(** No subscriber of the breaker throws, whatever the snapshot. *)
Definition quiet (b : CircuitBreaker) : Prop :=
  forall stats, forEach (listeners b) stats = None.

(** An operation that brings in no subscriber that throws. *)
Definition quietOp (op : Op) : Prop :=
  match op with
  | Subscribe listener => forall stats, listener stats = None
  | _ => True
  end.

(** A call whose operation rejects with [error]; the test of the state
    reads the clock at [now] and the [catch] block at [doneAt]. *)
Definition failing (now : Z) (error : JsError) (doneAt : Z) : Call :=
  {| calledAt := now; rejectedAt := now; outcome := Failed error;
     settledAt := doneAt; caughtAt := doneAt |}.

(** A call whose operation fulfils. *)
Definition fulfilling (now doneAt : Z) : Call :=
  {| calledAt := now; rejectedAt := now; outcome := Fulfilled;
     settledAt := doneAt; caughtAt := doneAt |}.

(** The configuration of the transition scenario of the design document,
    and a breaker that three failures have opened. *)
Definition scenarioConfig : CircuitBreakerConfig :=
  {| failureThreshold := 3; successThreshold := 2; timeout := 30000;
     volumeThreshold := 3; errorFilter := Some (fun _ => true) |}.

Definition threeFailures : CircuitBreaker :=
  run scenarioConfig
      [Enter 100 100; Settle (Failed (PlainError "down")) 110 110;
       Enter 120 120; Settle (Failed (PlainError "down")) 130 130;
       Enter 140 140; Settle (Failed (PlainError "down")) 150 150].

(** Between any two steps of the public operations, an open breaker has a
    failure time on record. *)
Definition openHasLastFailure (b : CircuitBreaker) : Prop :=
  state b = open -> is_Some (lastFailure b).

(** Calls of [execute] made one after the other. *)
Definition executeAll (calls : list Call) (b : CircuitBreaker) : CircuitBreaker :=
  fold_left (fun b c => after (execute c b)) calls b.

(** A new breaker with the subscribers [ls], added in that order. *)
Definition subscribed (cfg : CircuitBreakerConfig) (ls : list Listener) : CircuitBreaker :=
  fold_left (fun b listener => subscribe listener b) ls (new cfg).

(** The fields of the class alone, without the record of what was
    notified. *)
Definition fields (b : CircuitBreaker) : CircuitBreaker :=
  {| state := state b; failures := failures b; successes := successes b;
     totalRequests := totalRequests b; lastFailure := lastFailure b;
     lastSuccess := lastSuccess b; halfOpenSuccesses := halfOpenSuccesses b;
     config := config b; listeners := listeners b; delivered := [] |}.

(** The last snapshot that was taken shows the state the breaker is in. *)
Definition lastShowsState (b : CircuitBreaker) : Prop :=
  exists stats, last (delivered b) = Some stats /\ Stats.state stats = state b.

(** From [b] to [b'] the subscribers have been kept up to date: either
    nothing was notified and the state is the same, or the last
    snapshot shows the state of [b']. *)
Definition keptUpToDate (b b' : CircuitBreaker) : Prop :=
  delivered b `prefix_of` delivered b' /\
  ((delivered b' = delivered b /\ state b' = state b) \/ lastShowsState b').

End Breaker.

(* ===================================================================== *)
(** * hooks/useJobQueue.ts *)
(* ===================================================================== *)

Module Queue.
Import Errors.

(** [id: string | number].  A [Map] tells the string ["1"] from the
    number [1]. *)
Inductive JobId := IdStr (s : string) | IdNum (n : Z).

#[global] Instance JobId_eq_dec : EqDecision JobId.
Proof. solve_decision. Defined.

#[global] Instance JobId_countable : Countable JobId.
Proof.
  refine (inj_countable'
            (fun i => match i with IdStr s => inl s | IdNum n => inr n end)
            (fun x => match x with inl s => IdStr s | inr n => IdNum n end) _).
  intros []; reflexivity.
Defined.

Section Hook.

(** [T] is the payload of a job, [R] the result of the processor. *)
Context {T R : Type}.

(** [QueueJob<T>]; its own optional [maxRetries] member, which the hook
    never reads, is [jobMaxRetries] here. *)
Record QueueJob := {
  id : JobId;
  data : T;
  priority : option Z;
  retries : option Z;
  jobMaxRetries : option Z;
  createdAt : option Z;
}.

(** [QueueOptions<T, R>].  The processor is the environment: how each of
    its calls settles arrives as an event.  An observer is given by what a
    call of it throws, [None] if it returns; an absent observer never
    throws.  [onProgress] is never called by the hook. *)
Record QueueOptions := {
  concurrency : Z;
  maxRetries : Z;
  retryDelay : Q;
  onJobStart : QueueJob -> option JsError;
  onJobComplete : QueueJob -> R -> option JsError;
  onJobError : QueueJob -> JsError -> option JsError;
  onJobRetry : QueueJob -> Z -> JsError -> option JsError;
}.

Record Metrics := {
  completed : Z;
  failed : Z;
  retried : Z;
  total : Z;
}.

(** The [await] at which an activation of [processJob] is suspended:
    [await processor(job, signal)], [await handleError()] (with the
    penalty timer when one was set), and the back-off
    [await new Promise(resolve => setTimeout(resolve, delay))]. *)
Inductive Await :=
| AwaitProcessor
| AwaitHandleError (retries : Z) (penalty : option Q)
| AwaitBackoff (retries : Z) (delay : Q).

Record Task := {
  job : QueueJob;
  controller : nat;
  point : Await;
}.

(** The refs of the hook, and the part of the host that the hook has
    handed work to: the suspended activations of [processJob], the
    [queueMicrotask] callbacks not yet run, the controllers whose
    [abort()] was called, and the number of [onQueueEmpty] calls. *)
Record Hook := {
  queueRef : list QueueJob;
  activeJobsRef : gmap JobId nat;
  isPausedRef : bool;
  currentConcurrencyRef : Z;
  consecutiveErrorsRef : Z;
  metricsRef : Metrics;
  tasks : list Task;
  microtasks : nat;
  abortedControllers : gset nat;
  controllers : nat;
  queueEmptyCalls : nat;
}.

Definition setQueue (q : list QueueJob) (s : Hook) : Hook :=
  {| queueRef := q; activeJobsRef := activeJobsRef s;
     isPausedRef := isPausedRef s;
     currentConcurrencyRef := currentConcurrencyRef s;
     consecutiveErrorsRef := consecutiveErrorsRef s;
     metricsRef := metricsRef s; tasks := tasks s;
     microtasks := microtasks s;
     abortedControllers := abortedControllers s;
     controllers := controllers s; queueEmptyCalls := queueEmptyCalls s |}.

Definition setActive (a : gmap JobId nat) (s : Hook) : Hook :=
  {| queueRef := queueRef s; activeJobsRef := a;
     isPausedRef := isPausedRef s;
     currentConcurrencyRef := currentConcurrencyRef s;
     consecutiveErrorsRef := consecutiveErrorsRef s;
     metricsRef := metricsRef s; tasks := tasks s;
     microtasks := microtasks s;
     abortedControllers := abortedControllers s;
     controllers := controllers s; queueEmptyCalls := queueEmptyCalls s |}.

Definition setPaused (p : bool) (s : Hook) : Hook :=
  {| queueRef := queueRef s; activeJobsRef := activeJobsRef s;
     isPausedRef := p;
     currentConcurrencyRef := currentConcurrencyRef s;
     consecutiveErrorsRef := consecutiveErrorsRef s;
     metricsRef := metricsRef s; tasks := tasks s;
     microtasks := microtasks s;
     abortedControllers := abortedControllers s;
     controllers := controllers s; queueEmptyCalls := queueEmptyCalls s |}.

Definition setAdaptive (limit errors : Z) (s : Hook) : Hook :=
  {| queueRef := queueRef s; activeJobsRef := activeJobsRef s;
     isPausedRef := isPausedRef s;
     currentConcurrencyRef := limit;
     consecutiveErrorsRef := errors;
     metricsRef := metricsRef s; tasks := tasks s;
     microtasks := microtasks s;
     abortedControllers := abortedControllers s;
     controllers := controllers s; queueEmptyCalls := queueEmptyCalls s |}.

Definition setMetrics (m : Metrics) (s : Hook) : Hook :=
  {| queueRef := queueRef s; activeJobsRef := activeJobsRef s;
     isPausedRef := isPausedRef s;
     currentConcurrencyRef := currentConcurrencyRef s;
     consecutiveErrorsRef := consecutiveErrorsRef s;
     metricsRef := m; tasks := tasks s;
     microtasks := microtasks s;
     abortedControllers := abortedControllers s;
     controllers := controllers s; queueEmptyCalls := queueEmptyCalls s |}.

Definition setTasks (ts : list Task) (s : Hook) : Hook :=
  {| queueRef := queueRef s; activeJobsRef := activeJobsRef s;
     isPausedRef := isPausedRef s;
     currentConcurrencyRef := currentConcurrencyRef s;
     consecutiveErrorsRef := consecutiveErrorsRef s;
     metricsRef := metricsRef s; tasks := ts;
     microtasks := microtasks s;
     abortedControllers := abortedControllers s;
     controllers := controllers s; queueEmptyCalls := queueEmptyCalls s |}.

(** The host side: pending microtasks, aborted controllers, allocated
    controllers, [onQueueEmpty] calls. *)
Definition setHost (mt : nat) (ab : gset nat) (cs qe : nat) (s : Hook) : Hook :=
  {| queueRef := queueRef s; activeJobsRef := activeJobsRef s;
     isPausedRef := isPausedRef s;
     currentConcurrencyRef := currentConcurrencyRef s;
     consecutiveErrorsRef := consecutiveErrorsRef s;
     metricsRef := metricsRef s; tasks := tasks s;
     microtasks := mt; abortedControllers := ab;
     controllers := cs; queueEmptyCalls := qe |}.

(** The first render: [useRef] initial values. *)
Definition useJobQueue (o : QueueOptions) : Hook :=
  {| queueRef := []; activeJobsRef := ∅; isPausedRef := false;
     currentConcurrencyRef := concurrency o; consecutiveErrorsRef := 0;
     metricsRef := {| completed := 0; failed := 0; retried := 0; total := 0 |};
     tasks := []; microtasks := 0; abortedControllers := ∅;
     controllers := 0; queueEmptyCalls := 0 |}.

(** [QueueState], the snapshot that [updateState] hands to [setState];
    [averageProcessingTime] is the constant 0 there. *)
Record QueueState := {
  isProcessing : bool;
  isPaused : bool;
  totalJobs : Z;
  completedJobs : Z;
  failedJobs : Z;
  activeJobs : nat;
  retriedJobs : Z;
  averageProcessingTime : Z;
  currentConcurrency : Z;
}.

(** The argument of [setState] in [updateState]. *)
Definition updateState (s : Hook) : QueueState :=
  {| isProcessing :=
       bool_decide (0 < length (queueRef s))%nat ||
       bool_decide (0 < size (activeJobsRef s))%nat;
     isPaused := isPausedRef s;
     totalJobs := total (metricsRef s);
     completedJobs := completed (metricsRef s);
     failedJobs := failed (metricsRef s);
     activeJobs := size (activeJobsRef s);
     retriedJobs := retried (metricsRef s);
     averageProcessingTime := 0;
     currentConcurrency := currentConcurrencyRef s |}.

(** [handleSuccess()]; [random] is the [Math.random()] it draws. *)
Definition handleSuccess (o : QueueOptions) (random : Q) (s : Hook) : Hook :=
  let s := setAdaptive (currentConcurrencyRef s) 0 s in
  if (currentConcurrencyRef s <? concurrency o) && negb (Qle_bool random (8 # 10))
  then setAdaptive (currentConcurrencyRef s + 1) (consecutiveErrorsRef s) s
  else s.

(** [handleError()]: the new refs, and the delay of the penalty timer
    behind the promise it returns, if it set one. *)
Definition handleError (s : Hook) : Hook * option Q :=
  let s := setAdaptive (currentConcurrencyRef s) (consecutiveErrorsRef s + 1) s in
  if (2 <? consecutiveErrorsRef s) && (1 <? currentConcurrencyRef s)
  then (setAdaptive (Z.max 1 (currentConcurrencyRef s - 1)) (consecutiveErrorsRef s) s,
        Some 5000%Q)
  else (s, None).

(** [b.priority || 0] *)
Definition priorityOf (j : QueueJob) : Z := default 0 (priority j).

(** [queueRef.current.sort((a, b) => (b.priority || 0) - (a.priority || 0))]:
    a stable sort, highest priority first. *)
Fixpoint insertByPriority (j : QueueJob) (l : list QueueJob) : list QueueJob :=
  match l with
  | [] => [j]
  | x :: l' =>
      if priorityOf x <=? priorityOf j then j :: x :: l'
      else x :: insertByPriority j l'
  end.

Definition sortByPriority (l : list QueueJob) : list QueueJob :=
  foldr insertByPriority [] l.

(** [processJob(job)] up to [await processor(job, controller.signal)].
    When [onJobStart] throws, the activation ends there: it is outside the
    [try], so neither [catch] nor [finally] runs. *)
Definition processJob (o : QueueOptions) (j : QueueJob) (s : Hook) : Hook :=
  let c := controllers s in
  let s := setHost (microtasks s) (abortedControllers s) (S c) (queueEmptyCalls s) s in
  let s := setActive (<[id j := c]> (activeJobsRef s)) s in
  match onJobStart o j with
  | Some _ => s
  | None => setTasks (tasks s ++ [{| job := j; controller := c; point := AwaitProcessor |}]) s
  end.

(** [processNext()].  The sorted backlog is empty exactly when the
    backlog is, so the [length === 0] test is the first case of the
    [match]; the second is [sort], [shift] and the call of [processJob]. *)
Definition processNext (o : QueueOptions) (s : Hook) : Hook :=
  if isPausedRef s then s
  else if currentConcurrencyRef s <=? Z.of_nat (size (activeJobsRef s)) then s
  else
    match sortByPriority (queueRef s) with
    | [] =>
        if decide (size (activeJobsRef s) = 0%nat)
        then setHost (microtasks s) (abortedControllers s) (controllers s)
                     (S (queueEmptyCalls s)) s
        else s
    | j :: rest =>
        let s := processJob o j (setQueue rest s) in
        if (Z.of_nat (size (activeJobsRef s)) <? currentConcurrencyRef s) &&
           bool_decide (0 < length (queueRef s))%nat
        then setHost (S (microtasks s)) (abortedControllers s) (controllers s)
                     (queueEmptyCalls s) s
        else s
    end.

(** The [finally] block of [processJob]; the activation [i] is over. *)
Definition finally (o : QueueOptions) (i : nat) (j : QueueJob) (s : Hook) : Hook :=
  let s := setTasks (delete i (tasks s)) s in
  let s := setActive (delete (id j) (activeJobsRef s)) s in
  processNext o s.

(** The [catch] block of [processJob], up to [await handleError()]. *)
Definition onCatch (o : QueueOptions) (i : nat) (t : Task) (error : JsError)
    (s : Hook) : Hook :=
  if String.eqb (name error) "AbortError" then finally o i (job t) s
  else
    let retries := default 0 (retries (job t)) + 1 in
    if retries <=? maxRetries o then
      let m := metricsRef s in
      let s := setMetrics {| completed := completed m; failed := failed m;
                             retried := retried m + 1; total := total m |} s in
      match onJobRetry o (job t) retries error with
      | Some _ => finally o i (job t) s
      | None =>
          let '(s, penalty) := handleError s in
          setTasks (<[i := {| job := job t; controller := controller t;
                              point := AwaitHandleError retries penalty |}]> (tasks s)) s
      end
    else
      let m := metricsRef s in
      let s := setMetrics {| completed := completed m; failed := failed m + 1;
                             retried := retried m; total := total m |} s in
      finally o i (job t) s.

(** How a call of the processor settles; a fulfilment comes with the
    [Math.random()] that [handleSuccess] draws. *)
Inductive Outcome :=
| Fulfilled (result : R) (random : Q)
| Failed (error : JsError).

(** The [try] block of [processJob] after [await processor(...)]. *)
Definition onSettled (o : QueueOptions) (i : nat) (t : Task) (out : Outcome)
    (s : Hook) : Hook :=
  match out with
  | Fulfilled result random =>
      let m := metricsRef s in
      let s := setMetrics {| completed := completed m + 1; failed := failed m;
                             retried := retried m; total := total m |} s in
      let s := handleSuccess o random s in
      match onJobComplete o (job t) result with
      | Some thrown => onCatch o i t thrown s
      | None => finally o i (job t) s
      end
  | Failed error => onCatch o i t error s
  end.

(** The delay of the queue's own back-off:
    [retryDelay * Math.pow(2, retries)]. *)
Definition backoffDelay (o : QueueOptions) (retries : Z) : Q :=
  (retryDelay o * 2 ^ retries)%Q.

(** [{ ...job, retries }] *)
Definition withRetries (j : QueueJob) (retries : Z) : QueueJob :=
  {| id := id j; data := data j; priority := priority j;
     retries := Some retries; jobMaxRetries := jobMaxRetries j;
     createdAt := createdAt j |}.

(** [queueRef.current.unshift({ ...job, retries })] *)
Definition requeue (j : QueueJob) (retries : Z) (s : Hook) : Hook :=
  setQueue (withRetries j retries :: queueRef s) s.

(** A timer or promise that a suspended activation awaits resolves. *)
Definition onWake (o : QueueOptions) (i : nat) (t : Task) (s : Hook) : Hook :=
  match point t with
  | AwaitProcessor => s
  | AwaitHandleError retries _ =>
      setTasks (<[i := {| job := job t; controller := controller t;
                          point := AwaitBackoff retries (backoffDelay o retries) |}]>
                  (tasks s)) s
  | AwaitBackoff retries _ => finally o i (job t) (requeue (job t) retries s)
  end.

(** [addJobs(jobs)]; [now] is [Date.now()]. *)
Definition addJobs (o : QueueOptions) (jobs : list QueueJob) (now : Z) (s : Hook) : Hook :=
  let newJobs :=
    map (fun j => {| id := id j; data := data j; priority := priority j;
                     retries := Some 0; jobMaxRetries := jobMaxRetries j;
                     createdAt := Some now |}) jobs in
  let s := setQueue (queueRef s ++ newJobs) s in
  let m := metricsRef s in
  let s := setMetrics {| completed := completed m; failed := failed m;
                         retried := retried m;
                         total := total m + Z.of_nat (length jobs) |} s in
  processNext o s.

(** [addJob(job)] *)
Definition addJob (o : QueueOptions) (j : QueueJob) (now : Z) (s : Hook) : Hook :=
  addJobs o [j] now s.

(** [pause()] *)
Definition pause (s : Hook) : Hook := setPaused true s.

(** [resume()] *)
Definition resume (o : QueueOptions) (s : Hook) : Hook :=
  processNext o (setPaused false s).

(** [cancelAll()] *)
Definition cancelAll (s : Hook) : Hook :=
  let s := setHost (microtasks s)
                   (abortedControllers s ∪ map_img (activeJobsRef s))
                   (controllers s) (queueEmptyCalls s) s in
  let s := setActive ∅ s in
  let s := setQueue [] s in
  setPaused false s.

(** What can happen to the hook: a call of its interface, a microtask, a
    processor call settling, a timer firing. *)
Inductive Event :=
| AddJobs (jobs : list QueueJob) (now : Z)
| Pause
| Resume
| CancelAll
| Microtask
| Settle (i : nat) (out : Outcome)
| Wake (i : nat).

Definition step (o : QueueOptions) (s : Hook) (ev : Event) : Hook :=
  match ev with
  | AddJobs jobs now => addJobs o jobs now s
  | Pause => pause s
  | Resume => resume o s
  | CancelAll => cancelAll s
  | Microtask =>
      match microtasks s with
      | O => s
      | S n =>
          processNext o (setHost n (abortedControllers s) (controllers s)
                                 (queueEmptyCalls s) s)
      end
  | Settle i out =>
      match tasks s !! i with
      | Some t =>
          match point t with
          | AwaitProcessor => onSettled o i t out s
          | _ => s
          end
      | None => s
      end
  | Wake i =>
      match tasks s !! i with
      | Some t => onWake o i t s
      | None => s
      end
  end.

Definition run (o : QueueOptions) (evs : list Event) : Hook :=
  fold_left (step o) evs (useJobQueue o).

(** The number of active jobs, as [state.activeJobs] reports it. *)
Definition active (s : Hook) : Z := Z.of_nat (size (activeJobsRef s)).

(** The adaptive limit is between 1 and the configured concurrency, and
    no more jobs are active than the configured concurrency allows. *)
Definition bounded (o : QueueOptions) (s : Hook) : Prop :=
  1 <= currentConcurrencyRef s <= concurrency o /\ active s <= concurrency o.

(** A retry count within the bounds of the hook: between 0 and
    [maxRetries] (0 when [maxRetries] is negative). *)
Definition jobInBounds (o : QueueOptions) (j : QueueJob) : Prop :=
  exists r, retries j = Some r /\ 0 <= r <= Z.max 0 (maxRetries o).

(** The same for a suspended activation, whose next retry count, once it
    has one, is between 1 and [maxRetries]. *)
Definition taskInBounds (o : QueueOptions) (t : Task) : Prop :=
  jobInBounds o (job t) /\
  match point t with
  | AwaitProcessor => True
  | AwaitHandleError n _ | AwaitBackoff n _ => 1 <= n <= maxRetries o
  end.

(** The jobs that the counters and the lists of the hook account for:
    those counted as completed or failed, those pending, and those in
    flight. *)
Definition accounted (s : Hook) : Z :=
  completed (metricsRef s) + failed (metricsRef s) +
  Z.of_nat (length (queueRef s)) + Z.of_nat (length (tasks s)).

End Hook.

Arguments QueueJob : clear implicits.
Arguments QueueOptions : clear implicits.
Arguments Task : clear implicits.
Arguments Hook : clear implicits.
Arguments Event : clear implicits.
Arguments Outcome : clear implicits.

(** The options that the hook fills in when the caller gives only a
    processor. *)
Definition defaults : QueueOptions unit unit :=
  {| concurrency := 3; maxRetries := 3; retryDelay := 2000;
     onJobStart := fun _ => None; onJobComplete := fun _ _ => None;
     onJobError := fun _ _ => None; onJobRetry := fun _ _ _ => None |}.

(** The same, with an [onJobComplete] that throws. *)
Definition throwingComplete : QueueOptions unit unit :=
  {| concurrency := 3; maxRetries := 3; retryDelay := 2000;
     onJobStart := fun _ => None;
     onJobComplete := fun _ _ => Some (PlainError "observer failed");
     onJobError := fun _ _ => None; onJobRetry := fun _ _ _ => None |}.

(** The defaults with an [onJobRetry] that throws. *)
Definition throwingRetry : QueueOptions unit unit :=
  {| concurrency := 3; maxRetries := 3; retryDelay := 2000;
     onJobStart := fun _ => None; onJobComplete := fun _ _ => None;
     onJobError := fun _ _ => None;
     onJobRetry := fun _ _ _ => Some (PlainError "observer failed") |}.

Definition jobNo (n : Z) : QueueJob unit :=
  {| id := IdNum n; data := tt; priority := None; retries := None;
     jobMaxRetries := None; createdAt := None |}.

Definition down : Outcome unit := Failed (PlainError "upstream down").

End Queue.

(* ===================================================================== *)
(** * services/cache.ts *)
(* ===================================================================== *)

Module LRUCache.

Section Cache.

Context {T : Type}.

(** [CacheEntry<T>] *)
Record CacheEntry := {
  data : T;
  timestamp : Z;
  expiresAt : Z;
}.

Record CacheConfig := {
  maxSize : Z;
  defaultTTL : Z;
}.

(** The private fields of [LRUCache<T>]. *)
Record LRUCache := {
  cache : gmap string CacheEntry;
  accessOrder : list string;
  config : CacheConfig;
}.

(** [new LRUCache(config)]; an absent member takes its default. *)
Definition new (maxSize defaultTTL : option Z) : LRUCache :=
  {| cache := ∅; accessOrder := [];
     config := {| maxSize := default 500 maxSize;
                  defaultTTL := default (5 * 60 * 1000) defaultTTL |} |}.

(** [idx = accessOrder.indexOf(key); if (idx > -1) accessOrder.splice(idx, 1)] *)
Fixpoint removeFirst (key : string) (l : list string) : list string :=
  match l with
  | [] => []
  | x :: l' => if decide (x = key) then l' else x :: removeFirst key l'
  end.

(** [updateAccessOrder(key)] *)
Definition updateAccessOrder (key : string) (c : LRUCache) : LRUCache :=
  {| cache := cache c;
     accessOrder := removeFirst key (accessOrder c) ++ [key];
     config := config c |}.

(** [delete(key)] *)
Definition delete (key : string) (c : LRUCache) : LRUCache * bool :=
  match cache c !! key with
  | Some _ =>
      ({| cache := base.delete key (cache c);
          accessOrder := removeFirst key (accessOrder c);
          config := config c |}, true)
  | None => (c, false)
  end.

(** [get(key)]; [now] is [Date.now()], [None] is [null]. *)
Definition get (key : string) (now : Z) (c : LRUCache) : LRUCache * option T :=
  match cache c !! key with
  | None => (c, None)
  | Some entry =>
      if expiresAt entry <? now then ((delete key c).1, None)
      else (updateAccessOrder key c, Some (data entry))
  end.

(** [has(key)] *)
Definition has (key : string) (now : Z) (c : LRUCache) : LRUCache * bool :=
  match cache c !! key with
  | None => (c, false)
  | Some entry =>
      if expiresAt entry <? now then ((delete key c).1, false)
      else (c, true)
  end.

(** [evictOldest()] *)
Definition evictOldest (c : LRUCache) : LRUCache :=
  match accessOrder c with
  | [] => c
  | oldestKey :: rest =>
      {| cache := base.delete oldestKey (cache c);
         accessOrder := rest; config := config c |}
  end.

(** [this.cache.size >= this.config.maxSize] *)
Definition full (cfg : CacheConfig) (m : gmap string CacheEntry) : bool :=
  maxSize cfg <=? Z.of_nat (base.size m).

(** [while (this.cache.size >= this.config.maxSize) this.evictOldest()],
    by recursion on the access order, which every effective round
    shortens.  With an empty access order [evictOldest] does nothing, so
    a cache that is still full then keeps the loop running for ever:
    [None]. *)
Fixpoint evictWhileFull (cfg : CacheConfig) (order : list string)
    (m : gmap string CacheEntry) : option (list string * gmap string CacheEntry) :=
  match order with
  | [] => if full cfg m then None else Some ([], m)
  | oldestKey :: rest =>
      if full cfg m then evictWhileFull cfg rest (base.delete oldestKey m)
      else Some (order, m)
  end.

(** [set(key, data, ttl)]; [None] when the eviction loop does not end. *)
Definition set (key : string) (d : T) (ttl : option Z) (now : Z) (c : LRUCache)
    : option LRUCache :=
  let actualTTL := default (defaultTTL (config c)) ttl in
  match evictWhileFull (config c) (accessOrder c) (cache c) with
  | None => None
  | Some (order, m) =>
      Some (updateAccessOrder key
              {| cache := <[key := {| data := d; timestamp := now;
                                      expiresAt := now + actualTTL |}]> m;
                 accessOrder := order; config := config c |})
  end.

(** [clear()] *)
Definition clear (c : LRUCache) : LRUCache :=
  {| cache := ∅; accessOrder := []; config := config c |}.

(** [size()] *)
Definition size (c : LRUCache) : nat := base.size (cache c).

(** [prune()]: every entry of the map is visited once, an expired one is
    deleted and counted.  The entries are visited here in the order of
    [map_to_list], in JavaScript in the order of insertion. *)
Definition prune (now : Z) (c : LRUCache) : LRUCache * nat :=
  foldr (fun '(key, entry) '(c, pruned) =>
           if expiresAt entry <? now then ((delete key c).1, S pruned)
           else (c, pruned))
        (c, 0%nat) (map_to_list (cache c)).

(** [getStats()]: [{ size, maxSize, hitRate }], the hit rate being the
    constant 0. *)
Definition getStats (c : LRUCache) : nat * Z * Z :=
  (base.size (cache c), maxSize (config c), 0).

(** The access order lists every key of the map, once. *)
Definition wf (c : LRUCache) : Prop :=
  NoDup (accessOrder c) /\ forall k, k ∈ accessOrder c <-> is_Some (cache c !! k).

(** The calls of the public interface, and a cache after a sequence of
    them; a [set] whose loop does not end leaves no later state. *)
Inductive Call :=
| DoGet (key : string) (now : Z)
| DoSet (key : string) (d : T) (ttl : option Z) (now : Z)
| DoDelete (key : string)
| DoHas (key : string) (now : Z)
| DoClear
| DoPrune (now : Z).

Definition call (c : LRUCache) (op : Call) : option LRUCache :=
  match op with
  | DoGet key now => Some (get key now c).1
  | DoSet key d ttl now => set key d ttl now c
  | DoDelete key => Some (delete key c).1
  | DoHas key now => Some (has key now c).1
  | DoClear => Some (clear c)
  | DoPrune now => Some (prune now c).1
  end.

Fixpoint calls (c : LRUCache) (ops : list Call) : option LRUCache :=
  match ops with
  | [] => Some c
  | op :: ops' =>
      match call c op with
      | Some c' => calls c' ops'
      | None => None
      end
  end.

End Cache.

Arguments CacheEntry : clear implicits.
Arguments LRUCache : clear implicits.
Arguments Call : clear implicits.

End LRUCache.

(** A cache of two entries at its capacity of 2: ["a"] set at time 0 and
    ["b"] at time 10, both with the default time to live. *)
Definition twoKeyCache : LRUCache.LRUCache Z :=
  default (LRUCache.new (Some 2) None)
    (LRUCache.calls (LRUCache.new (Some 2) None)
       [LRUCache.DoSet "a" 1 None 0; LRUCache.DoSet "b" 2 None 10]).

(* ===================================================================== *)
(** * Properties of services/errors.ts *)
(* ===================================================================== *)

Module ErrorsTheory.
Import Errors.

Lemma isRetryableError_iff (e : JsError) :
  isRetryableError e = true <->
  (instanceofAPIError e = true /\ isRetryableField e = true) \/
  (exists m, e = TypeError m).
Proof.
  destruct e; unfold isRetryableError; simpl; split;
    try (intros [[? ?] | [? ?]]; congruence); eauto.
  all: try discriminate.
Qed.

Lemma isRetryableError_fromResponse (r : Response) (body : option string) :
  isRetryableError (fromResponse r body) = (500 <=? status r) || (status r =? 429).
Proof. reflexivity. Qed.

Lemma isRetryableError_fromError (e : JsError) :
  isRetryableError (fromError e) =
  if instanceofAPIError e then isRetryableField e
  else match e with TypeError m => includes "fetch" m | _ => false end.
Proof.
  destruct e as [| | | | m | m n | | |]; try reflexivity.
  - unfold fromError; simpl. destruct (includes "fetch" m); reflexivity.
  - unfold fromError; simpl. destruct (String.eqb n "AbortError"); reflexivity.
Qed.

(** C5, as stated, fails, on two kinds that the table of the design
    document makes retryable.  A timeout is raised as an [AbortError],
    which [isRetryableError] does not retry; and a network failure whose
    message does not contain ["fetch"] (Safari's ["Load failed"]) is not
    retryable any more once [fromError] has classified it. *)
Lemma timeout_and_unrecognised_network_not_retried :
  (raisedAs Timeout (DOMException "The operation was aborted." "AbortError") /\
   spec_isRetryable Timeout = true /\
   isRetryableError (DOMException "The operation was aborted." "AbortError") = false) /\
  (raisedAs Network (fromError (TypeError "Load failed")) /\
   spec_isRetryable Network = true /\
   isRetryableError (fromError (TypeError "Load failed")) = false) /\
  ~ (forall k e, raisedAs k e -> isRetryableError e = spec_isRetryable k).
Proof.
  split; [| split].
  - split; [apply timeout_abort | split; reflexivity].
  - split; [apply network_classified | split; reflexivity].
  - intros H.
    specialize (H Timeout _ (timeout_abort "The operation was aborted.")).
    discriminate H.
Qed.

(** C5, amended: for the errors of every kind but Network,
    [isRetryableError] follows the table of the code: true for
    RateLimited and ServerError (a response with status at least 500, or
    429), false for Timeout, Authentication, ClientError, Cancelled,
    Validation and Unknown.  An error of kind Network is the [TypeError]
    of [fetch], which is retryable as it is, or what [fromError] makes of
    it, which is retryable exactly when the message of the [TypeError]
    contains ["fetch"]. *)
Theorem isRetryableError_by_kind (k : ErrorKind) (e : JsError) :
  raisedAs k e ->
  (k <> Network -> isRetryableError e = code_isRetryable k) /\
  (k = Network ->
   exists m,
     (e = TypeError m /\ isRetryableError e = true) \/
     (e = fromError (TypeError m) /\ isRetryableError e = includes "fetch" m)).
Proof.
  intros H. destruct H; (split; [intros Hk | intros Hk]);
    try contradiction; try discriminate; try reflexivity.
  - exists m. left. split; reflexivity.
  - exists m. right. split; [reflexivity |].
    rewrite isRetryableError_fromError. reflexivity.
  - rewrite isRetryableError_fromResponse; simpl.
    destruct H as [-> | ->]; reflexivity.
  - rewrite isRetryableError_fromResponse; simpl.
    apply orb_true_iff; left. apply Z.leb_le; assumption.
  - rewrite isRetryableError_fromResponse; simpl.
    apply orb_false_iff; split; [apply Z.leb_gt | apply Z.eqb_neq]; lia.
Qed.

Lemma isRetryableError_by_kind_witness :
  isRetryableError
    (fromResponse {| status := 503; statusText := "Service Unavailable" |} None) = true.
Proof.
  assert (H : raisedAs ServerError
                (fromResponse {| status := 503; statusText := "Service Unavailable" |} None))
    by (apply server_response; lia).
  apply (isRetryableError_by_kind ServerError _ H). discriminate.
Defined.

End ErrorsTheory.

Module RetryTheory.
Import Errors Retry.
#[local] Open Scope Q_scope.

Lemma delay_monotone (cfg : RetryConfig) (n m : Z) :
  0 <= baseDelay cfg -> 1 <= backoffMultiplier cfg -> (n <= m)%Z ->
  baseDelay cfg * backoffMultiplier cfg ^ n <= baseDelay cfg * backoffMultiplier cfg ^ m.
Proof.
  intros Hb Hm Hnm.
  rewrite !(Qmult_comm (baseDelay cfg)).
  apply Qmult_le_compat_r; [| assumption].
  apply Qpower_le_compat_l; assumption.
Qed.

(** In exact arithmetic: for a non-negative attempt, a base delay of at
    least 0, a multiplier of at least 1 and a maximal delay of at least 0,
    the value without jitter does not decrease when the attempt grows, it
    is a lower bound of the value with jitter, and the delay is never more
    than [maxDelay].  [DoublesTheory] has what is left of this over
    doubles. *)
Lemma exact_backoff_bounds (cfg : RetryConfig) (random : Q) (attempt : Z) :
  0 <= baseDelay cfg -> 1 <= backoffMultiplier cfg -> 0 <= maxDelay cfg ->
  (0 <= attempt)%Z -> 0 <= random < 1 ->
  (forall n m, (0 <= n <= m)%Z ->
     Qmin (baseDelay cfg * backoffMultiplier cfg ^ n) (maxDelay cfg) <=
     Qmin (baseDelay cfg * backoffMultiplier cfg ^ m) (maxDelay cfg)) /\
  Qmin (baseDelay cfg * backoffMultiplier cfg ^ attempt) (maxDelay cfg) <=
    calculateBackoff random attempt cfg /\
  calculateBackoff random attempt cfg <= maxDelay cfg.
Proof.
  intros Hb Hm Hmax Ha [Hr0 Hr1]. unfold calculateBackoff.
  split; [| split].
  - intros n m [_ Hnm].
    apply Q.min_le_compat_r. apply delay_monotone; assumption.
  - apply Q.min_le_compat_r. lra.
  - apply Q.le_min_r.
Qed.

Section WithRetryProofs.

Context {T : Type}.
Implicit Types (o : RetryOptions) (s : RetryState T) (ev : RetryEvent T)
  (evs : list (RetryEvent T)).

Lemma loopHead_inv o s : retryInv o (loopHead o s).
Proof.
  unfold retryInv, loopHead, setPhase.
  destruct (Z.leb_spec (attempt s) (maxRetries (config o))); simpl; [| exact I].
  destruct (aborted s); simpl; [exact I | assumption].
Qed.

Lemma onCatch_inv o e random s :
  (attempt s <= maxRetries (config o))%Z -> retryInv o (onCatch o e random s).
Proof.
  intros Hle. unfold retryInv, onCatch, setPhase; simpl.
  destruct (aborted s); simpl; [exact I |].
  destruct (Z.eqb_spec (attempt s) (maxRetries (config o))); simpl; [exact I |].
  destruct (shouldRetry o e (attempt s)); simpl; [| exact I].
  destruct (onRetry o e _ _); simpl; [exact I | lia].
Qed.

Lemma retryStep_inv o s ev : retryInv o s -> retryInv o (retryStep o s ev).
Proof.
  intros Hinv. unfold retryStep.
  destruct (phase s) eqn:Hp, ev; try assumption.
  - unfold retryInv; simpl; exact I.
  - apply onCatch_inv. unfold retryInv in Hinv; rewrite Hp in Hinv; assumption.
  - unfold retryInv in *; simpl; rewrite Hp in *; assumption.
  - apply loopHead_inv.
  - unfold retryInv in *; simpl; rewrite Hp in *; assumption.
Qed.

Lemma retryRun_inv o s evs : retryInv o s -> retryInv o (retryRun o s evs).
Proof.
  revert s. induction evs as [| ev evs IH]; intros s Hinv; simpl; [assumption |].
  apply IH, retryStep_inv, Hinv.
Qed.

Lemma withRetry_inv o sig evs : retryInv o (retryRun o (withRetry o sig) evs).
Proof. apply retryRun_inv, loopHead_inv. Qed.

(** A settled call ignores whatever happens later. *)
Lemma settled_stays o s evs : pending s = false -> retryRun o s evs = s.
Proof.
  intros Hp. induction evs as [| ev evs IH]; simpl; [reflexivity |].
  replace (retryStep o s ev) with s; [exact IH |].
  unfold retryStep, pending in *. destruct (phase s), ev; congruence.
Qed.

End WithRetryProofs.

(** C2, as stated, fails: the default configuration, an operation that
    fails with a retryable network error, and cancellation during the
    first back-off.  The call is still asleep, with its full delay, after
    the signal has fired. *)
Lemma abort_does_not_end_sleep :
  let s := retryRun defaultOptions (withRetry (T := unit) defaultOptions false)
             [OpRejected (TypeError "Failed to fetch") 0; Abort] in
  aborted s = true /\ pending s = true /\ phase s = Sleeping 1000.
Proof. vm_compute. repeat split. Qed.

(** C2, amended: when the signal fires during a back-off sleep, the call
    stays asleep for the delay it computed; when that sleep ends, the call
    rejects with an [AbortError] without calling the operation again, and
    nothing happens afterwards. *)
Theorem abort_during_sleep {T : Type} (o : RetryOptions) (sig : bool)
    (evs : list (RetryEvent T)) (delay : Q) :
  let s := retryRun o (withRetry o sig) evs in
  phase s = Sleeping delay ->
  let s1 := retryStep o s Abort in
  let s2 := retryStep o s1 SleepElapsed in
  phase s1 = Sleeping delay /\
  phase s2 = Rejected (Some (DOMException "Aborted" "AbortError")) /\
  calls s2 = calls s /\
  (forall later, retryRun o s2 later = s2).
Proof.
  intros s Hp s1 s2.
  pose proof (withRetry_inv o sig evs) as Hinv. fold s in Hinv.
  unfold retryInv in Hinv. rewrite Hp in Hinv.
  assert (H1 : phase s1 = Sleeping delay).
  { unfold s1, retryStep. rewrite Hp. reflexivity. }
  assert (E2 : s2 = {| phase := Rejected (Some (DOMException "Aborted" "AbortError"));
                       attempt := (attempt s + 1)%Z; lastError := lastError s;
                       aborted := true; calls := calls s; retryLog := retryLog s |}).
  { unfold s2, retryStep. rewrite H1. unfold s1, retryStep. rewrite Hp.
    unfold loopHead, setPhase; simpl.
    destruct (Z.leb_spec (attempt s + 1) (maxRetries (config o))); [reflexivity | lia]. }
  split; [assumption |].
  rewrite E2; simpl. split; [reflexivity |]. split; [reflexivity |].
  intros later. apply settled_stays. reflexivity.
Qed.

Lemma abort_during_sleep_witness :
  let s := retryRun defaultOptions (withRetry (T := unit) defaultOptions false)
             [OpRejected (TypeError "Failed to fetch") 0] in
  calls (retryStep defaultOptions (retryStep defaultOptions s Abort) SleepElapsed) = 1%nat.
Proof.
  intros s.
  destruct (abort_during_sleep (T := unit) defaultOptions false
              [OpRejected (TypeError "Failed to fetch") 0] 1000) as (_ & _ & H & _).
  - vm_compute. reflexivity.
  - exact H.
Defined.

End RetryTheory.

(* ===================================================================== *)
(** * Properties of calculateBackoff in double arithmetic *)
(* ===================================================================== *)

Module DoublesTheory.
Import Doubles.

(** ** The number of binary digits *)

Lemma digits2_pos_bounds (p : positive) :
  2 ^ (Z.pos (digits2_pos p) - 1) <= Z.pos p < 2 ^ Z.pos (digits2_pos p).
Proof.
  induction p as [p IH | p IH |]; simpl digits2_pos.
  - rewrite Pos2Z.inj_succ.
    replace (Z.succ (Z.pos (digits2_pos p)) - 1) with (Z.succ (Z.pos (digits2_pos p) - 1)) by lia.
    rewrite !Z.pow_succ_r by lia. lia.
  - rewrite Pos2Z.inj_succ.
    replace (Z.succ (Z.pos (digits2_pos p)) - 1) with (Z.succ (Z.pos (digits2_pos p) - 1)) by lia.
    rewrite !Z.pow_succ_r by lia. lia.
  - simpl. lia.
Qed.

Lemma digits_unique (p : positive) (d : Z) :
  2 ^ (d - 1) <= Z.pos p < 2 ^ d -> Z.pos (digits2_pos p) = d.
Proof.
  intros [Hlo Hhi]. pose proof (digits2_pos_bounds p) as [Hlo' Hhi'].
  assert (Hd : 0 < d).
  { destruct (Z.lt_trichotomy 0 d) as [H | [H | H]]; [exact H | |].
    - subst d. simpl in Hhi. lia.
    - rewrite Z.pow_neg_r in Hhi by lia. lia. }
  destruct (Z.lt_trichotomy (Z.pos (digits2_pos p)) d) as [H | [H | H]]; [| exact H |].
  - assert (2 ^ Z.pos (digits2_pos p) <= 2 ^ (d - 1)) by (apply Z.pow_le_mono_r; lia). lia.
  - assert (2 ^ d <= 2 ^ (Z.pos (digits2_pos p) - 1)) by (apply Z.pow_le_mono_r; lia). lia.
Qed.

Lemma digits_mono (p q : positive) :
  Z.pos p <= Z.pos q -> Z.pos (digits2_pos p) <= Z.pos (digits2_pos q).
Proof.
  intros Hle. pose proof (digits2_pos_bounds p) as [Hlo _].
  pose proof (digits2_pos_bounds q) as [_ Hhi].
  destruct (Z.le_gt_cases (Z.pos (digits2_pos p)) (Z.pos (digits2_pos q))) as [H | H];
    [exact H |].
  assert (2 ^ Z.pos (digits2_pos q) <= 2 ^ (Z.pos (digits2_pos p) - 1))
    by (apply Z.pow_le_mono_r; lia).
  lia.
Qed.

(** The digits of a product are at least those of its factors, less one. *)
Lemma digits_mul (p q : positive) :
  Z.pos (digits2_pos p) + Z.pos (digits2_pos q) - 1 <= Z.pos (digits2_pos (p * q)).
Proof.
  pose proof (digits2_pos_bounds p) as [Hp _].
  pose proof (digits2_pos_bounds q) as [Hq _].
  pose proof (digits2_pos_bounds (p * q)) as [_ Hpq].
  destruct (Z.le_gt_cases (Z.pos (digits2_pos p) + Z.pos (digits2_pos q) - 1)
              (Z.pos (digits2_pos (p * q)))) as [H | H]; [exact H |].
  assert (H1 : 2 ^ Z.pos (digits2_pos (p * q)) <=
               2 ^ (Z.pos (digits2_pos p) - 1 + (Z.pos (digits2_pos q) - 1)))
    by (apply Z.pow_le_mono_r; lia).
  rewrite Z.pow_add_r in H1 by lia.
  rewrite Pos2Z.inj_mul in Hpq.
  assert (H2 : 2 ^ (Z.pos (digits2_pos p) - 1) * 2 ^ (Z.pos (digits2_pos q) - 1) <=
               Z.pos p * Z.pos q) by (apply Z.mul_le_mono_nonneg; lia).
  lia.
Qed.

(** ** Shifting the mantissa right *)

Lemma shr_1_nonneg (m : Z) (r s : bool) :
  0 <= m ->
  shr_1 {| shr_m := m; shr_r := r; shr_s := s |} =
  {| shr_m := m / 2; shr_r := Z.odd m; shr_s := r || s |}.
Proof.
  intros Hm. rewrite <- Z.div2_div.
  destruct m as [| [p | p |] | p]; try reflexivity. lia.
Qed.

Lemma mod_pow2_split (m j : Z) :
  0 < j ->
  m mod 2 ^ j = m mod 2 ^ (j - 1) + 2 ^ (j - 1) * Z.b2z (Z.testbit m (j - 1)).
Proof.
  intros Hj.
  replace (2 ^ j) with (2 ^ (j - 1) * 2).
  2:{ replace j with (Z.succ (j - 1)) at 2 by lia. rewrite Z.pow_succ_r by lia. lia. }
  rewrite Z.rem_mul_r by (try apply Z.pow_nonzero; lia).
  f_equal. f_equal.
  rewrite Z.testbit_odd, Z.shiftr_div_pow2 by lia.
  rewrite Zmod_odd. destruct (Z.odd _); reflexivity.
Qed.

Lemma shr_1_shifted (m j : Z) :
  0 <= m -> 0 <= j -> shr_1 (shifted m j) = shifted m (j + 1).
Proof.
  intros Hm Hj. unfold shifted.
  rewrite shr_1_nonneg by (apply Z.div_pos; [exact Hm | apply Z.pow_pos_nonneg; lia]).
  destruct (Z.eqb_spec (j + 1) 0) as [H | _]; [lia |].
  replace (j + 1 - 1) with j by lia.
  f_equal.
  - rewrite Z.pow_add_r, Z.pow_1_r by lia.
    rewrite Z.div_div by (try apply Z.pow_nonzero; lia). reflexivity.
  - rewrite Z.testbit_odd, Z.shiftr_div_pow2 by lia. reflexivity.
  - destruct (Z.eqb_spec j 0) as [-> | Hne].
    + simpl. rewrite Z.mod_1_r. reflexivity.
    + rewrite (mod_pow2_split m j) by lia.
      assert (Hp : 0 < 2 ^ (j - 1)) by (apply Z.pow_pos_nonneg; lia).
      pose proof (Z.mod_pos_bound m (2 ^ (j - 1)) Hp) as Hb.
      destruct (Z.testbit m (j - 1)); simpl Z.b2z.
      * simpl. symmetry. apply negb_true_iff. apply Z.eqb_neq. lia.
      * simpl. rewrite Z.mul_0_r, Z.add_0_r. reflexivity.
Qed.

Lemma iter_pos_shifted (m : Z) (p : positive) (j : Z) :
  0 <= m -> 0 <= j -> SpecFloat.iter_pos shr_1 p (shifted m j) = shifted m (j + Z.pos p).
Proof.
  intros Hm. revert j. induction p as [p IH | p IH |]; intros j Hj; cbn [SpecFloat.iter_pos].
  - rewrite shr_1_shifted, !IH by lia. f_equal. lia.
  - rewrite !IH by lia. f_equal. lia.
  - apply shr_1_shifted; assumption.
Qed.

Lemma shifted_0 (m : Z) : shifted m 0 = {| shr_m := m; shr_r := false; shr_s := false |}.
Proof. unfold shifted. simpl. rewrite Z.div_1_r. reflexivity. Qed.

(** [shr] by [k] places, from an exact mantissa. *)
Lemma shr_exact (m e k : Z) :
  0 <= m -> shr (shr_record_of_loc m loc_Exact) e k =
            if 0 <? k then (shifted m k, e + k) else (shifted m 0, e).
Proof.
  intros Hm. unfold shr, shr_record_of_loc. rewrite <- shifted_0.
  destruct k as [| p | p]; simpl; try reflexivity.
  rewrite iter_pos_shifted by lia. reflexivity.
Qed.

(** Rounding what [shr] has left is rounding the quotient. *)
Lemma round_shifted (m k : Z) :
  0 <= m -> 0 <= k ->
  round_nearest_even (shr_m (shifted m k)) (loc_of_shr_record (shifted m k)) = rne m k.
Proof.
  intros Hm Hk. unfold rne.
  destruct (Z.eqb_spec k 0) as [-> | Hne].
  - rewrite shifted_0. simpl. rewrite Z.mod_1_r, Z.div_1_r. reflexivity.
  - unfold shifted. destruct (Z.eqb_spec k 0) as [| _]; [contradiction |].
    rewrite (mod_pow2_split m k) by lia.
    assert (Hp : 0 < 2 ^ (k - 1)) by (apply Z.pow_pos_nonneg; lia).
    pose proof (Z.mod_pos_bound m (2 ^ (k - 1)) Hp) as Hb.
    assert (H2 : 2 ^ k = 2 * 2 ^ (k - 1)).
    { replace k with (Z.succ (k - 1)) at 1 by lia. rewrite Z.pow_succ_r by lia. lia. }
    set (q := m / 2 ^ k). set (t := m mod 2 ^ (k - 1)) in *.
    destruct (Z.testbit m (k - 1)); simpl Z.b2z;
      destruct (Z.eqb_spec t 0) as [Ht | Ht]; simpl.
    + replace (2 * (t + 2 ^ (k - 1) * 1) ?= 2 ^ k) with Eq;
        [reflexivity |]. symmetry. apply Z.compare_eq_iff. lia.
    + replace (2 * (t + 2 ^ (k - 1) * 1) ?= 2 ^ k) with Gt;
        [reflexivity |]. symmetry. apply Z.compare_gt_iff. lia.
    + replace (2 * (t + 2 ^ (k - 1) * 0) ?= 2 ^ k) with Lt;
        [reflexivity |]. symmetry. apply Z.compare_lt_iff. lia.
    + replace (2 * (t + 2 ^ (k - 1) * 0) ?= 2 ^ k) with Lt;
        [reflexivity |]. symmetry. apply Z.compare_lt_iff. lia.
Qed.

(** ** Rounding to the nearest integer, ties to even *)

Lemma rne_bounds (m k : Z) : m / 2 ^ k <= rne m k <= m / 2 ^ k + 1.
Proof.
  unfold rne. cbv zeta.
  destruct (Z.compare_spec (2 * (m mod 2 ^ k)) (2 ^ k)); try lia.
  destruct (Z.even _); lia.
Qed.

Lemma rne_0_r (m : Z) : rne m 0 = m.
Proof. unfold rne. simpl. rewrite Z.mod_1_r, Z.div_1_r. reflexivity. Qed.

Lemma rne_nonneg (m k : Z) : 0 <= m -> 0 <= k -> 0 <= rne m k.
Proof.
  intros Hm Hk. pose proof (rne_bounds m k).
  assert (0 <= m / 2 ^ k) by (apply Z.div_pos; [exact Hm | apply Z.pow_pos_nonneg; lia]).
  lia.
Qed.

(** A multiple of [2^k] is not rounded. *)
Lemma rne_exact (q k : Z) : 0 <= k -> rne (q * 2 ^ k) k = q.
Proof.
  intros Hk. unfold rne.
  assert (Hp : 0 < 2 ^ k) by (apply Z.pow_pos_nonneg; lia).
  rewrite Z.mod_mul, Z.div_mul by lia. cbv zeta.
  destruct (Z.compare_spec (2 * 0) (2 ^ k)); [lia | reflexivity | lia].
Qed.

Lemma rne_mono_fixed (m1 m2 k : Z) : 0 <= k -> m1 <= m2 -> rne m1 k <= rne m2 k.
Proof.
  intros Hk Hle.
  assert (Hp : 0 < 2 ^ k) by (apply Z.pow_pos_nonneg; lia).
  pose proof (Z.div_le_mono m1 m2 (2 ^ k) Hp Hle) as Hq.
  pose proof (Z.div_mod m1 (2 ^ k) ltac:(lia)) as E1.
  pose proof (Z.div_mod m2 (2 ^ k) ltac:(lia)) as E2.
  pose proof (Z.mod_pos_bound m1 (2 ^ k) Hp) as B1.
  pose proof (Z.mod_pos_bound m2 (2 ^ k) Hp) as B2.
  pose proof (rne_bounds m1 k) as R1. pose proof (rne_bounds m2 k) as R2.
  destruct (Z.eq_dec (m1 / 2 ^ k) (m2 / 2 ^ k)) as [Heq | Hne]; [| lia].
  assert (Hr : m1 mod 2 ^ k <= m2 mod 2 ^ k) by (rewrite Heq in E1; lia).
  unfold rne in *. rewrite Heq in *.
  destruct (Z.compare_spec (2 * (m1 mod 2 ^ k)) (2 ^ k));
    destruct (Z.compare_spec (2 * (m2 mod 2 ^ k)) (2 ^ k));
    try destruct (Z.even (m2 / 2 ^ k)); lia.
Qed.

Lemma rne_scale (m k j : Z) : 0 <= k -> 0 <= j -> rne (m * 2 ^ j) (k + j) = rne m k.
Proof.
  intros Hk Hj. unfold rne.
  assert (Hpk : 0 < 2 ^ k) by (apply Z.pow_pos_nonneg; lia).
  assert (Hpj : 0 < 2 ^ j) by (apply Z.pow_pos_nonneg; lia).
  rewrite Z.pow_add_r by lia.
  rewrite Z.div_mul_cancel_r by lia.
  rewrite Z.mul_mod_distr_r by lia.
  replace (2 * (m mod 2 ^ k * 2 ^ j) ?= 2 ^ k * 2 ^ j)
    with (2 * (m mod 2 ^ k) ?= 2 ^ k); [reflexivity |].
  rewrite Z.mul_assoc. apply Zmult_compare_compat_r. lia.
Qed.

Lemma rne_mono (m1 m2 k1 k2 : Z) :
  0 <= k2 <= k1 -> m1 <= m2 * 2 ^ (k1 - k2) -> rne m1 k1 <= rne m2 k2.
Proof.
  intros Hk Hle.
  rewrite <- (rne_scale m2 k2 (k1 - k2)) by lia.
  replace (k2 + (k1 - k2)) with k1 by lia.
  apply rne_mono_fixed; [lia | exact Hle].
Qed.

(** ** What [binary_round_aux] computes *)

Lemma fexp_eq (e : Z) : fexp e = Z.max (e - 53) (-1074).
Proof. reflexivity. Qed.

Lemma fexp_mono (e e' : Z) : e <= e' -> fexp e <= fexp e'.
Proof. rewrite !fexp_eq. lia. Qed.

(** The quotient that is rounded has at most 53 digits. *)
Lemma quotient_bound (M : positive) (e0 : Z) :
  let E := fexp (Z.pos (digits2_pos M) + e0) in
  e0 <= E -> Z.pos M / 2 ^ (E - e0) < 2 ^ 53.
Proof.
  intros E HE. pose proof (digits2_pos_bounds M) as [_ Hhi].
  assert (Hk : Z.pos (digits2_pos M) <= E - e0 + 53) by (unfold E; rewrite fexp_eq; lia).
  apply Z.div_lt_upper_bound; [apply Z.pow_pos_nonneg; lia |].
  rewrite <- Z.pow_add_r by lia.
  assert (2 ^ Z.pos (digits2_pos M) <= 2 ^ (E - e0 + 53)) by (apply Z.pow_le_mono_r; lia).
  lia.
Qed.

(** Above the least exponent, it has exactly 53 digits. *)
Lemma quotient_normal (M : positive) (e0 : Z) :
  let E := fexp (Z.pos (digits2_pos M) + e0) in
  e0 <= E -> -1074 < E -> 2 ^ 52 <= Z.pos M / 2 ^ (E - e0).
Proof.
  intros E HE Hn. pose proof (digits2_pos_bounds M) as [Hlo _].
  assert (Hk : E - e0 = Z.pos (digits2_pos M) - 53) by (unfold E in *; rewrite fexp_eq in *; lia).
  apply Z.div_le_lower_bound; [apply Z.pow_pos_nonneg; lia |].
  rewrite <- Z.pow_add_r by lia.
  replace (E - e0 + 52) with (Z.pos (digits2_pos M) - 1) by lia. exact Hlo.
Qed.

Lemma rounded_bounds (M : positive) (e0 : Z) :
  let E := fexp (Z.pos (digits2_pos M) + e0) in
  e0 <= E ->
  0 <= rne (Z.pos M) (E - e0) <= 2 ^ 53 /\
  (-1074 < E -> 2 ^ 52 <= rne (Z.pos M) (E - e0)).
Proof.
  intros E HE. pose proof (rne_bounds (Z.pos M) (E - e0)) as Hb.
  pose proof (quotient_bound M e0 HE) as Hq. fold E in Hq.
  split; [split; [apply rne_nonneg; lia | lia] |].
  intros Hn. pose proof (quotient_normal M e0 HE Hn) as Hq'. fold E in Hq'. lia.
Qed.

Lemma digits_le_53 (p : positive) : Z.pos p < 2 ^ 53 -> Z.pos (digits2_pos p) <= 53.
Proof.
  intros Hlt. pose proof (digits2_pos_bounds p) as [Hlo _].
  destruct (Z.le_gt_cases (Z.pos (digits2_pos p)) 53) as [H | H]; [exact H |].
  assert (2 ^ 53 <= 2 ^ (Z.pos (digits2_pos p) - 1)) by (apply Z.pow_le_mono_r; lia).
  lia.
Qed.

(** Rounding an exact mantissa that has more digits than the format
    keeps: the quotient is rounded to the nearest integer, ties to even,
    and a carry into the 54th digit moves the exponent up. *)
Lemma binary_round_aux_pack (s : bool) (M : positive) (e0 : Z) :
  let E := fexp (Z.pos (digits2_pos M) + e0) in
  e0 <= E ->
  binary_round_aux prec emax s (Z.pos M) e0 loc_Exact =
  pack s (rne (Z.pos M) (E - e0)) E.
Proof.
  intros E HE.
  destruct (rounded_bounds M e0 HE) as [[Hn0 Hn1] _]. fold E in Hn0, Hn1.
  assert (HEmin : -1074 <= E) by (unfold E; rewrite fexp_eq; lia).
  unfold binary_round_aux, shr_fexp.
  change (SpecFloat.fexp prec emax) with fexp.
  change (Zdigits2 (Z.pos M)) with (Z.pos (digits2_pos M)). fold E.
  rewrite shr_exact by lia.
  assert (H1 : (if 0 <? E - e0 then (shifted (Z.pos M) (E - e0), e0 + (E - e0))
                else (shifted (Z.pos M) 0, e0)) = (shifted (Z.pos M) (E - e0), E)).
  { destruct (Z.ltb_spec 0 (E - e0)); [f_equal; lia |].
    replace (E - e0) with 0 by lia. f_equal. lia. }
  rewrite H1. rewrite round_shifted by lia.
  set (n := rne (Z.pos M) (E - e0)) in *.
  rewrite shr_exact by lia.
  destruct n as [| p | p] eqn:Hn; [| | lia].
  - simpl Zdigits2.
    destruct (Z.ltb_spec 0 (fexp (0 + E) - E)) as [H | H];
      [rewrite fexp_eq in H; lia |].
    rewrite shifted_0. reflexivity.
  - change (Zdigits2 (Z.pos p)) with (Z.pos (digits2_pos p)).
    unfold pack. destruct (Z.eqb_spec (Z.pos p) (2 ^ 53)) as [Heq | Hne].
    + assert (Hd : Z.pos (digits2_pos p) = 54).
      { apply digits_unique. rewrite Heq. simpl. lia. }
      rewrite Hd.
      destruct (Z.ltb_spec 0 (fexp (54 + E) - E)) as [H | H];
        [| rewrite fexp_eq in H; lia].
      replace (fexp (54 + E) - E) with 1 by (rewrite fexp_eq; lia).
      rewrite Heq. reflexivity.
    + assert (Hd : Z.pos (digits2_pos p) <= 53) by (apply digits_le_53; lia).
      destruct (Z.ltb_spec 0 (fexp (Z.pos (digits2_pos p) + E) - E)) as [H | H];
        [rewrite fexp_eq in H; lia |].
      rewrite shifted_0. reflexivity.
Qed.

(** ** Doubles and their order *)

Lemma isDouble_finite (s : bool) (m : positive) (e : Z) :
  isDouble (S754_finite s m e) = true <->
  -1074 <= e <= 971 /\ Z.pos m < 2 ^ 53 /\ (-1074 < e -> 2 ^ 52 <= Z.pos m).
Proof.
  unfold isDouble, valid_binary, bounded, canonical_mantissa.
  change (SpecFloat.fexp prec emax) with fexp. rewrite fexp_eq.
  change (emax - prec) with 971.
  pose proof (digits2_pos_bounds m) as [Hlo Hhi].
  rewrite andb_true_iff, Z.eqb_eq, Z.leb_le. split.
  - intros [Hc He].
    assert (Hd : Z.pos (digits2_pos m) <= 53) by lia.
    assert (H53 : 2 ^ Z.pos (digits2_pos m) <= 2 ^ 53) by (apply Z.pow_le_mono_r; lia).
    split; [lia |]. split; [lia |].
    intros Hn. replace (Z.pos (digits2_pos m)) with 53 in Hlo by lia. exact Hlo.
  - intros (He & Hm & Hn).
    assert (Hd : Z.pos (digits2_pos m) <= 53) by (apply digits_le_53; exact Hm).
    split; [| lia].
    destruct (Z.eq_dec e (-1074)) as [-> | Hne]; [lia |].
    assert (Z.pos (digits2_pos m) = 53); [| lia].
    apply digits_unique. split; [apply Hn; lia | exact Hm].
Qed.

Lemma pack_isDouble (s : bool) (n E : Z) :
  0 <= n <= 2 ^ 53 -> -1074 <= E -> (-1074 < E -> 2 ^ 52 <= n) ->
  isDouble (pack s n E) = true.
Proof.
  intros Hn HE Hnorm. unfold pack. change (emax - prec) with 971.
  destruct n as [| p | p]; [reflexivity | | lia].
  destruct (Z.eqb_spec (Z.pos p) (2 ^ 53)) as [Heq | Hne].
  - destruct (Z.leb_spec (E + 1) 971); [| reflexivity].
    apply isDouble_finite. simpl. lia.
  - destruct (Z.leb_spec E 971); [| reflexivity].
    apply isDouble_finite. lia.
Qed.

Lemma pack_notNegative (n E : Z) : 0 <= n -> notNegative (pack false n E) = true.
Proof.
  intros Hn. unfold pack. destruct n as [| p | p]; [reflexivity | | lia].
  destruct (_ =? _); destruct (_ <=? _); reflexivity.
Qed.

Lemma key_pack (n E : Z) :
  0 <= n <= 2 ^ 53 -> -1074 <= E -> (-1074 < E -> 2 ^ 52 <= n) ->
  key (pack false n E) = Z.min (2047 * 2 ^ 52) ((E + 1074) * 2 ^ 52 + n).
Proof.
  intros Hn HE Hnorm. unfold pack, key. change (emax - prec) with 971.
  change emin with (-1074).
  destruct n as [| p | p]; [| | lia].
  - assert (E = -1074) by lia. subst E. reflexivity.
  - destruct (Z.eqb_spec (Z.pos p) (2 ^ 53)) as [Heq | Hne].
    + rewrite Heq. destruct (Z.leb_spec (E + 1) 971);
        change (Z.pos (Z.to_pos (2 ^ 52))) with (2 ^ 52); lia.
    + destruct (Z.leb_spec E 971); lia.
Qed.

Lemma key_bounds (x : number) :
  isDouble x = true -> notNegative x = true -> 0 <= key x <= 2047 * 2 ^ 52.
Proof.
  intros Hv Hs. destruct x as [s | s | | s m e]; simpl; try lia; [discriminate |].
  apply isDouble_finite in Hv. change emin with (-1074). lia.
Qed.

(** The order of the doubles that are not negative is the order of
    their keys. *)
Lemma compare_key (x y : number) :
  isDouble x = true -> isDouble y = true ->
  notNegative x = true -> notNegative y = true ->
  SFcompare x y = Some (key x ?= key y).
Proof.
  intros Hx Hy Sx Sy.
  destruct x as [sx | sx | | sx mx ex], y as [sy | sy | | sy my ey];
    simpl in Sx, Sy; try discriminate;
    try (apply negb_true_iff in Sx; subst sx);
    try (apply negb_true_iff in Sy; subst sy);
    try (apply isDouble_finite in Hx); try (apply isDouble_finite in Hy);
    unfold SFcompare, key; change emin with (-1074); cbv beta iota;
    f_equal; symmetry;
    try reflexivity;
    try (apply Z.compare_lt_iff; lia);
    try (apply Z.compare_gt_iff; lia).
  destruct (Z.compare_spec ex ey) as [-> | Hlt | Hgt].
  - rewrite Pos.compare_cont_spec. simpl.
    change (Pos.compare mx my) with (Z.pos mx ?= Z.pos my).
    destruct (Z.compare_spec (Z.pos mx) (Z.pos my)) as [H | H | H].
    + apply Z.compare_eq_iff. lia.
    + apply Z.compare_lt_iff. lia.
    + apply Z.compare_gt_iff. lia.
  - apply Z.compare_lt_iff. nia.
  - apply Z.compare_gt_iff. nia.
Qed.

Lemma leb_key (x y : number) :
  isDouble x = true -> isDouble y = true ->
  notNegative x = true -> notNegative y = true ->
  leb x y = true <-> key x <= key y.
Proof.
  intros Hx Hy Sx Sy. unfold leb, SFleb. rewrite (compare_key x y Hx Hy Sx Sy).
  destruct (Z.compare_spec (key x) (key y)); split; intros; try lia; try reflexivity;
    discriminate.
Qed.

Lemma ltb_key (x y : number) :
  isDouble x = true -> isDouble y = true ->
  notNegative x = true -> notNegative y = true ->
  ltb x y = true <-> key x < key y.
Proof.
  intros Hx Hy Sx Sy. unfold ltb, SFltb. rewrite (compare_key x y Hx Hy Sx Sy).
  destruct (Z.compare_spec (key x) (key y)); split; intros; try lia; try reflexivity;
    discriminate.
Qed.

(** ** Rounding does not change the order *)

Lemma round_key (M : positive) (e0 : Z) :
  let E := fexp (Z.pos (digits2_pos M) + e0) in
  e0 <= E ->
  let r := binary_round_aux prec emax false (Z.pos M) e0 loc_Exact in
  isDouble r = true /\ notNegative r = true /\
  key r = Z.min (2047 * 2 ^ 52) ((E + 1074) * 2 ^ 52 + rne (Z.pos M) (E - e0)).
Proof.
  intros E HE r. unfold r. rewrite (binary_round_aux_pack false M e0 HE). fold E.
  destruct (rounded_bounds M e0 HE) as [Hn Hnorm]. fold E in Hn, Hnorm.
  assert (HEmin : -1074 <= E) by (unfold E; rewrite fexp_eq; lia).
  split; [apply pack_isDouble; assumption |].
  split; [apply pack_notNegative; lia |].
  apply key_pack; assumption.
Qed.

Lemma round_isDouble (s : bool) (M : positive) (e0 : Z) :
  e0 <= fexp (Z.pos (digits2_pos M) + e0) ->
  isDouble (binary_round_aux prec emax s (Z.pos M) e0 loc_Exact) = true.
Proof.
  intros HE. rewrite (binary_round_aux_pack s M e0 HE).
  destruct (rounded_bounds M e0 HE) as [Hn Hnorm].
  apply pack_isDouble; try assumption. rewrite fexp_eq. lia.
Qed.

(** Of two exact values, the smaller is rounded to the smaller double. *)
Lemma round_mono (M1 M2 : positive) (e1 e2 : Z) :
  e1 <= fexp (Z.pos (digits2_pos M1) + e1) ->
  e2 <= fexp (Z.pos (digits2_pos M2) + e2) ->
  e1 <= e2 -> Z.pos M1 <= Z.pos M2 * 2 ^ (e2 - e1) ->
  key (binary_round_aux prec emax false (Z.pos M1) e1 loc_Exact) <=
  key (binary_round_aux prec emax false (Z.pos M2) e2 loc_Exact).
Proof.
  intros H1 H2 He Hle.
  destruct (round_key M1 e1 H1) as (_ & _ & ->).
  destruct (round_key M2 e2 H2) as (_ & _ & ->).
  destruct (rounded_bounds M1 e1 H1) as [[_ Hn1] _].
  destruct (rounded_bounds M2 e2 H2) as [_ Hn2].
  set (d1 := Z.pos (digits2_pos M1)) in *. set (d2 := Z.pos (digits2_pos M2)) in *.
  assert (Hd : d1 + e1 <= d2 + e2).
  { pose proof (digits2_pos_bounds M1) as [Hlo _].
    pose proof (digits2_pos_bounds M2) as [_ Hhi]. fold d1 in Hlo. fold d2 in Hhi.
    assert (Hp : 0 < 2 ^ (e2 - e1)) by (apply Z.pow_pos_nonneg; lia).
    assert (Hlt : 2 ^ (d1 - 1) < 2 ^ (d2 + (e2 - e1))).
    { rewrite Z.pow_add_r by (unfold d2; lia). nia. }
    apply Z.pow_lt_mono_r_iff in Hlt; unfold d1, d2 in *; lia. }
  pose proof (fexp_mono _ _ Hd) as HE.
  set (E1 := fexp (d1 + e1)) in *. set (E2 := fexp (d2 + e2)) in *.
  apply Z.min_le_compat_l.
  destruct (Z.eq_dec E1 E2) as [Heq | Hne].
  - rewrite Heq. apply Zplus_le_compat_l.
    apply rne_mono; [lia |].
    replace (E2 - e1 - (E2 - e2)) with (e2 - e1) by lia. exact Hle.
  - assert (Hnorm : 2 ^ 52 <= rne (Z.pos M2) (E2 - e2)).
    { assert (-1074 <= E1) by (unfold E1; rewrite fexp_eq; lia). apply Hn2. lia. }
    nia.
Qed.

(** ** Multiplication *)

Lemma mul_comm (x y : number) : mul x y = mul y x.
Proof.
  destruct x as [sx | sx | | sx mx ex], y as [sy | sy | | sy my ey];
    unfold mul; simpl; try reflexivity; try (rewrite xorb_comm; reflexivity).
  rewrite xorb_comm, Pos.mul_comm, Z.add_comm. reflexivity.
Qed.

(** The exact product of two doubles has as many digits as the format
    keeps, or lies below the least exponent: it is rounded, not padded. *)
Lemma product_is_rounded (sx sy : bool) (mx my : positive) (ex ey : Z) :
  isDouble (S754_finite sx mx ex) = true -> isDouble (S754_finite sy my ey) = true ->
  ex + ey <= fexp (Z.pos (digits2_pos (mx * my)) + (ex + ey)).
Proof.
  intros Hx Hy. apply isDouble_finite in Hx, Hy.
  destruct Hx as (Hex & Hmx & Hnx), Hy as (Hey & Hmy & Hny).
  pose proof (digits_mul mx my) as Hd. rewrite fexp_eq.
  assert (Hdx : -1074 < ex -> Z.pos (digits2_pos mx) = 53).
  { intros H. apply digits_unique. split; [apply Hnx; exact H | exact Hmx]. }
  assert (Hdy : -1074 < ey -> Z.pos (digits2_pos my) = 53).
  { intros H. apply digits_unique. split; [apply Hny; exact H | exact Hmy]. }
  destruct (Z.eq_dec ex (-1074)) as [Hx0 | Hx0];
    destruct (Z.eq_dec ey (-1074)) as [Hy0 | Hy0]; lia.
Qed.

Lemma mul_isDouble (x y : number) :
  isDouble x = true -> isDouble y = true -> isDouble (mul x y) = true.
Proof.
  intros Hx Hy.
  destruct x as [sx | sx | | sx mx ex], y as [sy | sy | | sy my ey]; try reflexivity.
  unfold mul, SFmul. apply round_isDouble. apply (product_is_rounded sx sy); assumption.
Qed.

Lemma mul_notNegative (x y : number) :
  isDouble x = true -> isDouble y = true ->
  notNegative x = true -> notNegative y = true -> isNaN (mul x y) = false ->
  notNegative (mul x y) = true.
Proof.
  intros Hx Hy Sx Sy Hn.
  destruct x as [sx | sx | | sx mx ex], y as [sy | sy | | sy my ey];
    simpl in Sx, Sy, Hn; try discriminate;
    try (apply negb_true_iff in Sx; subst sx);
    try (apply negb_true_iff in Sy; subst sy);
    try reflexivity.
  unfold mul, SFmul. simpl xorb.
  apply (round_key (mx * my) (ex + ey)).
  apply (product_is_rounded false false); assumption.
Qed.

(** [x * y] is [NaN] only for [0 * Infinity]. *)
Lemma mul_isNaN (x y : number) :
  isDouble x = true -> isDouble y = true ->
  notNegative x = true -> notNegative y = true ->
  (isNaN (mul x y) = true <->
   (key x = 0 /\ y = Infinity) \/ (x = Infinity /\ key y = 0)).
Proof.
  intros Hx Hy Sx Sy.
  destruct x as [sx | sx | | sx mx ex], y as [sy | sy | | sy my ey];
    simpl in Sx, Sy; try discriminate;
    try (apply negb_true_iff in Sx; subst sx);
    try (apply negb_true_iff in Sy; subst sy);
    try (apply isDouble_finite in Hx); try (apply isDouble_finite in Hy);
    unfold Infinity; simpl; change emin with (-1074);
    try (split; [discriminate | intros [[? ?] | [? ?]]; try discriminate; lia]);
    try (split; [reflexivity | eauto]; fail).
  - split; [intros _; left; split; reflexivity | reflexivity].
  - split; [intros _; right; split; reflexivity | reflexivity].
  - split; [| intros [[? ?] | [? ?]]; try discriminate; lia].
    intros H. exfalso.
    assert (Hv : isDouble (S754_finite false mx ex) = true) by (apply isDouble_finite; exact Hx).
    assert (Hw : isDouble (S754_finite false my ey) = true) by (apply isDouble_finite; exact Hy).
    pose proof (product_is_rounded false false mx my ex ey Hv Hw) as Hr.
    destruct (round_key (mx * my) (ex + ey) Hr) as (_ & Hs & _).
    unfold mul, SFmul in H. simpl xorb in H.
    destruct (binary_round_aux _ _ _ _ _ _); discriminate.
Qed.

(** Multiplication by a double that is not negative keeps the order. *)
Lemma mul_le_mono (x y z : number) :
  isDouble x = true -> isDouble y = true -> isDouble z = true ->
  notNegative x = true -> notNegative y = true -> notNegative z = true ->
  key y <= key z ->
  isNaN (mul x y) = false -> isNaN (mul x z) = false ->
  key (mul x y) <= key (mul x z).
Proof.
  intros Hx Hy Hz Sx Sy Sz Hle Ny Nz.
  pose proof (key_bounds (mul x z) (mul_isDouble x z Hx Hz)
                (mul_notNegative x z Hx Hz Sx Sz Nz)) as Bz.
  pose proof (key_bounds (mul x y) (mul_isDouble x y Hx Hy)
                (mul_notNegative x y Hx Hy Sx Sy Ny)) as By.
  destruct x as [sx | sx | | sx mx ex]; simpl in Sx; try discriminate;
    try (apply negb_true_iff in Sx; subst sx);
    destruct y as [sy | sy | | sy my ey]; simpl in Sy; try discriminate;
    try (apply negb_true_iff in Sy; subst sy);
    destruct z as [sz | sz | | sz mz ez]; simpl in Sz; try discriminate;
    try (apply negb_true_iff in Sz; subst sz);
    try (pose proof (proj1 (isDouble_finite _ _ _) Hy) as Hy');
    try (pose proof (proj1 (isDouble_finite _ _ _) Hz) as Hz');
    cbn [mul SFmul xorb key isNaN] in *; change emin with (-1074) in *;
    try discriminate; try lia.
  pose proof (product_is_rounded false false mx my ex ey Hx Hy) as Ry.
  pose proof (product_is_rounded false false mx mz ex ez Hx Hz) as Rz.
  assert (Hord : ey <= ez /\ Z.pos my <= Z.pos mz * 2 ^ (ez - ey)).
  { destruct (Z.lt_trichotomy ey ez) as [H | [H | H]].
    - split; [lia |].
      assert (2 <= 2 ^ (ez - ey)).
      { change 2 with (2 ^ 1) at 1. apply Z.pow_le_mono_r; lia. }
      nia.
    - subst ez. rewrite Z.sub_diag. simpl. split; nia.
    - exfalso. nia. }
  destruct Hord as [He Hm].
  apply round_mono; try assumption; [lia |].
  replace (ex + ez - (ex + ey)) with (ez - ey) by lia.
  rewrite !Pos2Z.inj_mul.
  assert (0 < 2 ^ (ez - ey)) by (apply Z.pow_pos_nonneg; lia).
  nia.
Qed.

(** ** Addition *)

Lemma binary_round_aux_not_NaN (s : bool) (M : positive) (e0 : Z) :
  isNaN (binary_round_aux prec emax s (Z.pos M) e0 loc_Exact) = false.
Proof.
  destruct (Z.le_gt_cases e0 (fexp (Z.pos (digits2_pos M) + e0))) as [HE | HE].
  - rewrite (binary_round_aux_pack s M e0 HE).
    destruct (rounded_bounds M e0 HE) as [[Hn _] _].
    unfold pack. destruct (rne _ _) as [| p | p]; [reflexivity | | lia].
    destruct (_ =? _); destruct (_ <=? _); reflexivity.
  - unfold binary_round_aux, shr_fexp.
    change (SpecFloat.fexp prec emax) with fexp.
    change (Zdigits2 (Z.pos M)) with (Z.pos (digits2_pos M)).
    rewrite shr_exact by lia.
    destruct (Z.ltb_spec 0 (fexp (Z.pos (digits2_pos M) + e0) - e0)) as [H | _]; [lia |].
    rewrite shifted_0. simpl round_nearest_even.
    change (Zdigits2 (Z.pos M)) with (Z.pos (digits2_pos M)).
    rewrite shr_exact by lia.
    destruct (Z.ltb_spec 0 (fexp (Z.pos (digits2_pos M) + e0) - e0)) as [H | _]; [lia |].
    rewrite shifted_0. simpl. destruct (_ <=? _); reflexivity.
Qed.

(** The sum of two doubles that are not negative is a number. *)
Lemma add_not_NaN (x y : number) :
  notNegative x = true -> notNegative y = true -> isNaN (add x y) = false.
Proof.
  intros Sx Sy.
  destruct x as [sx | sx | | sx mx ex], y as [sy | sy | | sy my ey];
    simpl in Sx, Sy; try discriminate;
    try (apply negb_true_iff in Sx; subst sx);
    try (apply negb_true_iff in Sy; subst sy);
    try reflexivity;
    try (destruct sx; reflexivity); try (destruct sy; reflexivity);
    try (destruct sx, sy; reflexivity).
  unfold add, SFadd, cond_Zopp, binary_normalize, binary_round.
  generalize (fst (shl_align mx ex (Z.min ex ey))) (fst (shl_align my ey (Z.min ex ey))).
  intros a b. change (Z.pos a + Z.pos b) with (Z.pos (a + b)). cbv iota.
  destruct (shl_align _ _ _) as [mz ez]. apply binary_round_aux_not_NaN.
Qed.

(** ** [Math.min] *)

Lemma compare_refl (x : number) : isNaN x = false -> SFcompare x x = Some Eq.
Proof.
  destruct x as [s | s | | s m e]; simpl; try discriminate; intros _.
  - reflexivity.
  - destruct s; reflexivity.
  - rewrite Z.compare_refl, Pos.compare_cont_refl. destruct s; reflexivity.
Qed.

Lemma compare_numbers (x y : number) :
  isNaN x = false -> isNaN y = false -> exists c, SFcompare x y = Some c.
Proof.
  destruct x, y; simpl; try discriminate; intros _ _; eauto.
Qed.

Lemma Math_min_NaN (x y : number) : isNaN x = true -> Math_min x y = NaN.
Proof. destruct x; try discriminate. reflexivity. Qed.

(** The minimum of two numbers is a number, and at most the second. *)
Lemma Math_min_le_r (x y : number) :
  isNaN x = false -> isNaN y = false ->
  isNaN (Math_min x y) = false /\ leb (Math_min x y) y = true.
Proof.
  intros Hx Hy. destruct (compare_numbers x y Hx Hy) as [c Hc].
  pose proof (compare_refl y Hy) as Hr.
  unfold Math_min, leb, SFleb. rewrite Hc. destruct c.
  - destruct y as [[|] | | |]; try (rewrite Hc; split; [exact Hx | reflexivity]).
    split; reflexivity.
  - rewrite Hc. split; [exact Hx | reflexivity].
  - rewrite Hr. split; [exact Hy | reflexivity].
Qed.

Lemma Math_min_key (x y : number) :
  isDouble x = true -> isDouble y = true ->
  notNegative x = true -> notNegative y = true ->
  isDouble (Math_min x y) = true /\ notNegative (Math_min x y) = true /\
  key (Math_min x y) = Z.min (key x) (key y).
Proof.
  intros Hx Hy Sx Sy. unfold Math_min. rewrite (compare_key x y Hx Hy Sx Sy).
  destruct (Z.compare_spec (key x) (key y)) as [H | H | H].
  - destruct y as [[|] | | |]; repeat split; try assumption; lia.
  - repeat split; try assumption; lia.
  - repeat split; try assumption; lia.
Qed.

(** ** calculateBackoff *)

Lemma notNegative_of_le_0 (x : number) : leb (ofZ 0) x = true -> notNegative x = true.
Proof. destruct x as [s | [|] | | [|] m e]; try discriminate; reflexivity. Qed.

Lemma key_0 (x : number) :
  isDouble x = true -> notNegative x = true -> key x = 0 <-> exists s, x = S754_zero s.
Proof.
  intros Hx Sx. destruct x as [s | s | | s m e]; simpl; try discriminate.
  - split; eauto.
  - split; [discriminate | intros [? ?]; discriminate].
  - apply isDouble_finite in Hx. change emin with (-1074).
    split; [lia | intros [? ?]; discriminate].
Qed.

(** The jitter [Math.random() * 1000] lies in [0, 1000). *)
Lemma jitter_range (random : number) :
  isDouble random = true -> leb (ofZ 0) random = true -> ltb random (ofZ 1) = true ->
  let jitter := mul random (ofZ 1000) in
  isDouble jitter = true /\ notNegative jitter = true /\
  leb (ofZ 0) jitter = true /\ ltb jitter (ofZ 1000) = true.
Proof.
  intros Hr H0 H1 jitter.
  pose proof (notNegative_of_le_0 random H0) as Sr.
  assert (Hk : key random <= key (S754_finite false 9007199254740991 (-53))).
  { apply (ltb_key random (ofZ 1) Hr eq_refl Sr eq_refl) in H1.
    change (key (ofZ 1)) with 4607182418800017408 in H1.
    change (key (S754_finite false 9007199254740991 (-53))) with 4607182418800017407.
    lia. }
  assert (Hn : isNaN jitter = false).
  { destruct (isNaN jitter) eqn:E; [| reflexivity].
    apply (mul_isNaN random (ofZ 1000) Hr eq_refl Sr eq_refl) in E.
    destruct E as [[_ E] | [E _]]; [discriminate |].
    subst random. discriminate. }
  pose proof (mul_isDouble random (ofZ 1000) Hr eq_refl) as Hj.
  pose proof (mul_notNegative random (ofZ 1000) Hr eq_refl Sr eq_refl Hn) as Sj.
  fold jitter in Hj, Sj.
  split; [exact Hj |]. split; [exact Sj |]. split.
  - apply (leb_key (ofZ 0) jitter eq_refl Hj eq_refl Sj).
    pose proof (key_bounds jitter Hj Sj). change (key (ofZ 0)) with 0. lia.
  - apply (ltb_key jitter (ofZ 1000) Hj eq_refl Sj eq_refl).
    assert (Hn' : isNaN (mul (ofZ 1000) random) = false) by (rewrite mul_comm; exact Hn).
    pose proof (mul_le_mono (ofZ 1000) random (S754_finite false 9007199254740991 (-53))
                  eq_refl Hr eq_refl eq_refl Sr eq_refl Hk Hn' eq_refl) as Hm.
    rewrite (mul_comm (ofZ 1000) random) in Hm. fold jitter in Hm.
    change (key (mul (ofZ 1000) (S754_finite false 9007199254740991 (-53))))
      with 4652007308841189375 in Hm.
    change (key (ofZ 1000)) with 4652007308841189376. lia.
Qed.

Lemma le_notNegative (x y : number) :
  notNegative x = true -> leb x y = true -> notNegative y = true.
Proof.
  destruct x as [sx | [|] | | [|] mx ex], y as [sy | [|] | | [|] my ey];
    try discriminate; reflexivity.
Qed.

(** ** The correctly rounded power *)

Lemma iter_xO (d m : positive) : Z.pos (Pos.iter xO m d) = Z.pos m * 2 ^ Z.pos d.
Proof.
  induction d as [| d IH] using Pos.peano_ind.
  - simpl. lia.
  - rewrite Pos.iter_succ, Pos2Z.inj_succ, Z.pow_succ_r by lia.
    rewrite Pos2Z.inj_xO, IH. lia.
Qed.

Lemma digits_shift (M P : positive) (j : Z) :
  0 <= j -> Z.pos P = Z.pos M * 2 ^ j ->
  Z.pos (digits2_pos P) = Z.pos (digits2_pos M) + j.
Proof.
  intros Hj HP. apply digits_unique. rewrite HP.
  pose proof (digits2_pos_bounds M) as [Hlo Hhi].
  set (d := Z.pos (digits2_pos M)) in *.
  assert (Hd : 0 < d) by (unfold d; lia).
  assert (Hp : 0 < 2 ^ j) by (apply Z.pow_pos_nonneg; lia).
  replace (d + j - 1) with (d - 1 + j) by lia.
  rewrite !Z.pow_add_r by lia. nia.
Qed.

(** [binary_round] first brings the exponent down to that of the last
    place, which leaves the value as it is. *)
Lemma shl_align_spec (M : positive) (e : Z) :
  exists (M' : positive) (e' : Z),
    shl_align M e (fexp (Z.pos (digits2_pos M) + e)) = (M', e') /\
    e' <= e /\ Z.pos M' = Z.pos M * 2 ^ (e - e') /\
    e' <= fexp (Z.pos (digits2_pos M') + e').
Proof.
  unfold shl_align.
  destruct (fexp (Z.pos (digits2_pos M) + e) - e) as [| d | d] eqn:Hd.
  - exists M, e. rewrite Z.sub_diag. simpl. repeat split; lia.
  - exists M, e. rewrite Z.sub_diag. simpl. repeat split; lia.
  - exists (Pos.iter xO M d), (fexp (Z.pos (digits2_pos M) + e)).
    assert (Hj : e - fexp (Z.pos (digits2_pos M) + e) = Z.pos d) by lia.
    rewrite Hj. split; [reflexivity |]. split; [lia |].
    split; [apply iter_xO |].
    rewrite (digits_shift M (Pos.iter xO M d) (Z.pos d)) by (try lia; apply iter_xO).
    replace (Z.pos (digits2_pos M) + Z.pos d + fexp (Z.pos (digits2_pos M) + e))
      with (Z.pos (digits2_pos M) + e) by lia.
    lia.
Qed.

(** The rounded double depends on the value only, not on how mantissa
    and exponent share it. *)
Lemma round_key_shift (M P : positive) (e j : Z) :
  0 <= j -> Z.pos P = Z.pos M * 2 ^ j ->
  e <= fexp (Z.pos (digits2_pos M) + e) ->
  e - j <= fexp (Z.pos (digits2_pos P) + (e - j)) /\
  key (binary_round_aux prec emax false (Z.pos P) (e - j) loc_Exact) =
  key (binary_round_aux prec emax false (Z.pos M) e loc_Exact).
Proof.
  intros Hj HP He.
  pose proof (digits_shift M P j Hj HP) as Hd.
  assert (HE : Z.pos (digits2_pos P) + (e - j) = Z.pos (digits2_pos M) + e) by lia.
  assert (He' : e - j <= fexp (Z.pos (digits2_pos P) + (e - j))) by (rewrite HE; lia).
  split; [exact He' |].
  destruct (round_key P (e - j) He') as (_ & _ & ->).
  destruct (round_key M e He) as (_ & _ & ->).
  rewrite HE, HP.
  replace (fexp (Z.pos (digits2_pos M) + e) - (e - j))
    with (fexp (Z.pos (digits2_pos M) + e) - e + j) by lia.
  rewrite rne_scale by lia. reflexivity.
Qed.

Lemma round_mono_any (M1 M2 : positive) (e1 e2 : Z) :
  e1 <= fexp (Z.pos (digits2_pos M1) + e1) ->
  e2 <= fexp (Z.pos (digits2_pos M2) + e2) ->
  Z.pos M1 * 2 ^ (e1 - Z.min e1 e2) <= Z.pos M2 * 2 ^ (e2 - Z.min e1 e2) ->
  key (binary_round_aux prec emax false (Z.pos M1) e1 loc_Exact) <=
  key (binary_round_aux prec emax false (Z.pos M2) e2 loc_Exact).
Proof.
  intros H1 H2 Hle.
  destruct (Z.le_gt_cases e1 e2) as [He | He].
  - rewrite Z.min_l, Z.sub_diag, Z.mul_1_r in Hle by lia.
    apply round_mono; assumption.
  - rewrite Z.min_r, Z.sub_diag, Z.mul_1_r in Hle by lia.
    set (j := e1 - e2) in *.
    assert (Hp : 0 < 2 ^ j) by (apply Z.pow_pos_nonneg; lia).
    assert (HP : Z.pos (Z.to_pos (Z.pos M1 * 2 ^ j)) = Z.pos M1 * 2 ^ j)
      by (apply Z2Pos.id; nia).
    destruct (round_key_shift M1 _ e1 j ltac:(lia) HP H1) as [H1' <-].
    replace (e1 - j) with e2 in * by lia.
    apply round_mono; try assumption; try lia.
    rewrite Z.sub_diag, Z.mul_1_r, HP. exact Hle.
Qed.

(** Of two positive values [M * 2^e], the smaller has the smaller nearest
    double. *)
Lemma normalize_mono (M1 M2 : positive) (e1 e2 : Z) :
  Z.pos M1 * 2 ^ (e1 - Z.min e1 e2) <= Z.pos M2 * 2 ^ (e2 - Z.min e1 e2) ->
  let r1 := binary_normalize prec emax (Z.pos M1) e1 false in
  let r2 := binary_normalize prec emax (Z.pos M2) e2 false in
  isDouble r1 = true /\ notNegative r1 = true /\ key r1 <= key r2.
Proof.
  intros Hle r1 r2. unfold r1, r2, binary_normalize, binary_round.
  change (SpecFloat.fexp prec emax) with fexp.
  destruct (shl_align_spec M1 e1) as (P1 & f1 & -> & Hf1 & HP1 & Hv1).
  destruct (shl_align_spec M2 e2) as (P2 & f2 & -> & Hf2 & HP2 & Hv2).
  destruct (round_key P1 f1 Hv1) as (Hd & Hs & _).
  split; [exact Hd |]. split; [exact Hs |].
  apply round_mono_any; try assumption.
  rewrite HP1, HP2, <- !Z.mul_assoc, <- !Z.pow_add_r by lia.
  replace (e1 - f1 + (f1 - Z.min f1 f2)) with (e1 - Z.min e1 e2 + (Z.min e1 e2 - Z.min f1 f2)) by lia.
  replace (e2 - f2 + (f2 - Z.min f1 f2)) with (e2 - Z.min e1 e2 + (Z.min e1 e2 - Z.min f1 f2)) by lia.
  rewrite !Z.pow_add_r, !Z.mul_assoc by lia.
  apply Z.mul_le_mono_nonneg_r; [apply Z.pow_nonneg; lia | exact Hle].
Qed.

Lemma at_least_1 (s : bool) (m : positive) (e : Z) :
  isDouble (S754_finite s m e) = true -> leb (ofZ 1) (S754_finite s m e) = true ->
  s = false /\ -52 <= e /\ 2 ^ 52 <= Z.pos m.
Proof.
  intros Hx H1.
  pose proof (le_notNegative (ofZ 1) _ eq_refl H1) as Sx.
  apply (leb_key (ofZ 1) _ eq_refl Hx eq_refl Sx) in H1.
  change (key (ofZ 1)) with 4607182418800017408 in H1.
  simpl in Sx. apply negb_true_iff in Sx.
  apply isDouble_finite in Hx. destruct Hx as (He & Hm & Hn).
  unfold key in H1. change emin with (-1074) in H1.
  change (2 ^ 52) with 4503599627370496 in *.
  change (2 ^ 53) with 9007199254740992 in *.
  split; [exact Sx |]. lia.
Qed.

(** The nearest doubles of the powers [m^k * 2^(e k)] of a value of at
    least 1 do not decrease with [k]. *)
Lemma powers_mono (m : positive) (e k k' : Z) :
  -52 <= e -> 2 ^ 52 <= Z.pos m -> 0 <= k <= k' ->
  let V := fun k => binary_normalize prec emax (Z.pos m ^ k) (e * k) false in
  isDouble (V k) = true /\ notNegative (V k) = true /\ key (V k) <= key (V k').
Proof.
  intros He Hm Hk V. unfold V.
  assert (Hpos : forall j, 0 <= j -> exists P, Z.pos m ^ j = Z.pos P).
  { intros j Hj. exists (Z.to_pos (Z.pos m ^ j)). symmetry. apply Z2Pos.id.
    apply Z.pow_pos_nonneg; lia. }
  destruct (Hpos k ltac:(lia)) as [P HP]. destruct (Hpos k' ltac:(lia)) as [P' HP'].
  rewrite HP, HP'. apply normalize_mono. rewrite <- HP, <- HP'.
  set (d := k' - k). assert (Hd : 0 <= d) by (unfold d; lia).
  replace k' with (k + d) by (unfold d; lia).
  rewrite (Z.pow_add_r (Z.pos m) k d) by lia.
  assert (Hmk : 0 < Z.pos m ^ k) by (apply Z.pow_pos_nonneg; lia).
  destruct (Z.le_gt_cases 0 e) as [H0 | H0].
  - rewrite Z.min_l by nia. rewrite Z.sub_diag, Z.mul_1_r.
    assert (0 < Z.pos m ^ d) by (apply Z.pow_pos_nonneg; lia).
    assert (0 < 2 ^ (e * (k + d) - e * k)) by (apply Z.pow_pos_nonneg; nia).
    rewrite <- Z.mul_assoc.
    assert (1 <= Z.pos m ^ d * 2 ^ (e * (k + d) - e * k)) by nia.
    nia.
  - rewrite Z.min_r by nia. rewrite Z.sub_diag, Z.mul_1_r.
    replace (e * k - e * (k + d)) with ((- e) * d) by lia.
    rewrite Z.pow_mul_r by lia.
    assert (Hle : (2 ^ (- e)) ^ d <= Z.pos m ^ d).
    { apply Z.pow_le_mono_l. split; [apply Z.pow_nonneg; lia |].
      transitivity (2 ^ 52); [apply Z.pow_le_mono_r; lia | exact Hm]. }
    apply Z.mul_le_mono_nonneg_l; [lia | exact Hle].
Qed.

(** The correctly rounded power is a [Math.pow] as the properties of
    [calculateBackoff] below ask for: for a multiplier of at least 1 it is
    a double of at least 1, and it does not decrease with the exponent. *)
Lemma exactPow_mono (x : number) (n n' : N) :
  isDouble x = true -> leb (ofZ 1) x = true -> (n <= n')%N ->
  isDouble (exactPow x n) = true /\
  leb (ofZ 1) (exactPow x n) = true /\
  leb (exactPow x n) (exactPow x n') = true.
Proof.
  intros Hx H1 Hn.
  destruct x as [s | s | | s m e]; try discriminate.
  - destruct s; [discriminate |]. unfold exactPow.
    destruct (N.eqb_spec n 0) as [-> | Hn0].
    + destruct (n' =? 0)%N; repeat split.
    + destruct (N.eqb_spec n' 0) as [-> | _]; [lia |]. repeat split.
  - destruct (at_least_1 s m e Hx H1) as (-> & He & Hm).
    assert (HV : forall k, exactPow (S754_finite false m e) k =
                           binary_normalize prec emax (Z.pos m ^ Z.of_N k) (e * Z.of_N k) false).
    { intros k. unfold exactPow. destruct (N.eqb_spec k 0) as [-> | _]; [| reflexivity].
      simpl Z.of_N. rewrite Z.mul_0_r. reflexivity. }
    rewrite !HV.
    destruct (powers_mono m e 0 (Z.of_N n) He Hm ltac:(lia)) as (_ & _ & K0).
    destruct (powers_mono m e (Z.of_N n) (Z.of_N n') He Hm ltac:(lia)) as (Hd & Hs & K).
    destruct (powers_mono m e (Z.of_N n') (Z.of_N n') He Hm ltac:(lia)) as (Hd' & Hs' & _).
    cbv beta in *. rewrite Z.mul_0_r in K0.
    split; [exact Hd |]. split.
    + apply (leb_key (ofZ 1) _ eq_refl Hd eq_refl Hs). exact K0.
    + apply (leb_key _ _ Hd Hd' Hs Hs'). exact K.
Qed.

(** ** [calculateBackoff] *)

(** With the defaults, the third attempt and a draw of 0.5 the delay is
    [1000 * 2^2 + 0.5 * 1000 = 4500] ms; from the sixth attempt on the
    cap of 30000 ms applies. *)
Example backoff_at_defaults :
  let half := S754_finite false 4503599627370496 (-53) in
  calculateBackoff exactPow half 2 DEFAULT_RETRY_CONFIG = ofZ 4500 /\
  calculateBackoff exactPow half 5 DEFAULT_RETRY_CONFIG = ofZ 30000.
Proof. vm_compute. split; reflexivity. Qed.

(** C7, as stated, fails, in two ways.  With a base delay of 0 and a
    multiplier of 2, [Math.pow(2, 1024)] is [Infinity] and the delay
    [0 * Infinity] is [NaN], which [Math.min] hands on: the result is not
    at most [maxDelay], and the value without jitter has gone from 0 at
    attempt 1023 to [NaN]; a multiplier of [Infinity] does the same at
    attempt 1.  And with a base delay of [2^60], a jitter of 990 makes
    the sum [2^60 + 1024], the double nearest to [2^60 + 990]: the result
    is not the delay plus a number below 1000. *)
Lemma backoff_overflows_to_NaN_and_rounds :
  let half := S754_finite false 4503599627370496 (-53) in
  let cfg := {| maxRetries := 1024; baseDelay := ofZ 0; maxDelay := ofZ 30000;
                backoffMultiplier := ofZ 2 |} in
  let jitterFree := fun n => Math_min (mul (baseDelay cfg) (exactPow (ofZ 2) n))
                                      (maxDelay cfg) in
  let unbounded := {| maxRetries := 3; baseDelay := ofZ 0; maxDelay := ofZ 30000;
                      backoffMultiplier := Infinity |} in
  let ninetyNine := S754_finite false 8917127262193582 (-53) in
  let large := {| maxRetries := 3; baseDelay := ofZ (2 ^ 60); maxDelay := ofZ (2 ^ 62);
                  backoffMultiplier := ofZ 1 |} in
  (exactPow (ofZ 2) 1024 = Infinity /\
   calculateBackoff exactPow half 1024 cfg = NaN /\
   leb (calculateBackoff exactPow half 1024 cfg) (maxDelay cfg) = false /\
   jitterFree 1023%N = S754_zero false /\
   leb (jitterFree 1023%N) (jitterFree 1024%N) = false) /\
  (leb (ofZ 1) (backoffMultiplier unbounded) = true /\
   exactPow Infinity 1 = Infinity /\
   calculateBackoff exactPow half 1 unbounded = NaN /\
   leb (calculateBackoff exactPow half 1 unbounded) (maxDelay unbounded) = false) /\
  (mul (baseDelay large) (exactPow (ofZ 1) 0) = ofZ (2 ^ 60) /\
   mul ninetyNine (ofZ 1000) = ofZ 990 /\
   ltb (ofZ 990) (ofZ 1000) = true /\
   calculateBackoff exactPow ninetyNine 0 large = ofZ (2 ^ 60 + 1024) /\
   ltb (calculateBackoff exactPow ninetyNine 0 large) (maxDelay large) = true).
Proof. vm_compute. repeat split. Qed.

(** C7, amended.  In double arithmetic [calculateBackoff] is
    [Math.min(delay + jitter, maxDelay)] with
    [delay = baseDelay * Math.pow(multiplier, attempt)] and
    [jitter = Math.random() * 1000], each operation rounded to the nearest
    double, and the jitter lies in [0, 1000).  For a base delay and a
    maximal delay of at least 0 and a power of at least 1, as the power of
    a multiplier of at least 1 is: the delay is [NaN] exactly when the
    base delay is 0 and the power has overflowed to [Infinity], and then
    the result is [NaN]; otherwise the result is a number that is at most
    [maxDelay].  The value without jitter, [Math.min(delay, maxDelay)],
    does not decrease from one attempt to a later one whose power is not
    smaller and whose delay is a number. *)
Theorem calculateBackoff_spec (pow : number -> N -> number) (cfg : RetryConfig)
    (random : number) (attempt : N) :
  isDouble (baseDelay cfg) = true -> isDouble (maxDelay cfg) = true ->
  isDouble random = true -> isDouble (pow (backoffMultiplier cfg) attempt) = true ->
  leb (ofZ 0) (baseDelay cfg) = true -> leb (ofZ 0) (maxDelay cfg) = true ->
  leb (ofZ 0) random = true -> ltb random (ofZ 1) = true ->
  leb (ofZ 1) (pow (backoffMultiplier cfg) attempt) = true ->
  let delay := fun n => mul (baseDelay cfg) (pow (backoffMultiplier cfg) n) in
  let jitter := mul random (ofZ 1000) in
  let result := calculateBackoff pow random attempt cfg in
  result = Math_min (add (delay attempt) jitter) (maxDelay cfg) /\
  leb (ofZ 0) jitter = true /\ ltb jitter (ofZ 1000) = true /\
  (isNaN (delay attempt) = true <->
   (exists s, baseDelay cfg = S754_zero s) /\
   pow (backoffMultiplier cfg) attempt = Infinity) /\
  (isNaN (delay attempt) = true -> result = NaN) /\
  (isNaN (delay attempt) = false ->
   isNaN result = false /\ leb result (maxDelay cfg) = true) /\
  (forall later : N,
     isDouble (pow (backoffMultiplier cfg) later) = true ->
     leb (pow (backoffMultiplier cfg) attempt) (pow (backoffMultiplier cfg) later) = true ->
     isNaN (delay later) = false ->
     leb (Math_min (delay attempt) (maxDelay cfg))
         (Math_min (delay later) (maxDelay cfg)) = true).
Proof.
  intros Hb Hm Hr Hp B0 M0 R0 R1 P1 delay jitter result.
  subst delay result. unfold calculateBackoff. cbv beta. fold jitter.
  set (p := pow (backoffMultiplier cfg) attempt) in *.
  set (d := mul (baseDelay cfg) p).
  pose proof (notNegative_of_le_0 _ B0) as Sb.
  pose proof (notNegative_of_le_0 _ M0) as Sm.
  assert (Sp : notNegative p = true) by (apply (le_notNegative (ofZ 1)); [reflexivity | exact P1]).
  assert (Kp : 0 < key p).
  { apply (leb_key (ofZ 1) p eq_refl Hp eq_refl Sp) in P1.
    change (key (ofZ 1)) with 4607182418800017408 in P1. lia. }
  destruct (jitter_range random Hr R0 R1) as (Hj & Sj & J0 & J1). fold jitter in Hj, Sj, J0, J1.
  assert (HNaN : isNaN d = true <->
                 (exists s, baseDelay cfg = S754_zero s) /\ p = Infinity).
  { unfold d. rewrite (mul_isNaN _ p Hb Hp Sb Sp).
    rewrite (key_0 _ Hb Sb). split.
    - intros [H | [_ H]]; [exact H | lia].
    - intros H. left. exact H. }
  assert (Hnum : forall q, isDouble q = true -> notNegative q = true ->
                   isNaN (mul (baseDelay cfg) q) = false ->
                   isDouble (mul (baseDelay cfg) q) = true /\
                   notNegative (mul (baseDelay cfg) q) = true).
  { intros q Hq Sq Nq. split; [apply mul_isDouble | apply mul_notNegative]; assumption. }
  split; [reflexivity |]. split; [exact J0 |]. split; [exact J1 |].
  split; [exact HNaN |]. split; [| split].
  - intros Hn. destruct d; try discriminate. reflexivity.
  - intros Hn. destruct (Hnum p Hp Sp Hn) as [_ Sd]. fold d in Sd.
    apply Math_min_le_r.
    + apply add_not_NaN; assumption.
    + destruct (maxDelay cfg); try discriminate; reflexivity.
  - intros later Hp' Hle Hn'.
    set (p' := pow (backoffMultiplier cfg) later) in *.
    pose proof (le_notNegative p p' Sp Hle) as Sp'.
    apply (leb_key p p' Hp Hp' Sp Sp') in Hle.
    assert (Hn : isNaN d = false).
    { destruct (isNaN d) eqn:E; [| reflexivity].
      destruct (proj1 HNaN eq_refl) as [Hz Hinf].
      assert (Hinf' : p' = Infinity).
      { rewrite Hinf in Hle. simpl in Hle.
        pose proof (key_bounds p' Hp' Sp') as Bp'.
        destruct p' as [s | [|] | | s m e]; simpl in Sp'; try discriminate.
        - simpl in Hle. lia.
        - reflexivity.
        - apply isDouble_finite in Hp'. simpl in Hle. change emin with (-1074) in Hle. lia. }
      assert (Hbad : isNaN (mul (baseDelay cfg) p') = true).
      { apply (mul_isNaN _ p' Hb Hp' Sb Sp'). left.
        split; [apply (key_0 _ Hb Sb); exact Hz | exact Hinf']. }
      rewrite Hbad in Hn'. discriminate. }
    destruct (Hnum p Hp Sp Hn) as [Hd Sd].
    destruct (Hnum p' Hp' Sp' Hn') as [Hd' Sd'].
    pose proof (mul_le_mono (baseDelay cfg) p p' Hb Hp Hp' Sb Sp Sp' Hle Hn Hn') as Hmono.
    destruct (Math_min_key _ (maxDelay cfg) Hd Hm Sd Sm) as (V1 & S1 & K1).
    destruct (Math_min_key _ (maxDelay cfg) Hd' Hm Sd' Sm) as (V2 & S2 & K2).
    apply (leb_key _ _ V1 V2 S1 S2).
    rewrite K1, K2. unfold d in *. lia.
Qed.

Lemma calculateBackoff_spec_witness :
  leb (calculateBackoff exactPow (S754_finite false 4503599627370496 (-53)) 2
         DEFAULT_RETRY_CONFIG)
      (maxDelay DEFAULT_RETRY_CONFIG) = true.
Proof.
  set (half := S754_finite false 4503599627370496 (-53)).
  assert (Hb : isDouble (baseDelay DEFAULT_RETRY_CONFIG) = true) by reflexivity.
  assert (Hm : isDouble (maxDelay DEFAULT_RETRY_CONFIG) = true) by reflexivity.
  assert (Hr : isDouble half = true) by reflexivity.
  assert (Hp : isDouble (exactPow (backoffMultiplier DEFAULT_RETRY_CONFIG) 2) = true)
    by reflexivity.
  assert (B0 : leb (ofZ 0) (baseDelay DEFAULT_RETRY_CONFIG) = true) by reflexivity.
  assert (M0 : leb (ofZ 0) (maxDelay DEFAULT_RETRY_CONFIG) = true) by reflexivity.
  assert (R0 : leb (ofZ 0) half = true) by reflexivity.
  assert (R1 : ltb half (ofZ 1) = true) by reflexivity.
  assert (P1 : leb (ofZ 1) (exactPow (backoffMultiplier DEFAULT_RETRY_CONFIG) 2) = true)
    by reflexivity.
  pose proof (calculateBackoff_spec exactPow DEFAULT_RETRY_CONFIG half 2
                Hb Hm Hr Hp B0 M0 R0 R1 P1) as H.
  cbv zeta in H. destruct H as (_ & _ & _ & _ & _ & H & _).
  apply H. reflexivity.
Defined.

End DoublesTheory.

(* ===================================================================== *)
(** * Properties of services/circuitBreaker.ts *)
(* ===================================================================== *)

Module BreakerTheory.
Import Errors Breaker.

(** The cooldown test of [execute], spelled out: with a failure on record
    at a non-zero clock reading, a reset is attempted exactly when
    [timeout] milliseconds have passed since it. *)
Lemma shouldAttemptReset_after_failure (now t : Z) (b : CircuitBreaker) :
  lastFailure b = Some t -> t <> 0 ->
  shouldAttemptReset now b = (timeout (config b) <=? now - t).
Proof.
  intros Hl Ht. unfold shouldAttemptReset, truthy, toNumber. rewrite Hl. simpl.
  destruct (Z.eqb_spec t 0); [contradiction | reflexivity].
Qed.

(** The same for the time that is left. *)
Lemma getTimeUntilNextAttempt_after_failure (now t : Z) (b : CircuitBreaker) :
  lastFailure b = Some t -> t <> 0 ->
  getTimeUntilNextAttempt now b = Z.max 0 (timeout (config b) - (now - t)).
Proof.
  intros Hl Ht. unfold getTimeUntilNextAttempt, truthy, toNumber. rewrite Hl. simpl.
  destruct (Z.eqb_spec t 0); [contradiction | reflexivity].
Qed.

Lemma enter_open_cooling (now later : Z) (b : CircuitBreaker) :
  state b = open -> shouldAttemptReset now b = false ->
  enter now later b =
  (b, Some (CircuitOpenError "Circuit breaker is open" (getTimeUntilNextAttempt later b))).
Proof.
  intros Hs Hr. unfold enter. rewrite Hr.
  destruct (decide (state b = open)); [reflexivity | contradiction].
Qed.

Lemma enter_open_elapsed (now later : Z) (b : CircuitBreaker) :
  state b = open -> shouldAttemptReset now b = true ->
  enter now later b =
  andThen (transitionTo half_open b) (fun b => returns (countRequest b)).
Proof.
  intros Hs Hr. unfold enter. rewrite Hr.
  destruct (decide (state b = open)); [reflexivity | contradiction].
Qed.

Lemma enter_not_open (now later : Z) (b : CircuitBreaker) :
  state b <> open -> enter now later b = (countRequest b, None).
Proof.
  intros Hs. unfold enter.
  destruct (decide (state b = open)); [contradiction | reflexivity].
Qed.

Lemma execute_open_cooling (b : CircuitBreaker) (c : Call) :
  state b = open -> shouldAttemptReset (calledAt c) b = false ->
  execute c b =
  {| after := b; invoked := false;
     thrown := Some (CircuitOpenError "Circuit breaker is open"
                       (getTimeUntilNextAttempt (rejectedAt c) b)) |}.
Proof.
  intros Hs Hr. unfold execute.
  rewrite (enter_open_cooling (calledAt c) (rejectedAt c) b Hs Hr). reflexivity.
Qed.

(** A breaker without subscribers is quiet, and a quiet breaker is
    notified without an exception. *)
Lemma quiet_no_listeners (b : CircuitBreaker) : listeners b = [] -> quiet b.
Proof. intros H stats. rewrite H. reflexivity. Qed.

Lemma forEach_app (ls ls' : list Listener) (stats : CircuitBreakerStats) :
  forEach (ls ++ ls') stats =
  match forEach ls stats with
  | Some thrown => Some thrown
  | None => forEach ls' stats
  end.
Proof.
  induction ls as [| l ls IH]; simpl; [reflexivity |].
  destruct (l stats); [reflexivity | exact IH].
Qed.

Lemma subscribed_fields (cfg : CircuitBreakerConfig) (ls : list Listener) :
  subscribed cfg ls =
  {| state := closed; failures := 0; successes := 0; totalRequests := 0;
     lastFailure := None; lastSuccess := None; halfOpenSuccesses := 0;
     config := cfg; listeners := ls; delivered := [] |}.
Proof.
  unfold subscribed.
  induction ls as [| l ls IH] using rev_ind; [reflexivity |].
  rewrite fold_left_app. simpl. rewrite IH. reflexivity.
Qed.

(** C9: a call of [execute] on an open breaker whose cooldown has not
    elapsed throws [CircuitOpenError] with the cooldown that remains at
    the second reading of the clock, does not call the operation, and
    leaves every field of the breaker as it was, so the snapshot of
    [getStats] is the same and no subscriber is notified. *)
Theorem fail_fast_changes_nothing (b : CircuitBreaker) (c : Call) :
  state b = open -> shouldAttemptReset (calledAt c) b = false ->
  let x := execute c b in
  invoked x = false /\
  thrown x = Some (CircuitOpenError "Circuit breaker is open"
                     (getTimeUntilNextAttempt (rejectedAt c) b)) /\
  after x = b /\
  getStats (after x) = getStats b /\
  Stats.totalRequests (getStats (after x)) = totalRequests b /\
  delivered (after x) = delivered b.
Proof.
  intros Hs Hr x. unfold x. rewrite (execute_open_cooling b c Hs Hr).
  simpl. repeat split.
Qed.

Lemma fail_fast_changes_nothing_witness :
  after (execute (fulfilling 1000 1001) threeFailures) = threeFailures.
Proof.
  assert (Hs : state threeFailures = open) by reflexivity.
  assert (Hr : shouldAttemptReset (calledAt (fulfilling 1000 1001)) threeFailures = false)
    by reflexivity.
  pose proof (fail_fast_changes_nothing threeFailures (fulfilling 1000 1001) Hs Hr) as H.
  cbv zeta in H. apply H.
Defined.

(** C3 fails when the clock reads 0 at the third failure.  [lastFailure]
    is [number | null] and [null] is what stands for no failure, but
    [shouldAttemptReset] tests it with [!this.lastFailure], which is also
    true of the time stamp 0: the breaker is open, and the fourth call,
    made 1 ms later and 29999 ms before the timeout has elapsed, moves it
    to half-open and calls the operation. *)
Lemma fourth_call_let_through_at_clock_zero :
  let down := PlainError "down" in
  let b3 := executeAll [failing 0 down 0; failing 0 down 0; failing 0 down 0]
                       (new scenarioConfig) in
  let x := execute (fulfilling 1 2) b3 in
  state b3 = open /\ lastFailure b3 = Some 0 /\
  1 - 0 < timeout scenarioConfig /\
  invoked x = true /\ thrown x = None /\ state (after x) = half_open.
Proof. vm_compute. repeat split. Qed.

(** The scenario of C3 at every other reading of the clock: with
    [failureThreshold = 3], [volumeThreshold = 3] and
    [successThreshold = 2], three failing calls that the error filter
    counts open a new breaker.  Provided the clock did not read 0 at the
    third failure: a call made before [timeout] ms have passed since that
    failure throws [CircuitOpenError], with the cooldown left at the
    second reading of the clock, without calling the operation, and
    changes nothing; a call made after [timeout] ms moves the breaker to
    half-open and calls the operation; and two fulfilled calls from there
    close the breaker with the failure counter at 0. *)
Theorem transition_scenario (cfg : CircuitBreakerConfig) (e1 e2 e3 : JsError)
    (c1 c2 c3 : Call) :
  failureThreshold cfg = 3 -> volumeThreshold cfg = 3 -> successThreshold cfg = 2 ->
  outcome c1 = Failed e1 -> outcome c2 = Failed e2 -> outcome c3 = Failed e3 ->
  counted cfg e1 = true -> counted cfg e2 = true -> counted cfg e3 = true ->
  settledAt c3 <> 0 ->
  let b1 := execute c1 (new cfg) in
  let b2 := execute c2 (after b1) in
  let b3 := execute c3 (after b2) in
  (invoked b1 = true /\ invoked b2 = true /\ invoked b3 = true /\
   thrown b1 = Some e1 /\ thrown b2 = Some e2 /\ thrown b3 = Some e3 /\
   state (after b1) = closed /\ state (after b2) = closed /\
   state (after b3) = open /\ lastFailure (after b3) = Some (settledAt c3)) /\
  (forall c4,
     calledAt c4 - settledAt c3 < timeout cfg ->
     let x := execute c4 (after b3) in
     invoked x = false /\
     thrown x = Some (CircuitOpenError "Circuit breaker is open"
                        (Z.max 0 (timeout cfg - (rejectedAt c4 - settledAt c3)))) /\
     after x = after b3) /\
  (forall c5,
     timeout cfg <= calledAt c5 - settledAt c3 ->
     state (enter (calledAt c5) (rejectedAt c5) (after b3)).1 = half_open /\
     invoked (execute c5 (after b3)) = true) /\
  (forall c5 c6,
     timeout cfg <= calledAt c5 - settledAt c3 ->
     outcome c5 = Fulfilled -> outcome c6 = Fulfilled ->
     let b5 := execute c5 (after b3) in
     let b6 := execute c6 (after b5) in
     invoked b5 = true /\ thrown b5 = None /\ state (after b5) = half_open /\
     invoked b6 = true /\ thrown b6 = None /\ state (after b6) = closed /\
     failures (after b6) = 0 /\ halfOpenSuccesses (after b6) = 0).
Proof.
  intros Hf Hv Hs O1 O2 O3 H1 H2 H3 Hd3 b1 b2 b3.
  assert (E3 : after b3 =
    {| state := open; failures := 3; successes := 0; totalRequests := 3;
       lastFailure := Some (settledAt c3); lastSuccess := None; halfOpenSuccesses := 0;
       config := cfg; listeners := []; delivered := delivered (after b3) |}
    /\ invoked b1 = true /\ invoked b2 = true /\ invoked b3 = true
    /\ thrown b1 = Some e1 /\ thrown b2 = Some e2 /\ thrown b3 = Some e3
    /\ state (after b1) = closed /\ state (after b2) = closed).
  { unfold b3, b2, b1, execute, enter, settle, onFailure; simpl.
    rewrite O1; simpl. rewrite H1; simpl. rewrite Hf, Hv; simpl.
    rewrite O2; simpl. rewrite H2; simpl. rewrite Hf, Hv; simpl.
    rewrite O3; simpl. rewrite H3; simpl. rewrite Hf, Hv; simpl.
    repeat split. }
  destruct E3 as (E3 & I1 & I2 & I3 & T1 & T2 & T3 & S1 & S2).
  clearbody b1 b2 b3.
  assert (Hst : state (after b3) = open) by (rewrite E3; reflexivity).
  assert (Hlf : lastFailure (after b3) = Some (settledAt c3)) by (rewrite E3; reflexivity).
  assert (Hcf : config (after b3) = cfg) by (rewrite E3; reflexivity).
  assert (Hls : listeners (after b3) = []) by (rewrite E3; reflexivity).
  split; [repeat split; assumption |].
  split; [| split].
  - intros c4 Hlt x.
    assert (Hr : shouldAttemptReset (calledAt c4) (after b3) = false).
    { rewrite (shouldAttemptReset_after_failure _ (settledAt c3)), Hcf by assumption.
      apply Z.leb_gt; lia. }
    unfold x. rewrite (execute_open_cooling (after b3) c4 Hst Hr). simpl.
    split; [reflexivity |]. split; [| reflexivity].
    rewrite (getTimeUntilNextAttempt_after_failure _ (settledAt c3)), Hcf by assumption.
    reflexivity.
  - intros c5 Hge.
    assert (Hr : shouldAttemptReset (calledAt c5) (after b3) = true).
    { rewrite (shouldAttemptReset_after_failure _ (settledAt c3)), Hcf by assumption.
      apply Z.leb_le; lia. }
    unfold execute. rewrite (enter_open_elapsed _ _ (after b3) Hst Hr).
    unfold transitionTo, notifyListeners; simpl. rewrite Hls; simpl.
    split; reflexivity.
  - intros c5 c6 Hge O5 O6 b5 b6.
    assert (Hr : shouldAttemptReset (calledAt c5) (after b3) = true).
    { rewrite (shouldAttemptReset_after_failure _ (settledAt c3)), Hcf by assumption.
      apply Z.leb_le; lia. }
    assert (E5 : invoked b5 = true /\ thrown b5 = None /\ state (after b5) = half_open /\
                 halfOpenSuccesses (after b5) = 1 /\ config (after b5) = cfg /\
                 listeners (after b5) = []).
    { unfold b5, execute. rewrite (enter_open_elapsed _ _ (after b3) Hst Hr).
      unfold transitionTo, notifyListeners; simpl. rewrite Hls; simpl.
      rewrite O5; simpl. unfold onSuccess; simpl. rewrite ?Hcf, ?Hs; simpl.
      unfold notifyListeners; simpl. rewrite ?Hls; simpl. repeat split. }
    destruct E5 as (I5 & T5 & S5 & HO5 & C5 & L5).
    split; [assumption |]. split; [assumption |]. split; [assumption |].
    unfold b6, execute. rewrite enter_not_open by (rewrite S5; discriminate).
    rewrite O6; simpl. unfold onSuccess; simpl. rewrite S5; simpl.
    rewrite HO5, C5, Hs; simpl.
    unfold transitionTo, notifyListeners; simpl. rewrite L5; simpl.
    repeat split.
Qed.

Lemma transition_scenario_witness :
  let down := PlainError "down" in
  state (after (execute (failing 140 down 150)
           (after (execute (failing 120 down 130)
              (after (execute (failing 100 down 110) (new scenarioConfig))))))) = open.
Proof.
  intros down.
  assert (Hf : failureThreshold scenarioConfig = 3) by reflexivity.
  assert (Hv : volumeThreshold scenarioConfig = 3) by reflexivity.
  assert (Hs : successThreshold scenarioConfig = 2) by reflexivity.
  assert (O1 : outcome (failing 100 down 110) = Failed down) by reflexivity.
  assert (O2 : outcome (failing 120 down 130) = Failed down) by reflexivity.
  assert (O3 : outcome (failing 140 down 150) = Failed down) by reflexivity.
  assert (Hc : counted scenarioConfig down = true) by reflexivity.
  assert (Hd : settledAt (failing 140 down 150) <> 0) by (simpl; lia).
  pose proof (transition_scenario scenarioConfig down down down
                (failing 100 down 110) (failing 120 down 130) (failing 140 down 150)
                Hf Hv Hs O1 O2 O3 Hc Hc Hc Hd) as H.
  cbv zeta in H. apply H.
Defined.

(** ** What the methods do to the fields

    Whether a subscriber throws or not decides which snapshots are taken
    and what the method throws; the fields are written before. *)

Lemma fields_eq (b b' : CircuitBreaker) :
  fields b = b' ->
  state b = state b' /\ failures b = failures b' /\ successes b = successes b' /\
  totalRequests b = totalRequests b' /\ lastFailure b = lastFailure b' /\
  lastSuccess b = lastSuccess b' /\ halfOpenSuccesses b = halfOpenSuccesses b' /\
  config b = config b' /\ listeners b = listeners b'.
Proof.
  intros H.
  pose proof (f_equal state H). pose proof (f_equal failures H).
  pose proof (f_equal successes H). pose proof (f_equal totalRequests H).
  pose proof (f_equal lastFailure H). pose proof (f_equal lastSuccess H).
  pose proof (f_equal halfOpenSuccesses H). pose proof (f_equal config H).
  pose proof (f_equal listeners H). repeat split; assumption.
Qed.

Lemma fields_andThen_notify (first : Completion) :
  fields (andThen first notifyListeners).1 = fields first.1.
Proof. destruct first as [b [thrown |]]; reflexivity. Qed.

Lemma fields_transitionTo (newState : CircuitState) (b : CircuitBreaker) :
  fields (transitionTo newState b).1 =
  fields {| state := newState;
            failures := match newState with closed => 0 | _ => failures b end;
            successes := successes b; totalRequests := totalRequests b;
            lastFailure := lastFailure b; lastSuccess := lastSuccess b;
            halfOpenSuccesses :=
              match newState with
              | closed | half_open => 0
              | open => halfOpenSuccesses b
              end;
            config := config b; listeners := listeners b; delivered := [] |}.
Proof. reflexivity. Qed.

Lemma fields_onSuccess (now : Z) (b : CircuitBreaker) :
  fields (onSuccess now b).1 =
  let closes := successThreshold (config b) <=? halfOpenSuccesses b + 1 in
  {| state := match state b with
              | half_open => if closes then closed else half_open
              | s => s
              end;
     failures := match state b with
                 | closed => 0
                 | half_open => if closes then 0 else failures b
                 | open => failures b
                 end;
     successes := successes b + 1; totalRequests := totalRequests b;
     lastFailure := lastFailure b; lastSuccess := Some now;
     halfOpenSuccesses := match state b with
                          | half_open => if closes then 0 else halfOpenSuccesses b + 1
                          | _ => halfOpenSuccesses b
                          end;
     config := config b; listeners := listeners b; delivered := [] |}.
Proof.
  unfold onSuccess. rewrite fields_andThen_notify. simpl.
  destruct (state b); simpl; try reflexivity.
  destruct (_ <=? _); reflexivity.
Qed.

Lemma fields_onFailure (now : Z) (error : JsError) (b : CircuitBreaker) :
  fields (onFailure now error b).1 =
  if counted (config b) error then
    let opens := (volumeThreshold (config b) <=? totalRequests b) &&
                 (failureThreshold (config b) <=? failures b + 1) in
    {| state := match state b with
                | closed => if opens then open else closed
                | _ => open
                end;
       failures := failures b + 1; successes := successes b;
       totalRequests := totalRequests b; lastFailure := Some now;
       lastSuccess := lastSuccess b; halfOpenSuccesses := halfOpenSuccesses b;
       config := config b; listeners := listeners b; delivered := [] |}
  else fields b.
Proof.
  unfold onFailure. destruct (counted (config b) error); simpl; [| reflexivity].
  rewrite fields_andThen_notify. simpl.
  destruct (state b) eqn:Hs; simpl; try reflexivity.
  destruct (_ && _); reflexivity.
Qed.

Lemma settle_failed (error : JsError) (now later : Z) (b : CircuitBreaker) :
  (settle (Failed error) now later b).1 = (onFailure now error b).1 /\
  exists thrown, (settle (Failed error) now later b).2 = Some thrown.
Proof.
  unfold settle, rethrow, andThen.
  destruct (onFailure now error b) as [b' [thrown |]]; simpl; eauto.
Qed.

Lemma settle_fulfilled (now later : Z) (b : CircuitBreaker) :
  settle Fulfilled now later b =
  match (onSuccess now b).2 with
  | None => onSuccess now b
  | Some thrown => rethrow thrown (onFailure later thrown (onSuccess now b).1)
  end.
Proof. unfold settle. destruct (onSuccess now b) as [b' [thrown |]]; reflexivity. Qed.

(** ** Subscribers that do not throw *)

Lemma quiet_listeners (b b' : CircuitBreaker) :
  listeners b' = listeners b -> quiet b -> quiet b'.
Proof. intros H Hq stats. rewrite H. apply Hq. Qed.

Lemma quiet_fields (b b' : CircuitBreaker) : fields b' = fields b -> quiet b -> quiet b'.
Proof. intros H. apply quiet_listeners. apply (f_equal listeners H). Qed.

Lemma notifyListeners_quiet (b : CircuitBreaker) :
  quiet b -> (notifyListeners b).2 = None.
Proof. intros Hq. apply Hq. Qed.

Lemma transitionTo_quiet (newState : CircuitState) (b : CircuitBreaker) :
  quiet b -> (transitionTo newState b).2 = None.
Proof. intros Hq. apply Hq. Qed.

Lemma onSuccess_quiet (now : Z) (b : CircuitBreaker) :
  quiet b -> (onSuccess now b).2 = None.
Proof.
  intros Hq. unfold onSuccess, andThen, transitionTo, notifyListeners, returns; simpl.
  destruct (state b); simpl; repeat (rewrite Hq; simpl); try reflexivity.
  destruct (_ <=? _); simpl; repeat (rewrite Hq; simpl); reflexivity.
Qed.

Lemma onFailure_quiet (now : Z) (error : JsError) (b : CircuitBreaker) :
  quiet b -> (onFailure now error b).2 = None.
Proof.
  intros Hq. unfold onFailure, andThen, transitionTo, notifyListeners, returns; simpl.
  destruct (counted (config b) error); simpl; [| reflexivity].
  destruct (state b); simpl; repeat (rewrite Hq; simpl); try reflexivity.
  destruct (_ && _); simpl; repeat (rewrite Hq; simpl); reflexivity.
Qed.

Lemma settle_quiet (out : Outcome) (now later : Z) (b : CircuitBreaker) :
  quiet b ->
  settle out now later b =
  match out with
  | Fulfilled => ((onSuccess now b).1, None)
  | Failed error => ((onFailure now error b).1, Some error)
  end.
Proof.
  intros Hq. destruct out as [| error].
  - rewrite settle_fulfilled.
    pose proof (onSuccess_quiet now b Hq) as H.
    destruct (onSuccess now b) as [b' thrown]. simpl in *. subst thrown. reflexivity.
  - unfold settle, rethrow, andThen.
    pose proof (onFailure_quiet now error b Hq) as H.
    destruct (onFailure now error b) as [b' thrown]. simpl in *. subst thrown. reflexivity.
Qed.

Lemma enter_quiet (now later : Z) (b : CircuitBreaker) :
  quiet b ->
  (enter now later b).2 =
  if decide (state b = open) then
    if shouldAttemptReset now b then None
    else Some (CircuitOpenError "Circuit breaker is open" (getTimeUntilNextAttempt later b))
  else None.
Proof.
  intros Hq. unfold enter, andThen, transitionTo, notifyListeners, returns.
  destruct (decide (state b = open)); [| reflexivity].
  destruct (shouldAttemptReset now b); simpl; [| reflexivity].
  rewrite Hq. reflexivity.
Qed.

(** Every operation keeps the configuration, and the subscribers unless
    it is [subscribe] or an unsubscription. *)
Lemma apply_config (b : CircuitBreaker) (op : Op) : config (apply b op) = config b.
Proof.
  destruct op as [now later | out now later | | now | | l | i]; simpl; try reflexivity.
  - unfold enter, andThen, transitionTo, notifyListeners, returns.
    destruct (decide (state b = open)); [| reflexivity].
    destruct (shouldAttemptReset now b); simpl; [| reflexivity].
    destruct (forEach _ _); reflexivity.
  - destruct out as [| error].
    + rewrite settle_fulfilled.
      pose proof (f_equal config (fields_onSuccess now b)) as Hc. simpl in Hc.
      destruct (onSuccess now b) as [b' [thrown |]]; simpl in *; [| exact Hc].
      unfold rethrow.
      pose proof (f_equal config (fields_onFailure later thrown b')) as Hc'.
      destruct (counted (config b') thrown); simpl in Hc';
        destruct (onFailure later thrown b') as [b'' [thrown' |]]; simpl in *;
        congruence.
    + destruct (settle_failed error now later b) as [-> _].
      pose proof (f_equal config (fields_onFailure now error b)) as Hc.
      destruct (counted (config b) error); exact Hc.
  - unfold forceOpen, andThen, transitionTo, notifyListeners.
    destruct (forEach _ _); reflexivity.
Qed.

Lemma apply_quiet (b : CircuitBreaker) (op : Op) :
  quiet b -> quietOp op -> quiet (apply b op).
Proof.
  intros Hq Hop.
  destruct op as [now later | out now later | | now | | l | i]; simpl.
  - apply (quiet_listeners b); [| exact Hq].
    unfold enter, andThen, transitionTo, notifyListeners, returns.
    destruct (decide (state b = open)); [| reflexivity].
    destruct (shouldAttemptReset now b); simpl; [| reflexivity].
    rewrite Hq. reflexivity.
  - rewrite (settle_quiet out now later b Hq). destruct out as [| error]; simpl.
    + apply (quiet_listeners b); [| exact Hq].
      apply (f_equal listeners (fields_onSuccess now b)).
    + apply (quiet_listeners b); [| exact Hq].
      pose proof (f_equal listeners (fields_onFailure now error b)) as H.
      destruct (counted (config b) error); exact H.
  - apply (quiet_listeners b); [reflexivity | exact Hq].
  - apply (quiet_listeners b); [| exact Hq].
    unfold forceOpen, andThen, transitionTo, notifyListeners. simpl. rewrite Hq. reflexivity.
  - apply (quiet_listeners b); [reflexivity | exact Hq].
  - intros stats. simpl. rewrite forEach_app, Hq. simpl. rewrite Hop. reflexivity.
  - intros stats. simpl. clear Hop. revert i. generalize (Hq stats). clear.
    induction (listeners b) as [| l ls IH]; intros H i; [destruct i; reflexivity |].
    simpl in H. destruct (l stats) eqn:Hl; [discriminate |].
    destruct i as [| i]; simpl; [exact H |]. rewrite Hl. apply IH. exact H.
Qed.

Lemma apply_openHasLastFailure (b : CircuitBreaker) (op : Op) :
  quiet b -> openHasLastFailure b -> openHasLastFailure (apply b op).
Proof.
  unfold openHasLastFailure. intros Hq Hinv.
  destruct op as [now later | out now later | | now | | l | i]; simpl; try assumption.
  - unfold enter, andThen, transitionTo, notifyListeners, returns.
    destruct (decide (state b = open)) as [Ho | Hn].
    + destruct (shouldAttemptReset now b); simpl; [| auto].
      rewrite Hq. simpl. discriminate.
    + simpl. intros Ho. contradiction.
  - rewrite (settle_quiet out now later b Hq). destruct out as [| error]; simpl.
    + destruct (fields_eq _ _ (fields_onSuccess now b)) as (Hs & _ & _ & _ & Hl & _).
      simpl in Hs, Hl. rewrite Hs, Hl.
      destruct (state b) eqn:Hb; [discriminate | auto |].
      destruct (_ <=? _); discriminate.
    + pose proof (fields_onFailure now error b) as H.
      destruct (counted (config b) error).
      * destruct (fields_eq _ _ H) as (_ & _ & _ & _ & Hl & _).
        simpl in Hl. rewrite Hl. eauto.
      * destruct (fields_eq _ _ H) as (Hs & _ & _ & _ & Hl & _).
        rewrite Hs, Hl. exact Hinv.
  - discriminate.
  - unfold forceOpen, andThen, transitionTo, notifyListeners. simpl. rewrite Hq.
    simpl. eauto.
  - discriminate.
Qed.

(** After any sequence of operations in which no subscriber throws, an
    open breaker has a failure time on record. *)
Lemma open_has_lastFailure (cfg : CircuitBreakerConfig) (ops : list Op) :
  Forall quietOp ops ->
  quiet (run cfg ops) /\ openHasLastFailure (run cfg ops).
Proof.
  unfold run. induction ops as [| op ops IH] using rev_ind; intros Hops.
  - split; [intros stats; reflexivity | discriminate].
  - apply Forall_app in Hops. destruct Hops as [Hops Hop].
    apply Forall_cons in Hop. destruct Hop as [Hop _].
    destruct (IH Hops) as [Hq Hinv].
    rewrite fold_left_app. simpl.
    split; [apply apply_quiet | apply apply_openHasLastFailure]; assumption.
Qed.

Lemma run_config (cfg : CircuitBreakerConfig) (ops : list Op) :
  config (run cfg ops) = cfg.
Proof.
  unfold run. induction ops as [| op ops IH] using rev_ind; [reflexivity |].
  rewrite fold_left_app. simpl. rewrite apply_config. exact IH.
Qed.

(** So a call of [getStats] made after a completed operation never adds
    [timeout] to [null], as long as no subscriber throws. *)
Lemma getStats_nextAttempt (cfg : CircuitBreakerConfig) (ops : list Op) :
  Forall quietOp ops ->
  state (run cfg ops) = open ->
  exists t, lastFailure (run cfg ops) = Some t /\
            Stats.nextAttempt (getStats (run cfg ops)) = Some (t + timeout cfg).
Proof.
  intros Hops Ho.
  destruct (open_has_lastFailure cfg ops Hops) as [_ Hinv].
  destruct (Hinv Ho) as [t Ht].
  exists t. split; [assumption |].
  unfold getStats; simpl. rewrite Ht, run_config.
  destruct (decide (state (run cfg ops) = open)); [reflexivity | contradiction].
Qed.

(** C10 at its failing input: [forceOpen()] on a new breaker, whatever
    its subscribers.  The snapshot that [transitionTo] hands to them is
    taken by [getStats] with the state already [open] and [lastFailure]
    still [null], so [nextAttempt] is [null + timeout], that is
    [timeout].  [lastFailure] is assigned after the subscribers have
    returned, and not at all if one of them throws. *)
Theorem forceOpen_notifies_before_lastFailure (cfg : CircuitBreakerConfig) (now : Z)
    (ls : list Listener) :
  let snapshot :=
    {| Stats.state := open; Stats.failures := 0; Stats.successes := 0;
       Stats.totalRequests := 0; Stats.lastFailure := None;
       Stats.lastSuccess := None; Stats.nextAttempt := Some (timeout cfg) |} in
  let done := forceOpen now (subscribed cfg ls) in
  delivered done.1 = [snapshot] /\
  state done.1 = open /\
  done.2 = forEach ls snapshot /\
  lastFailure done.1 = match forEach ls snapshot with
                       | Some _ => None
                       | None => Some now
                       end /\
  lastFailure (forceOpen now (new cfg)).1 = Some now.
Proof.
  intros snapshot done.
  assert (Hnew : lastFailure (forceOpen now (new cfg)).1 = Some now) by reflexivity.
  unfold done. rewrite subscribed_fields.
  unfold forceOpen, andThen, transitionTo, notifyListeners, getStats. simpl.
  rewrite Z.add_0_l. fold snapshot.
  destruct (forEach ls snapshot); simpl; repeat split; exact Hnew.
Qed.

End BreakerTheory.

(* ===================================================================== *)
(** * Properties of hooks/useJobQueue.ts *)
(* ===================================================================== *)

Module QueueTheory.
Import Errors Queue.

Section QueueProofs.

Context {T R : Type}.
Implicit Types (o : QueueOptions T R) (s : Hook T) (j : QueueJob T) (t : Task T).

(** ** The adaptive limit and the number of active jobs *)

Lemma size_insert_le (m : gmap JobId nat) (k : JobId) (v : nat) :
  (size (<[k := v]> m) <= S (size m))%nat.
Proof. rewrite map_size_insert. destruct (m !! k); simpl; lia. Qed.

Lemma size_delete_le (m : gmap JobId nat) (k : JobId) :
  (size (delete k m) <= size m)%nat.
Proof. rewrite map_size_delete. destruct (m !! k); simpl; lia. Qed.

Lemma processJob_bounded o j s :
  bounded o s -> active s < currentConcurrencyRef s -> bounded o (processJob o j s).
Proof.
  unfold bounded, active, processJob. intros [Hc Ha] Hlt.
  pose proof (size_insert_le (activeJobsRef s) (id j) (controllers s)).
  destruct (onJobStart o j); simpl; split; lia.
Qed.

Lemma processNext_bounded o s : bounded o s -> bounded o (processNext o s).
Proof.
  intros Hb. unfold processNext.
  destruct (isPausedRef s); [assumption |].
  destruct (Z.leb_spec (currentConcurrencyRef s) (Z.of_nat (size (activeJobsRef s))))
    as [Hge | Hlt]; [assumption |].
  destruct (sortByPriority (queueRef s)) as [| j rest].
  - destruct (decide _); assumption.
  - assert (Hj : bounded o (processJob o j (setQueue rest s))).
    { apply processJob_bounded; [exact Hb | exact Hlt]. }
    destruct (_ && _); exact Hj.
Qed.

Lemma finally_bounded o i j s : bounded o s -> bounded o (finally o i j s).
Proof.
  intros [Hc Ha]. unfold finally. apply processNext_bounded.
  unfold bounded, active in *; simpl.
  pose proof (size_delete_le (activeJobsRef s) (id j)). split; lia.
Qed.

Lemma handleSuccess_bounded o random s :
  bounded o s -> bounded o (handleSuccess o random s).
Proof.
  intros [Hc Ha]. unfold handleSuccess; simpl.
  destruct (Z.ltb_spec (currentConcurrencyRef s) (concurrency o)); simpl;
    [destruct (negb _); simpl |]; split; unfold active in *; simpl; lia.
Qed.

Lemma handleError_bounded o s : bounded o s -> bounded o (handleError s).1.
Proof.
  intros [Hc Ha]. unfold handleError; simpl.
  destruct (_ && _); simpl; split; unfold active in *; simpl; lia.
Qed.

Lemma handleError_rest s :
  queueRef (handleError s).1 = queueRef s /\
  tasks (handleError s).1 = tasks s /\
  metricsRef (handleError s).1 = metricsRef s /\
  activeJobsRef (handleError s).1 = activeJobsRef s /\
  isPausedRef (handleError s).1 = isPausedRef s.
Proof. unfold handleError; simpl. destruct (_ && _); repeat split. Qed.

Lemma onCatch_bounded o i t error s : bounded o s -> bounded o (onCatch o i t error s).
Proof.
  intros Hb. unfold onCatch.
  destruct (String.eqb _ _); [apply finally_bounded; exact Hb |].
  destruct (_ <=? _).
  - destruct (onJobRetry _ _ _ _).
    + apply finally_bounded. exact Hb.
    + pose proof (handleError_bounded o
        (setMetrics {| completed := completed (metricsRef s);
                       failed := failed (metricsRef s);
                       retried := retried (metricsRef s) + 1;
                       total := total (metricsRef s) |} s) Hb) as Hh.
      destruct (handleError _) as [s' penalty]. exact Hh.
  - apply finally_bounded. exact Hb.
Qed.

Lemma onSettled_bounded o i t out s : bounded o s -> bounded o (onSettled o i t out s).
Proof.
  intros Hb. destruct out as [result random | error]; simpl.
  - assert (Hs : bounded o (handleSuccess o random
        (setMetrics {| completed := completed (metricsRef s) + 1;
                       failed := failed (metricsRef s);
                       retried := retried (metricsRef s);
                       total := total (metricsRef s) |} s)))
      by (apply handleSuccess_bounded; exact Hb).
    destruct (onJobComplete _ _ _);
      [apply onCatch_bounded | apply finally_bounded]; exact Hs.
  - apply onCatch_bounded; exact Hb.
Qed.

Lemma onWake_bounded o i t s : bounded o s -> bounded o (onWake o i t s).
Proof.
  intros Hb. unfold onWake. destruct (point t); try exact Hb.
  apply finally_bounded. exact Hb.
Qed.

Lemma cancelAll_bounded o s : 1 <= concurrency o -> bounded o s -> bounded o (cancelAll s).
Proof.
  intros H1 [Hc Ha]. unfold bounded, active, cancelAll; simpl.
  rewrite map_size_empty. split; lia.
Qed.

Lemma step_bounded o s ev : 1 <= concurrency o -> bounded o s -> bounded o (step o s ev).
Proof.
  intros H1 Hb. destruct ev as [jobs now | | | | | i out | i]; simpl.
  - apply processNext_bounded. exact Hb.
  - exact Hb.
  - apply processNext_bounded. exact Hb.
  - apply cancelAll_bounded; assumption.
  - destruct (microtasks s); [exact Hb | apply processNext_bounded; exact Hb].
  - destruct (tasks s !! i) as [t |]; [| exact Hb].
    destruct (point t); try exact Hb. apply onSettled_bounded; exact Hb.
  - destruct (tasks s !! i) as [t |]; [| exact Hb].
    apply onWake_bounded; exact Hb.
Qed.

Lemma run_bounded o evs : 1 <= concurrency o -> bounded o (run o evs).
Proof.
  intros H1. unfold run. induction evs as [| ev evs IH] using rev_ind.
  - unfold bounded, active; simpl. rewrite map_size_empty. lia.
  - rewrite fold_left_app; simpl. apply step_bounded; assumption.
Qed.

(** ** What [processNext] touches *)

Lemma insertByPriority_perm j (l : list (QueueJob T)) :
  insertByPriority j l ≡ₚ j :: l.
Proof.
  induction l as [| x l IH]; simpl; [reflexivity |].
  destruct (_ <=? _); [reflexivity |].
  rewrite IH. apply perm_swap.
Qed.

Lemma sortByPriority_nil (l : list (QueueJob T)) :
  sortByPriority l = [] <-> l = [].
Proof.
  split; [| intros ->; reflexivity].
  destruct l as [| x l]; [reflexivity |]. simpl.
  destruct (sortByPriority l) as [| y l']; simpl; [discriminate |].
  destruct (_ <=? _); discriminate.
Qed.

Lemma sortByPriority_perm (l : list (QueueJob T)) : sortByPriority l ≡ₚ l.
Proof.
  induction l as [| x l IH]; simpl; [reflexivity |].
  rewrite insertByPriority_perm, IH. reflexivity.
Qed.

Lemma processNext_metrics o s : metricsRef (processNext o s) = metricsRef s.
Proof.
  unfold processNext, processJob.
  repeat (case_match; simpl; try reflexivity).
Qed.

Lemma processNext_queue o s j :
  j ∈ queueRef (processNext o s) -> j ∈ queueRef s.
Proof.
  unfold processNext.
  destruct (isPausedRef s); [auto |].
  destruct (_ <=? _); [auto |].
  destruct (sortByPriority (queueRef s)) as [| j' rest] eqn:Hsort.
  - destruct (decide _); auto.
  - assert (Hq : j ∈ rest -> j ∈ queueRef s).
    { intros Hin. rewrite <- (sortByPriority_perm (queueRef s)), Hsort.
      apply elem_of_cons. right. exact Hin. }
    unfold processJob.
    destruct (onJobStart o j'); simpl; destruct (_ && _); simpl; exact Hq.
Qed.

Lemma processNext_tasks o s :
  exists started,
    tasks (processNext o s) = tasks s ++ started /\
    forall t, t ∈ started -> point t = AwaitProcessor /\ job t ∈ queueRef s.
Proof.
  assert (Hnil : exists started : list (Task T),
             tasks s = tasks s ++ started /\
             forall t, t ∈ started -> point t = AwaitProcessor /\ job t ∈ queueRef s).
  { exists []. split; [symmetry; apply app_nil_r |]. intros t Ht. inversion Ht. }
  unfold processNext.
  destruct (isPausedRef s); [exact Hnil |].
  destruct (_ <=? _); [exact Hnil |].
  destruct (sortByPriority (queueRef s)) as [| j' rest] eqn:Hsort.
  - destruct (decide _); exact Hnil.
  - unfold processJob.
    destruct (onJobStart o j'); simpl; destruct (_ && _); simpl; try exact Hnil.
    all: eexists; split; [reflexivity |].
    all: intros t Ht; apply list_elem_of_singleton in Ht; subst t; simpl.
    all: split; [reflexivity |].
    all: rewrite <- (sortByPriority_perm (queueRef s)), Hsort; apply elem_of_cons; left; reflexivity.
Qed.

Lemma handleSuccess_rest o random s :
  queueRef (handleSuccess o random s) = queueRef s /\
  tasks (handleSuccess o random s) = tasks s /\
  metricsRef (handleSuccess o random s) = metricsRef s /\
  activeJobsRef (handleSuccess o random s) = activeJobsRef s.
Proof. unfold handleSuccess; simpl. destruct (_ && _); repeat split. Qed.

End QueueProofs.

(** The sort is stable and puts the highest priority first: jobs A
    (priority 1), B (priority 10) and C (priority 1), enqueued in this
    order, are taken in the order B, A, C. *)
Lemma sortByPriority_example :
  let job n p := {| id := IdNum n; data := tt; priority := Some p;
                    retries := None; jobMaxRetries := None; createdAt := None |} in
  sortByPriority [job 1 1; job 2 10; job 3 1] = [job 2 10; job 1 1; job 3 1].
Proof. reflexivity. Qed.

(** C1, as stated, fails: three jobs are running under the default limit
    of 3 and fail one after the other.  The third consecutive error lowers
    the limit to 2 while all three jobs are still active. *)
Lemma limit_drops_below_active :
  let s := run defaults
             [AddJobs [jobNo 1; jobNo 2; jobNo 3] 0; Microtask; Microtask;
              Settle 0 down; Settle 1 down; Settle 2 down] in
  active s = 3 /\ currentConcurrencyRef s = 2 /\
  ~ (active s <= currentConcurrencyRef s).
Proof. vm_compute. repeat split. intros H; apply H; reflexivity. Qed.

(** C1, amended: in every reachable state the adaptive limit is between 1
    and the configured concurrency, the number of active jobs is between 0
    and the configured concurrency, and [processNext] starts nothing while
    the number of active jobs has reached the limit. *)
Theorem concurrency_bounds {T R : Type} (o : QueueOptions T R) (evs : list (Event T R)) :
  1 <= concurrency o ->
  let s := run o evs in
  1 <= currentConcurrencyRef s <= concurrency o /\
  0 <= active s <= concurrency o /\
  (currentConcurrencyRef s <= active s -> processNext o s = s).
Proof.
  intros H1 s. destruct (run_bounded o evs H1) as [Hc Ha]. fold s in Hc, Ha.
  split; [exact Hc |]. split; [unfold active in *; lia |].
  intros Hge. unfold processNext, active in *.
  destruct (isPausedRef s); [reflexivity |].
  destruct (Z.leb_spec (currentConcurrencyRef s) (Z.of_nat (size (activeJobsRef s))));
    [reflexivity | lia].
Qed.

Lemma concurrency_bounds_witness :
  let s := run defaults
             [AddJobs [jobNo 1; jobNo 2; jobNo 3] 0; Microtask; Microtask;
              Settle 0 down; Settle 1 down; Settle 2 down] in
  1 <= currentConcurrencyRef s <= 3 /\ 0 <= active s <= 3.
Proof.
  intros s.
  assert (H1 : 1 <= concurrency defaults) by (simpl; lia).
  pose proof (concurrency_bounds defaults
                [AddJobs [jobNo 1; jobNo 2; jobNo 3] 0; Microtask; Microtask;
                 Settle 0 down; Settle 1 down; Settle 2 down] H1) as H.
  cbv zeta in H. split; apply H.
Defined.

(** C8: [cancelAll] twice is [cancelAll] once, and it leaves an empty
    backlog, no active job and the paused flag cleared. *)
Theorem cancelAll_idempotent {T : Type} (s : Hook T) :
  cancelAll (cancelAll s) = cancelAll s /\
  queueRef (cancelAll s) = [] /\
  active (cancelAll s) = 0 /\
  isPausedRef (cancelAll s) = false /\
  updateState (cancelAll (cancelAll s)) = updateState (cancelAll s).
Proof.
  assert (E : cancelAll (cancelAll s) = cancelAll s).
  { unfold cancelAll; simpl. rewrite map_img_empty_L, (right_id_L ∅ (∪)). reflexivity. }
  rewrite E. repeat split.
Qed.

(** C6, as stated, fails: the processor fulfils, [onJobComplete] throws.
    The throw lands in the [catch] of [processJob]: the job is counted as
    completed and as retried, and after the two waits it is back in the
    queue's hands and started again with [retries = 1]. *)
Lemma throwing_onJobComplete_retries_fulfilled_job :
  let s1 := run throwingComplete [AddJobs [jobNo 1] 0; Settle 0 (Fulfilled tt 0)] in
  let s3 := run throwingComplete
              [AddJobs [jobNo 1] 0; Settle 0 (Fulfilled tt 0); Wake 0; Wake 0] in
  completed (metricsRef s1) = 1 /\ retried (metricsRef s1) = 1 /\
  tasks s3 = [ {| job := {| id := IdNum 1; data := tt; priority := None;
                            retries := Some 1; jobMaxRetries := None;
                            createdAt := Some 0 |};
                  controller := 1%nat; point := AwaitProcessor |} ].
Proof. vm_compute. repeat split. Qed.

(** C6, amended: when the processor fulfils and [onJobComplete] returns,
    the job is counted once as completed and not as retried or failed, its
    activation is over, and nothing enters the backlog: the only new
    activations are of jobs that [processNext] took from the backlog. *)
Theorem fulfilled_job_counted_once {T R : Type} (o : QueueOptions T R) (s : Hook T)
    (i : nat) (t : Task T) (result : R) (random : Q) :
  tasks s !! i = Some t -> point t = AwaitProcessor ->
  onJobComplete o (job t) result = None ->
  let s' := step o s (Settle i (Fulfilled result random)) in
  completed (metricsRef s') = completed (metricsRef s) + 1 /\
  retried (metricsRef s') = retried (metricsRef s) /\
  failed (metricsRef s') = failed (metricsRef s) /\
  (forall j, j ∈ queueRef s' -> j ∈ queueRef s) /\
  (exists started,
      tasks s' = delete i (tasks s) ++ started /\
      forall t', t' ∈ started -> point t' = AwaitProcessor /\ job t' ∈ queueRef s).
Proof.
  intros Ht Hp Hc s'. unfold s'; simpl. rewrite Ht, Hp; simpl. rewrite Hc.
  unfold finally.
  match goal with |- context [processNext o ?x] => set (s0 := x) end.
  destruct (handleSuccess_rest o random
              (setMetrics {| completed := completed (metricsRef s) + 1;
                             failed := failed (metricsRef s);
                             retried := retried (metricsRef s);
                             total := total (metricsRef s) |} s))
    as (Hq & Hts & Hm & _).
  assert (Hq0 : queueRef s0 = queueRef s) by (unfold s0; simpl; exact Hq).
  assert (Ht0 : tasks s0 = delete i (tasks s)) by (unfold s0; simpl; rewrite Hts; reflexivity).
  assert (Hm0 : metricsRef s0 =
                {| completed := completed (metricsRef s) + 1;
                   failed := failed (metricsRef s);
                   retried := retried (metricsRef s);
                   total := total (metricsRef s) |})
    by (unfold s0; simpl; exact Hm).
  rewrite !processNext_metrics, Hm0; simpl.
  repeat split.
  - intros j Hj. rewrite <- Hq0. apply (processNext_queue o s0 j Hj).
  - destruct (processNext_tasks o s0) as (started & Hst & Hall).
    exists started. rewrite Hst, Ht0, <- Hq0. split; [reflexivity | exact Hall].
Qed.

Lemma fulfilled_job_counted_once_witness :
  completed (metricsRef (run defaults [AddJobs [jobNo 1] 0; Settle 0 (Fulfilled tt 0)])) = 1.
Proof.
  set (t := {| job := {| id := IdNum 1; data := tt; priority := None;
                         retries := Some 0; jobMaxRetries := None;
                         createdAt := Some 0 |};
               controller := 0%nat; point := AwaitProcessor |}).
  assert (Ht : tasks (run defaults [AddJobs [jobNo 1] 0]) !! 0%nat = Some t)
    by reflexivity.
  assert (Hp : point t = AwaitProcessor) by reflexivity.
  assert (Hc : onJobComplete defaults (job t) tt = None) by reflexivity.
  pose proof (fulfilled_job_counted_once defaults
                (run defaults [AddJobs [jobNo 1] 0]) 0 t tt 0 Ht Hp Hc) as H.
  cbv zeta in H. apply H.
Defined.

(** C4, as stated, fails: under the default options the first retry of a
    job waits [2000 * 2^1 = 4000] ms, and no draw of the jitter and no
    [maxDelay] make [calculateBackoff] at attempt 0 give that.  And not
    every retried job is put back: when [onJobRetry] throws, the job has
    been counted as retried, but it neither waits nor returns to the
    backlog. *)
Lemma queue_backoff_is_not_calculateBackoff :
  let s := run defaults [AddJobs [jobNo 1] 0; Settle 0 down; Wake 0] in
  let s' := run throwingRetry [AddJobs [jobNo 1] 0; Settle 0 down] in
  (exists t, tasks s !! 0%nat = Some t /\ point t = AwaitBackoff 1 4000) /\
  ~ (exists random cap : Q,
        (0 <= random < 1)%Q /\
        (4000 == Retry.calculateBackoff random 0
                   {| Retry.maxRetries := 3; Retry.baseDelay := 2000;
                      Retry.maxDelay := cap; Retry.backoffMultiplier := 2 |})%Q) /\
  (retried (metricsRef s') = 1 /\ tasks s' = [] /\ queueRef s' = []).
Proof.
  split; [| split].
  - eexists. split; reflexivity.
  - intros (random & cap & [H0 H1] & Heq).
    unfold Retry.calculateBackoff in Heq; simpl in Heq.
    pose proof (Q.le_min_l (2000 * 1 + random * 1000) cap) as Hle.
    change (2 ^ 0)%Q with 1%Q in Heq.
    rewrite <- Heq in Hle. lra.
  - vm_compute. repeat split.
Qed.

(** C4, amended: a failed job that is to be retried, and whose
    [onJobRetry] observer returns, waits, after the promise of
    [handleError], for [retryDelay * 2^retries] ms, where [retries] is the
    job's retry count plus one; there is no jitter and no cap.  When that
    timer fires the job, with its retry count updated, is put at the front
    of the backlog, and the [finally] block runs.  The observer is called
    without a guard, between the count and the wait: the condition that
    it returns is a hypothesis here. *)
Theorem queue_retry_path {T R : Type} (o : QueueOptions T R) (s : Hook T)
    (i : nat) (t : Task T) (error : JsError) :
  tasks s !! i = Some t -> point t = AwaitProcessor ->
  String.eqb (name error) "AbortError" = false ->
  let n := default 0 (retries (job t)) + 1 in
  n <= maxRetries o -> onJobRetry o (job t) n error = None ->
  let s1 := step o s (Settle i (Failed error)) in
  let s2 := step o s1 (Wake i) in
  let s3 := step o s2 (Wake i) in
  (exists penalty,
      tasks s1 !! i = Some {| job := job t; controller := controller t;
                              point := AwaitHandleError n penalty |}) /\
  tasks s2 !! i = Some {| job := job t; controller := controller t;
                          point := AwaitBackoff n (retryDelay o * 2 ^ n)%Q |} /\
  queueRef s2 = queueRef s /\
  queueRef (requeue (job t) n s2) = withRetries (job t) n :: queueRef s /\
  s3 = finally o i (job t) (requeue (job t) n s2).
Proof.
  intros Ht Hp Hab n Hn Hr s1 s2 s3.
  pose proof (lookup_lt_Some _ _ _ Ht) as Hlen.
  assert (E1 : exists penalty s0,
             s1 = setTasks (<[i := {| job := job t; controller := controller t;
                                      point := AwaitHandleError n penalty |}]> (tasks s)) s0
             /\ queueRef s0 = queueRef s).
  { unfold s1; simpl. rewrite Ht, Hp; simpl. unfold onCatch. rewrite Hab.
    fold n. destruct (Z.leb_spec n (maxRetries o)) as [_ | Hgt]; [| lia].
    rewrite Hr.
    match goal with |- context [handleError ?x] =>
      destruct (handleError_rest x) as (Hq & Hts & _); destruct (handleError x) as [s0 penalty]
    end.
    simpl in Hq, Hts. exists penalty, s0. rewrite Hts. split; [reflexivity | exact Hq]. }
  destruct E1 as (penalty & s0 & E1 & Hq0).
  assert (L1 : tasks s1 !! i = Some {| job := job t; controller := controller t;
                                       point := AwaitHandleError n penalty |}).
  { rewrite E1; simpl. apply list_lookup_insert_eq. exact Hlen. }
  assert (E2 : s2 = setTasks (<[i := {| job := job t; controller := controller t;
                                        point := AwaitBackoff n (backoffDelay o n) |}]>
                                (tasks s1)) s1).
  { unfold s2; simpl. rewrite L1. reflexivity. }
  assert (L2 : tasks s2 !! i = Some {| job := job t; controller := controller t;
                                       point := AwaitBackoff n (backoffDelay o n) |}).
  { rewrite E2; simpl. apply list_lookup_insert_eq.
    rewrite E1; simpl. rewrite length_insert. exact Hlen. }
  assert (Q2 : queueRef s2 = queueRef s).
  { rewrite E2; simpl. rewrite E1; simpl. exact Hq0. }
  split; [exists penalty; exact L1 |].
  split; [exact L2 |].
  split; [exact Q2 |].
  split; [simpl; rewrite Q2; reflexivity |].
  unfold s3; simpl. rewrite L2. reflexivity.
Qed.

Lemma queue_retry_path_witness :
  let s := run defaults [AddJobs [jobNo 1] 0; Settle 0 down; Wake 0] in
  exists t, tasks s !! 0%nat = Some t /\ point t = AwaitBackoff 1 (2000 * 2 ^ 1)%Q.
Proof.
  set (t := {| job := {| id := IdNum 1; data := tt; priority := None;
                         retries := Some 0; jobMaxRetries := None;
                         createdAt := Some 0 |};
               controller := 0%nat; point := AwaitProcessor |}).
  assert (Ht : tasks (run defaults [AddJobs [jobNo 1] 0]) !! 0%nat = Some t)
    by reflexivity.
  assert (Hp : point t = AwaitProcessor) by reflexivity.
  assert (Hab : String.eqb (name (PlainError "upstream down")) "AbortError" = false)
    by reflexivity.
  assert (Hn : default 0 (retries (job t)) + 1 <= maxRetries defaults)
    by (simpl; lia).
  assert (Hr : onJobRetry defaults (job t) (default 0 (retries (job t)) + 1)
                 (PlainError "upstream down") = None) by reflexivity.
  pose proof (queue_retry_path defaults (run defaults [AddJobs [jobNo 1] 0]) 0 t
                (PlainError "upstream down") Ht Hp Hab Hn Hr) as H.
  cbv zeta in H. destruct H as (_ & H & _).
  intros s. eexists. split; [exact H | reflexivity].
Defined.

End QueueTheory.

(* ===================================================================== *)
(** * Further properties of services/errors.ts *)
(* ===================================================================== *)

Module ErrorsMore.
Import Errors.

(** X1: [APIError.fromError] always gives an [APIError], classifying
    twice is classifying once, and classification never makes an error
    retryable: the only errors whose retryability it changes are the
    [TypeError]s whose message does not contain ["fetch"], which
    [isRetryableError] retries raw and does not retry once classified. *)
Theorem fromError_classification (e : JsError) :
  instanceofAPIError (fromError e) = true /\
  fromError (fromError e) = fromError e /\
  isRetryableError (fromError e) =
    match e with
    | TypeError m => includes "fetch" m
    | _ => isRetryableError e
    end /\
  (isRetryableError (fromError e) = true -> isRetryableError e = true).
Proof.
  assert (Hapi : instanceofAPIError (fromError e) = true).
  { destruct e as [| | | | m | m n | | |]; try reflexivity.
    - unfold fromError; simpl. destruct (includes "fetch" m); reflexivity.
    - unfold fromError; simpl. destruct (String.eqb n "AbortError"); reflexivity. }
  assert (Hret : isRetryableError (fromError e) =
                 match e with
                 | TypeError m => includes "fetch" m
                 | _ => isRetryableError e
                 end).
  { destruct e as [| | | | m | m n | | |]; try reflexivity.
    - unfold fromError; simpl. destruct (includes "fetch" m); reflexivity.
    - unfold fromError; simpl. destruct (String.eqb n "AbortError"); reflexivity. }
  split; [exact Hapi |]. split; [| split; [exact Hret |]].
  - unfold fromError at 1. rewrite Hapi. reflexivity.
  - rewrite Hret. destruct e; auto.
Qed.

(** X2: classifying an error changes the text that [getErrorMessage]
    shows for it in three cases only: a [TypeError] that mentions
    ["fetch"], an [AbortError], and a thrown value that is not an
    [Error].  For every error, the text after classification is the one
    given here. *)
Theorem getErrorMessage_fromError (e : JsError) :
  getErrorMessage (fromError e) =
  match e with
  | TypeError m =>
      if includes "fetch" m then "Network error: Unable to connect"
      else getErrorMessage e
  | DOMException m n =>
      if String.eqb n "AbortError" then "Request was cancelled"
      else getErrorMessage e
  | NonError _ => "Unknown error occurred"
  | _ => getErrorMessage e
  end.
Proof.
  destruct e as [| | | | m | m n | | |]; try reflexivity.
  - unfold fromError, getErrorMessage; simpl.
    destruct (includes "fetch" m); reflexivity.
  - unfold fromError, getErrorMessage; simpl.
    destruct (String.eqb n "AbortError"); reflexivity.
Qed.

End ErrorsMore.

(* ===================================================================== *)
(** * Further properties of services/retry.ts *)
(* ===================================================================== *)

Module RetryMore.
Import Errors Retry.

Section Counting.

Context {T : Type}.
Implicit Types (o : RetryOptions) (s : RetryState T) (ev : RetryEvent T)
  (evs : list (RetryEvent T)).

Lemma counted_start o sig : countersInv o (withRetry (T := T) o sig).
Proof.
  unfold countersInv, withRetry, loopHead, setPhase; simpl.
  destruct (Z.leb_spec 0 (maxRetries (config o))); simpl; [| lia].
  destruct sig; simpl; lia.
Qed.

Lemma counted_step o s ev : countersInv o s -> countersInv o (retryStep o s ev).
Proof.
  unfold countersInv, retryStep. intros H.
  destruct (phase s) eqn:Hp, ev; simpl; rewrite ?Hp; try exact H.
  - lia.
  - unfold onCatch, setPhase; simpl.
    destruct (aborted s); simpl; [lia |].
    destruct (Z.eqb_spec (attempt s) (maxRetries (config o))); simpl; [lia |].
    destruct (shouldRetry o e (attempt s)); simpl; [| lia].
    destruct (onRetry o e _ _); simpl; rewrite length_app; simpl; lia.
  - unfold loopHead, setPhase; simpl.
    destruct (Z.leb_spec (attempt s + 1) (maxRetries (config o))); simpl; [| lia].
    destruct (aborted s); simpl; lia.
Qed.

Lemma counted_run o s evs : countersInv o s -> countersInv o (retryRun o s evs).
Proof.
  revert s. induction evs as [| ev evs IH]; intros s H; simpl; [exact H |].
  apply IH, counted_step, H.
Qed.

(** X3: whatever happens, a call of [withRetry] calls the operation at
    most [maxRetries + 1] times and [onRetry] at most [maxRetries] times
    (not at all when [maxRetries] is negative). *)
Theorem attempts_bounded o sig evs :
  let s := retryRun o (withRetry o sig) evs in
  Z.of_nat (calls s) <= Z.max 0 (maxRetries (config o) + 1) /\
  Z.of_nat (length (retryLog s)) <= Z.max 0 (maxRetries (config o)).
Proof.
  intros s. pose proof (counted_run o _ evs (counted_start o sig)) as H.
  fold s in H. unfold countersInv in H. destruct (phase s); lia.
Qed.

(** X4: when [maxRetries] is negative or the signal is already aborted at
    the call, the operation is never called.  The call rejects at once,
    with [undefined] in the first case (the loop body never runs and
    [lastError] was never assigned) and with an [AbortError] otherwise,
    and nothing that happens later changes that. *)
Theorem never_attempted o sig evs :
  maxRetries (config o) < 0 \/ sig = true ->
  let s := retryRun o (withRetry o sig) evs in
  calls s = 0%nat /\
  phase s = Rejected (if maxRetries (config o) <? 0 then None
                      else Some (DOMException "Aborted" "AbortError")).
Proof.
  intros Hcase s.
  set (w := withRetry (T := T) o sig).
  assert (Hw : pending w = false /\ calls w = 0%nat /\
               phase w = Rejected (if maxRetries (config o) <? 0 then None
                                   else Some (DOMException "Aborted" "AbortError"))).
  { unfold w, withRetry, loopHead, setPhase, pending; simpl.
    destruct (Z.leb_spec 0 (maxRetries (config o))) as [Hge | Hlt]; simpl.
    - destruct Hcase as [Hneg | ->]; [lia |]. simpl.
      destruct (Z.ltb_spec (maxRetries (config o)) 0); [lia |]. repeat split.
    - destruct (Z.ltb_spec (maxRetries (config o)) 0); [| lia]. repeat split. }
  destruct Hw as (Hpend & Hc & Hp).
  assert (Hs : s = w) by (unfold s; apply RetryTheory.settled_stays; exact Hpend).
  rewrite Hs. split; assumption.
Qed.


(** After [k] failed attempts that are all retried, the call is running
    its attempt number [k]. *)
Lemma after_failedAttempts o s (es : list (JsError * Q)) :
  (forall e attempt, e ∈ es.*1 -> shouldRetry o e attempt = true) ->
  (forall e attempt d, onRetry o e attempt d = None) ->
  phase s = Running -> aborted s = false ->
  attempt s + Z.of_nat (length es) <= maxRetries (config o) ->
  let s' := retryRun o s (failedAttempts es) in
  phase s' = Running /\ aborted s' = false /\
  attempt s' = attempt s + Z.of_nat (length es) /\
  calls s' = (calls s + length es)%nat /\
  length (retryLog s') = (length (retryLog s) + length es)%nat.
Proof.
  intros Hsr Hor. revert s.
  induction es as [| [e random] es IH]; intros s Hp Ha Hle; simpl.
  - repeat split; try assumption; lia.
  - simpl in Hle.
    set (s1 := retryStep o (retryStep o s (OpRejected e random)) SleepElapsed).
    assert (E1 : exists d, s1 =
                 {| phase := Running; attempt := attempt s + 1;
                    lastError := Some e; aborted := false;
                    calls := S (calls s);
                    retryLog := retryLog s ++ [(e, attempt s + 1, d)] |}).
    { unfold s1. unfold retryStep at 2. rewrite Hp.
      unfold onCatch, setPhase; simpl. rewrite Ha; simpl.
      destruct (Z.eqb_spec (attempt s) (maxRetries (config o))); [lia |]. simpl.
      rewrite Hsr by (simpl; apply elem_of_cons; left; reflexivity). simpl.
      rewrite Hor. unfold retryStep; simpl.
      unfold loopHead, setPhase; simpl.
      destruct (Z.leb_spec (attempt s + 1) (maxRetries (config o))); [| lia].
      eexists; reflexivity. }
    destruct E1 as [d E1].
    assert (H1 : phase s1 = Running /\ aborted s1 = false /\
                 attempt s1 = attempt s + 1 /\ calls s1 = S (calls s) /\
                 length (retryLog s1) = S (length (retryLog s))).
    { rewrite E1; simpl. rewrite length_app; simpl. repeat split; lia. }
    destruct H1 as (Hp1 & Ha1 & Hat1 & Hc1 & Hl1).
    destruct (IH (fun e' a' Hin => Hsr e' a' ltac:(simpl; apply elem_of_cons; right; exact Hin))
                 s1 Hp1 Ha1 ltac:(lia)) as (Q1 & Q2 & Q3 & Q4 & Q5).
    repeat split; try assumption; lia.
Qed.

(** X6: an operation that fails [k] times with errors that are retried,
    [k] at most [maxRetries], and then fulfils, is called [k + 1] times,
    [onRetry] is called [k] times, and the call resolves with the value
    of the last attempt. *)
Theorem succeeds_after_retries o (es : list (JsError * Q)) (v : T) :
  (forall e attempt, e ∈ es.*1 -> shouldRetry o e attempt = true) ->
  (forall e attempt d, onRetry o e attempt d = None) ->
  Z.of_nat (length es) <= maxRetries (config o) ->
  let s := retryRun o (withRetry o false) (failedAttempts es ++ [OpResolved v]) in
  phase s = Resolved v /\
  calls s = S (length es) /\
  length (retryLog s) = length es.
Proof.
  intros Hsr Hor Hle s.
  assert (H0 : phase (withRetry (T := T) o false) = Running /\
               aborted (withRetry (T := T) o false) = false /\
               attempt (withRetry (T := T) o false) = 0 /\
               calls (withRetry (T := T) o false) = 1%nat /\
               retryLog (withRetry (T := T) o false) = []).
  { unfold withRetry, loopHead; simpl.
    destruct (Z.leb_spec 0 (maxRetries (config o))); [| lia]. repeat split. }
  destruct H0 as (Hp & Ha & Hat & Hc & Hl).
  destruct (after_failedAttempts o _ es Hsr Hor Hp Ha ltac:(lia))
    as (Q1 & Q2 & Q3 & Q4 & Q5).
  set (w := retryRun o (withRetry (T := T) o false) (failedAttempts es)) in *.
  assert (Es : s = retryStep o w (OpResolved v)).
  { unfold s, w, retryRun. rewrite fold_left_app. reflexivity. }
  rewrite Es. unfold retryStep. rewrite Q1. simpl.
  rewrite Q4, Q5, Hc, Hl. repeat split.
Qed.

(** X7: the error of the last attempt is rethrown as it is.  After [k]
    retried failures, a failure that is not to be retried, because
    [shouldRetry] says so or because it is attempt number [maxRetries],
    rejects the call with that very error; the operation has then been
    called [k + 1] times. *)
Theorem rethrows_last_error o (es : list (JsError * Q)) (e : JsError) (random : Q) :
  (forall e' attempt, e' ∈ es.*1 -> shouldRetry o e' attempt = true) ->
  (forall e' attempt d, onRetry o e' attempt d = None) ->
  Z.of_nat (length es) <= maxRetries (config o) ->
  Z.of_nat (length es) = maxRetries (config o) \/
    shouldRetry o e (Z.of_nat (length es)) = false ->
  let s := retryRun o (withRetry (T := T) o false)
             (failedAttempts es ++ [OpRejected e random]) in
  phase s = Rejected (Some e) /\
  calls s = S (length es) /\
  length (retryLog s) = length es.
Proof.
  intros Hsr Hor Hle Hlast s.
  assert (H0 : phase (withRetry (T := T) o false) = Running /\
               aborted (withRetry (T := T) o false) = false /\
               attempt (withRetry (T := T) o false) = 0 /\
               calls (withRetry (T := T) o false) = 1%nat /\
               retryLog (withRetry (T := T) o false) = []).
  { unfold withRetry, loopHead; simpl.
    destruct (Z.leb_spec 0 (maxRetries (config o))); [| lia]. repeat split. }
  destruct H0 as (Hp & Ha & Hat & Hc & Hl).
  destruct (after_failedAttempts o _ es Hsr Hor Hp Ha ltac:(lia))
    as (Q1 & Q2 & Q3 & Q4 & Q5).
  set (w := retryRun o (withRetry (T := T) o false) (failedAttempts es)) in *.
  assert (Es : s = retryStep o w (OpRejected e random)).
  { unfold s, w, retryRun. rewrite fold_left_app. reflexivity. }
  rewrite Es. unfold retryStep. rewrite Q1.
  unfold onCatch, setPhase; simpl. rewrite Q2, Q3, Hat; simpl.
  rewrite !Z.add_0_l.
  assert (Hstop : (Z.of_nat (length es) =? maxRetries (config o)) ||
                  negb (shouldRetry o e (Z.of_nat (length es))) = true).
  { destruct Hlast as [Heq | Hno].
    - apply orb_true_iff; left. apply Z.eqb_eq. exact Heq.
    - apply orb_true_iff; right. rewrite Hno. reflexivity. }
  rewrite Hstop; simpl. rewrite Q4, Q5, Hc, Hl. repeat split.
Qed.

End Counting.

Lemma never_attempted_witness :
  calls (retryRun defaultOptions (withRetry (T := unit) defaultOptions true)
           [OpResolved tt; SleepElapsed]) = 0%nat.
Proof.
  assert (H : maxRetries (config defaultOptions) < 0 \/ true = true)
    by (right; reflexivity).
  pose proof (never_attempted (T := unit) defaultOptions true
                [OpResolved tt; SleepElapsed] H) as Hn.
  cbv zeta in Hn. apply Hn.
Defined.


Lemma succeeds_after_retries_witness :
  phase (retryRun defaultOptions (withRetry defaultOptions false)
           (failedAttempts [(TypeError "Failed to fetch", 0%Q)] ++ [OpResolved 7])) =
  Resolved 7.
Proof.
  assert (Hsr : forall e attempt,
             e ∈ [(TypeError "Failed to fetch", 0%Q)].*1 ->
             shouldRetry defaultOptions e attempt = true).
  { intros e a Hin. simpl in Hin. apply list_elem_of_singleton in Hin. subst e.
    reflexivity. }
  assert (Hor : forall e attempt d, onRetry defaultOptions e attempt d = None)
    by reflexivity.
  assert (Hle : Z.of_nat (length [(TypeError "Failed to fetch", 0%Q)]) <=
                maxRetries (config defaultOptions)) by (simpl; lia).
  pose proof (succeeds_after_retries defaultOptions
                [(TypeError "Failed to fetch", 0%Q)] 7 Hsr Hor Hle) as H.
  cbv zeta in H. apply H.
Defined.


Lemma rethrows_last_error_witness :
  phase (retryRun defaultOptions (withRetry (T := unit) defaultOptions false)
           (failedAttempts [] ++ [OpRejected (AuthenticationError "denied") 0])) =
  Rejected (Some (AuthenticationError "denied")).
Proof.
  assert (Hsr : forall e attempt,
             e ∈ (@nil (JsError * Q)).*1 -> shouldRetry defaultOptions e attempt = true).
  { intros e a Hin. simpl in Hin. inversion Hin. }
  assert (Hor : forall e attempt d, onRetry defaultOptions e attempt d = None)
    by reflexivity.
  assert (Hle : Z.of_nat (length (@nil (JsError * Q))) <=
                maxRetries (config defaultOptions)) by (simpl; lia).
  assert (Hlast : Z.of_nat (length (@nil (JsError * Q))) =
                    maxRetries (config defaultOptions) \/
                  shouldRetry defaultOptions (AuthenticationError "denied")
                    (Z.of_nat (length (@nil (JsError * Q)))) = false)
    by (right; reflexivity).
  pose proof (rethrows_last_error (T := unit) defaultOptions []
                (AuthenticationError "denied") 0 Hsr Hor Hle Hlast) as H.
  cbv zeta in H. apply H.
Defined.

End RetryMore.

(* ===================================================================== *)
(** * Properties of fetchWithRetry and wpFetch *)
(* ===================================================================== *)

Module FetchMore.
Import Errors Retry Fetch.

(** X8: a response that is not [ok], is not a 429 and has a status below
    500 ends [fetchWithRetry] the moment it arrives: the call rejects
    with the [APIError] of [fromResponse], no retry is scheduled however
    many attempts remain, and [wpFetch] passes that error on, except for
    a 401, which it replaces by its [AuthenticationError]. *)
Theorem client_error_is_final (cfg : RetryConfig) (s : RetryState FetchResponse)
    (r : FetchResponse) (random : Q) :
  phase s = Running ->
  ok r = false -> status (response r) <> 429 -> status (response r) < 500 ->
  let s' := retryStep (fetchOptions cfg) s (toRetryEvent (Responded r random)) in
  phase s' = Rejected (Some (fromResponse (response r) None)) /\
  calls s' = calls s /\
  retryLog s' = retryLog s /\
  wpFetchCatch (fromResponse (response r) None) =
    if status (response r) =? 401
    then AuthenticationError "Invalid WordPress credentials"
    else fromResponse (response r) None.
Proof.
  intros Hp Hok H429 H500 s'.
  assert (Hc : checkResponse r = inr (fromResponse (response r) None)).
  { unfold checkResponse. rewrite Hok.
    destruct (Z.eqb_spec (status (response r)) 429); [contradiction | reflexivity]. }
  assert (Hnr : isRetryableError (fromResponse (response r) None) = false).
  { rewrite ErrorsTheory.isRetryableError_fromResponse.
    apply orb_false_iff; split; [apply Z.leb_gt; lia | apply Z.eqb_neq; assumption]. }
  unfold s'; simpl. rewrite Hc. unfold retryStep. rewrite Hp.
  unfold Retry.onCatch, setPhase; simpl. rewrite Hnr; simpl.
  rewrite orb_true_r.
  destruct (aborted s); simpl; repeat split.
Qed.

Lemma client_error_is_final_witness :
  phase (fetchRun wpRetryConfig
           [Responded {| response := {| status := 404; statusText := "Not Found" |};
                         retryAfterHeader := None |} 0]) =
  Rejected (Some (fromResponse {| status := 404; statusText := "Not Found" |} None)).
Proof.
  set (r := {| response := {| status := 404; statusText := "Not Found" |};
               retryAfterHeader := None |}).
  assert (Hp : phase (fetchWithRetry wpRetryConfig) = Running) by reflexivity.
  assert (Hok : ok r = false) by reflexivity.
  assert (H429 : status (response r) <> 429) by (simpl; lia).
  assert (H500 : status (response r) < 500) by (simpl; lia).
  pose proof (client_error_is_final wpRetryConfig (fetchWithRetry wpRetryConfig)
                r 0 Hp Hok H429 H500) as H.
  cbv zeta in H. apply H.
Defined.

(** X9: a 429 that arrives while attempts remain and the controller is
    not aborted puts [fetchWithRetry] to sleep.  When the [Retry-After]
    header reads as a non-zero number of seconds, the sleep is the larger
    of the computed back-off and that many seconds; when the header is
    absent, empty, or does not start with a number (an HTTP date), the
    sleep is the computed back-off alone. *)
Theorem rate_limit_sleep (cfg : RetryConfig) (s : RetryState FetchResponse)
    (r : FetchResponse) (random : Q) :
  phase s = Running -> aborted s = false -> attempt s <> maxRetries cfg ->
  status (response r) = 429 ->
  let hint :=
    match retryAfterHeader r with
    | Some h => if String.eqb h "" then None else parseInt h
    | None => None
    end in
  let backoff := calculateBackoff random (attempt s) cfg in
  let s' := retryStep (fetchOptions cfg) s (toRetryEvent (Responded r random)) in
  phase s' =
    Sleeping match hint with
             | Some seconds =>
                 if seconds =? 0 then backoff
                 else Qmax backoff (inject_Z (seconds * 1000))
             | None => backoff
             end /\
  calls s' = calls s.
Proof.
  intros Hp Ha Hatt H429 hint backoff s'.
  assert (Hc : checkResponse r = inr (RateLimitError "Rate limited" hint)).
  { unfold checkResponse, ok. rewrite H429. reflexivity. }
  unfold s'; simpl. rewrite Hc. unfold retryStep. rewrite Hp.
  unfold Retry.onCatch, setPhase; simpl. rewrite Ha; simpl.
  destruct (Z.eqb_spec (attempt s) (maxRetries cfg)); [contradiction |]. simpl.
  split; [| reflexivity].
  destruct hint as [seconds |]; reflexivity.
Qed.

Lemma rate_limit_sleep_witness :
  phase (fetchRun wpRetryConfig
           [Responded {| response := {| status := 429; statusText := "Too Many Requests" |};
                         retryAfterHeader := Some "120" |} 0]) =
  Sleeping 120000.
Proof.
  set (r := {| response := {| status := 429; statusText := "Too Many Requests" |};
               retryAfterHeader := Some "120" |}).
  assert (Hp : phase (fetchWithRetry wpRetryConfig) = Running) by reflexivity.
  assert (Ha : aborted (fetchWithRetry wpRetryConfig) = false) by reflexivity.
  assert (Hatt : attempt (fetchWithRetry wpRetryConfig) <> maxRetries wpRetryConfig)
    by (simpl; lia).
  assert (H429 : status (response r) = 429) by reflexivity.
  pose proof (rate_limit_sleep wpRetryConfig (fetchWithRetry wpRetryConfig)
                r 0 Hp Ha Hatt H429) as H.
  cbv zeta in H. apply H.
Defined.

(** X10: the deadline of [fetchWithRetry] is one timer for the whole
    call.  Once the controller has been aborted, by that timer or by the
    caller, the failure of the request in flight is final: the call
    rejects with the error of [fetch], even when that error is one that
    is retried and attempts remain. *)
Theorem abort_makes_failure_final (cfg : RetryConfig) (s : RetryState FetchResponse)
    (e : JsError) (random : Q) :
  phase s = Running ->
  let s' := retryRun (fetchOptions cfg) s
              (map toRetryEvent [ControllerAborted; FetchFailed e random]) in
  phase s' = Rejected (Some e) /\ calls s' = calls s /\ retryLog s' = retryLog s.
Proof.
  intros Hp s'. unfold s'; simpl. unfold retryStep at 2. rewrite Hp.
  unfold retryStep; simpl. rewrite Hp. unfold Retry.onCatch, setPhase; simpl.
  repeat split.
Qed.

Lemma abort_makes_failure_final_witness :
  phase (fetchRun wpRetryConfig
           [ControllerAborted; FetchFailed (TypeError "Failed to fetch") 0]) =
  Rejected (Some (TypeError "Failed to fetch")).
Proof.
  assert (Hp : phase (fetchWithRetry wpRetryConfig) = Running) by reflexivity.
  pose proof (abort_makes_failure_final wpRetryConfig (fetchWithRetry wpRetryConfig)
                (TypeError "Failed to fetch") 0 Hp) as H.
  cbv zeta in H. apply H.
Defined.

(** [parseInt] on the values a [Retry-After] header takes. *)
Lemma parseInt_examples :
  parseInt "120" = Some 120 /\ parseInt " 30 seconds" = Some 30 /\
  parseInt "-5" = Some (-5) /\ parseInt "" = None /\
  parseInt "Wed, 21 Oct 2015 07:28:00 GMT" = None.
Proof. repeat split. Qed.

End FetchMore.

(* ===================================================================== *)
(** * Further properties of services/circuitBreaker.ts *)
(* ===================================================================== *)

Module BreakerMore.
Import Errors Breaker.

Lemma rethrow_after (error : JsError) (body : Completion) :
  (rethrow error body).1 = body.1.
Proof. destruct body as [b [thrown |]]; reflexivity. Qed.

(** A call on a breaker that is not open, whose operation fails: the
    breaker afterwards is what [onFailure] leaves, with the request
    counted. *)
Lemma execute_failure (b : CircuitBreaker) (c : Call) (e : JsError) :
  state b <> open -> outcome c = Failed e ->
  after (execute c b) = (onFailure (settledAt c) e (countRequest b)).1.
Proof.
  intros Hs Ho. unfold execute.
  rewrite BreakerTheory.enter_not_open by exact Hs. rewrite Ho. simpl.
  apply rethrow_after.
Qed.

Lemma stays_closed_below_threshold (calls : list Call) (b : CircuitBreaker) :
  (forall c, c ∈ calls -> exists e, outcome c = Failed e /\ counted (config b) e = true) ->
  state b = closed -> failures b = totalRequests b -> 0 <= totalRequests b ->
  totalRequests b + Z.of_nat (length calls) <
    Z.max 1 (Z.max (failureThreshold (config b)) (volumeThreshold (config b))) ->
  let b' := executeAll calls b in
  state b' = closed /\ config b' = config b /\
  failures b' = totalRequests b + Z.of_nat (length calls) /\
  totalRequests b' = totalRequests b + Z.of_nat (length calls).
Proof.
  revert b. induction calls as [| c calls IH]; intros b Hc Hs Hf H0 Hlt.
  - simpl. repeat split; try assumption; lia.
  - simpl length in Hlt. unfold executeAll; simpl.
    destruct (Hc c) as (e & Ho & Hce); [apply elem_of_cons; left; reflexivity |].
    assert (Hn : state b <> open) by (rewrite Hs; discriminate).
    rewrite (execute_failure b c e Hn Ho).
    pose proof (BreakerTheory.fields_onFailure (settledAt c) e (countRequest b)) as Hfl.
    simpl in Hfl. rewrite Hce, Hs in Hfl.
    assert (Hno : (volumeThreshold (config b) <=? totalRequests b + 1) &&
                  (failureThreshold (config b) <=? failures b + 1) = false).
    { apply andb_false_iff.
      destruct (Z.leb_spec (volumeThreshold (config b)) (totalRequests b + 1));
        [| left; reflexivity].
      right. apply Z.leb_gt. lia. }
    rewrite Hno in Hfl.
    destruct (BreakerTheory.fields_eq _ _ Hfl) as (F1 & F2 & _ & F4 & _ & _ & _ & F8 & _).
    simpl in F1, F2, F4, F8.
    set (b1 := (onFailure (settledAt c) e (countRequest b)).1) in *.
    fold (executeAll calls b1).
    destruct (IH b1) as (Q1 & Q2 & Q3 & Q4).
    + intros c' Hin. rewrite F8. apply Hc. apply elem_of_cons. right. exact Hin.
    + exact F1.
    + lia.
    + lia.
    + rewrite F8, F4. lia.
    + rewrite F4 in Q3, Q4.
      repeat split; [exact Q1 | rewrite Q2; exact F8 | | ]; simpl length; lia.
Qed.

(** X11: a new breaker, whatever its subscribers do, opens on the
    failure that is both the [failureThreshold]-th and the
    [volumeThreshold]-th call, no earlier.  With [k] the larger of the
    two thresholds (or 1 if that is less), fewer than [k] failing calls
    in a row leave it closed with all of them counted, and the call
    number [k] opens it. *)
Theorem opens_at_larger_threshold (cfg : CircuitBreakerConfig) (ls : list Listener)
    (calls : list Call) :
  (forall c, c ∈ calls -> exists e, outcome c = Failed e /\ counted cfg e = true) ->
  let k := Z.max (failureThreshold cfg) (volumeThreshold cfg) in
  let n := Z.of_nat (length calls) in
  let b := executeAll calls (subscribed cfg ls) in
  (n < Z.max 1 k -> state b = closed /\ failures b = n /\ totalRequests b = n) /\
  (n = Z.max 1 k -> state b = open /\ failures b = n /\ totalRequests b = n).
Proof.
  intros Hc k n b. subst b. rewrite BreakerTheory.subscribed_fields.
  set (b0 := {| state := closed; failures := 0; successes := 0; totalRequests := 0;
                lastFailure := None; lastSuccess := None; halfOpenSuccesses := 0;
                config := cfg; listeners := ls; delivered := [] |}).
  split.
  - intros Hlt.
    destruct (stays_closed_below_threshold calls b0 Hc eq_refl eq_refl)
      as (Q1 & _ & Q3 & Q4); [simpl; lia | simpl; fold k n; lia |].
    simpl in Q3, Q4. repeat split; [exact Q1 | lia | lia].
  - intros Hn. subst k n. revert Hc Hn.
    induction calls as [| c front _] using rev_ind; intros Hc Hn.
    { simpl in Hn. lia. }
    rewrite length_app in *. simpl length in *.
    assert (Hcf : forall c, c ∈ front ->
                    exists e, outcome c = Failed e /\ counted (config b0) e = true).
    { intros c' Hin. apply Hc. apply elem_of_app. left. exact Hin. }
    destruct (stays_closed_below_threshold front b0 Hcf eq_refl eq_refl)
      as (Q1 & Q2 & Q3 & Q4);
      [cbn [b0 totalRequests config]; lia | cbn [b0 totalRequests config]; lia |].
    cbn [b0 totalRequests config] in Q2, Q3, Q4. rewrite Z.add_0_l in Q3, Q4.
    unfold executeAll. rewrite fold_left_app. simpl.
    fold (executeAll front b0).
    set (b1 := executeAll front b0) in *.
    destruct (Hc c) as (e & Ho & Hce).
    { apply elem_of_app. right. apply list_elem_of_singleton. reflexivity. }
    assert (Hnot : state b1 <> open) by (rewrite Q1; discriminate).
    rewrite (execute_failure b1 c e Hnot Ho).
    pose proof (BreakerTheory.fields_onFailure (settledAt c) e (countRequest b1)) as Hfl.
    simpl in Hfl. rewrite Q2, Hce, Q1, Q3, Q4 in Hfl.
    assert (Hyes : (volumeThreshold cfg <=? Z.of_nat (length front) + 1) &&
                   (failureThreshold cfg <=? Z.of_nat (length front) + 1) = true).
    { apply andb_true_iff. split; apply Z.leb_le; lia. }
    rewrite Hyes in Hfl.
    destruct (BreakerTheory.fields_eq _ _ Hfl) as (F1 & F2 & _ & F4 & _).
    simpl in F1, F2, F4. repeat split; [exact F1 | lia | lia].
Qed.

Lemma opens_at_larger_threshold_witness :
  state (executeAll
           [failing 1 (PlainError "a") 2; failing 3 (PlainError "b") 4;
            failing 5 (PlainError "c") 6; failing 7 (PlainError "d") 8;
            failing 9 (PlainError "e") 10]
           (subscribed
              {| failureThreshold := 3; successThreshold := 2; timeout := 30000;
                 volumeThreshold := 5; errorFilter := Some (fun _ => true) |}
              [fun _ => Some (PlainError "subscriber")])) = open.
Proof.
  set (cfg := {| failureThreshold := 3; successThreshold := 2; timeout := 30000;
                 volumeThreshold := 5; errorFilter := Some (fun _ => true) |}).
  set (calls := [failing 1 (PlainError "a") 2; failing 3 (PlainError "b") 4;
                 failing 5 (PlainError "c") 6; failing 7 (PlainError "d") 8;
                 failing 9 (PlainError "e") 10]).
  assert (Hc : forall c, c ∈ calls ->
                 exists e, outcome c = Failed e /\ counted cfg e = true).
  { intros c Hin. unfold calls in Hin.
    repeat (apply elem_of_cons in Hin; destruct Hin as [-> | Hin];
            [eexists; split; reflexivity |]).
    inversion Hin. }
  pose proof (opens_at_larger_threshold cfg [fun _ => Some (PlainError "subscriber")]
                calls Hc) as H.
  cbv zeta in H. destruct H as [_ H]. apply H. reflexivity.
Defined.

(** A fulfilled call on a breaker that is not open and whose subscribers
    do not throw: it resolves, and the breaker afterwards is what
    [onSuccess] leaves, with the request counted. *)
Lemma execute_success_quiet (b : CircuitBreaker) (c : Call) :
  quiet b -> state b <> open -> outcome c = Fulfilled ->
  execute c b =
  {| after := (onSuccess (settledAt c) (countRequest b)).1; invoked := true;
     thrown := None |}.
Proof.
  intros Hq Hs Ho. unfold execute.
  rewrite BreakerTheory.enter_not_open by exact Hs. rewrite Ho.
  rewrite BreakerTheory.settle_quiet; [reflexivity |].
  apply (BreakerTheory.quiet_listeners b); [reflexivity | exact Hq].
Qed.

Lemma stays_half_open_below_threshold (calls : list Call) (b : CircuitBreaker) :
  quiet b -> (forall c, c ∈ calls -> outcome c = Fulfilled) ->
  state b = half_open -> 0 <= halfOpenSuccesses b ->
  halfOpenSuccesses b + Z.of_nat (length calls) <
    Z.max 1 (successThreshold (config b)) ->
  let b' := executeAll calls b in
  quiet b' /\ state b' = half_open /\ config b' = config b /\
  halfOpenSuccesses b' = halfOpenSuccesses b + Z.of_nat (length calls) /\
  failures b' = failures b.
Proof.
  revert b. induction calls as [| c calls IH]; intros b Hq Hc Hs H0 Hlt.
  - simpl. repeat split; try assumption; lia.
  - simpl length in Hlt. unfold executeAll; simpl.
    assert (Ho : outcome c = Fulfilled) by (apply Hc; apply elem_of_cons; left; reflexivity).
    assert (Hn : state b <> open) by (rewrite Hs; discriminate).
    rewrite (execute_success_quiet b c Hq Hn Ho). simpl.
    pose proof (BreakerTheory.fields_onSuccess (settledAt c) (countRequest b)) as Hfl.
    simpl in Hfl. rewrite Hs in Hfl.
    destruct (Z.leb_spec (successThreshold (config b)) (halfOpenSuccesses b + 1));
      [lia |].
    destruct (BreakerTheory.fields_eq _ _ Hfl) as (F1 & F2 & _ & _ & _ & _ & F7 & F8 & F9).
    simpl in F1, F2, F7, F8, F9.
    set (b1 := (onSuccess (settledAt c) (countRequest b)).1) in *.
    fold (executeAll calls b1).
    destruct (IH b1) as (Q0 & Q1 & Q2 & Q3 & Q4).
    + apply (BreakerTheory.quiet_listeners b); assumption.
    + intros c' Hin. apply Hc. apply elem_of_cons. right. exact Hin.
    + exact F1.
    + lia.
    + rewrite F7, F8. lia.
    + rewrite F7 in Q3. rewrite F2 in Q4.
      repeat split; [exact Q0 | exact Q1 | rewrite Q2; exact F8 | | exact Q4];
        simpl length; lia.
Qed.

(** X12: a breaker that has just gone half-open and whose subscribers do
    not throw closes on its [successThreshold]-th fulfilled call in a
    row, no earlier (on the first one when the threshold is below 1);
    closing sets the failure count to 0. *)
Theorem closes_at_success_threshold (b : CircuitBreaker) (calls : list Call) :
  quiet b -> (forall c, c ∈ calls -> outcome c = Fulfilled) ->
  state b = half_open -> halfOpenSuccesses b = 0 ->
  let k := Z.max 1 (successThreshold (config b)) in
  let n := Z.of_nat (length calls) in
  let b' := executeAll calls b in
  (n < k -> state b' = half_open /\ halfOpenSuccesses b' = n /\
            failures b' = failures b) /\
  (n = k -> state b' = closed /\ failures b' = 0 /\ halfOpenSuccesses b' = 0).
Proof.
  intros Hq Hc Hs Hh k n b'. split.
  - intros Hlt.
    destruct (stays_half_open_below_threshold calls b Hq Hc Hs ltac:(lia))
      as (_ & Q1 & _ & Q3 & Q4); [rewrite Hh; fold k n; lia |].
    fold b' in Q1, Q3, Q4. rewrite Hh in Q3.
    repeat split; [exact Q1 | lia | exact Q4].
  - intros Hn. subst k n b'. revert Hc Hn.
    induction calls as [| c front _] using rev_ind; intros Hc Hn.
    { simpl in Hn. lia. }
    rewrite length_app in *. simpl length in *.
    assert (Hcf : forall c, c ∈ front -> outcome c = Fulfilled).
    { intros c' Hin. apply Hc. apply elem_of_app. left. exact Hin. }
    destruct (stays_half_open_below_threshold front b Hq Hcf Hs ltac:(lia))
      as (Q0 & Q1 & Q2 & Q3 & Q4); [rewrite Hh; lia |].
    rewrite Hh, Z.add_0_l in Q3.
    unfold executeAll. rewrite fold_left_app. simpl.
    fold (executeAll front b).
    set (b0 := executeAll front b) in *.
    assert (Ho : outcome c = Fulfilled).
    { apply Hc. apply elem_of_app. right. apply list_elem_of_singleton. reflexivity. }
    assert (Hnot : state b0 <> open) by (rewrite Q1; discriminate).
    rewrite (execute_success_quiet b0 c Q0 Hnot Ho). simpl.
    pose proof (BreakerTheory.fields_onSuccess (settledAt c) (countRequest b0)) as Hfl.
    simpl in Hfl. rewrite Q1, Q2, Q3 in Hfl.
    destruct (Z.leb_spec (successThreshold (config b)) (Z.of_nat (length front) + 1));
      [| lia].
    destruct (BreakerTheory.fields_eq _ _ Hfl) as (F1 & F2 & _ & _ & _ & _ & F7 & _).
    simpl in F1, F2, F7. repeat split; assumption.
Qed.

Lemma closes_at_success_threshold_witness :
  state (executeAll [fulfilling 40001 40002; fulfilling 40003 40004]
           (enter 40000 40000 threeFailures).1) = closed.
Proof.
  set (b := (enter 40000 40000 threeFailures).1).
  assert (Hq : quiet b) by (intros stats; reflexivity).
  assert (Hc : forall c, c ∈ [fulfilling 40001 40002; fulfilling 40003 40004] ->
                 outcome c = Fulfilled).
  { intros c Hin.
    repeat (apply elem_of_cons in Hin; destruct Hin as [-> | Hin]; [reflexivity |]).
    inversion Hin. }
  assert (Hs : state b = half_open) by reflexivity.
  assert (Hh : halfOpenSuccesses b = 0) by reflexivity.
  pose proof (closes_at_success_threshold b
                [fulfilling 40001 40002; fulfilling 40003 40004] Hq Hc Hs Hh) as H.
  cbv zeta in H. destruct H as [_ H]. apply H. reflexivity.
Defined.

(** X13: when the error filter counts no error, in particular when the
    configuration carries [errorFilter: undefined], no failure is ever
    recorded: unless [forceOpen] is called, the breaker stays closed with
    a failure count of 0 and no failure time, whatever the calls and the
    subscribers do. *)
Theorem uncounted_failures_never_open (cfg : CircuitBreakerConfig) (ops : list Op) :
  (forall e, counted cfg e = false) ->
  (forall now, ForceOpen now ∉ ops) ->
  let b := run cfg ops in
  state b = closed /\ failures b = 0 /\ lastFailure b = None.
Proof.
  intros Hc Hops b.
  assert (H : state b = closed /\ failures b = 0 /\ lastFailure b = None /\
              config b = cfg).
  { unfold b, run. clear b.
    induction ops as [| op ops IH] using rev_ind; [repeat split |].
    rewrite fold_left_app; simpl.
    destruct IH as (Hs & Hf & Hl & Hcfg).
    { intros now Hin. apply (Hops now). apply elem_of_app. left. exact Hin. }
    set (b := fold_left apply ops (new cfg)) in *.
    assert (Hfail : forall now e b0, config b0 = cfg ->
                      fields (onFailure now e b0).1 = fields b0).
    { intros now e b0 H0.
      pose proof (BreakerTheory.fields_onFailure now e b0) as H.
      rewrite H0, Hc in H. exact H. }
    assert (Hok : forall now,
              state (onSuccess now b).1 = closed /\ failures (onSuccess now b).1 = 0 /\
              lastFailure (onSuccess now b).1 = None /\ config (onSuccess now b).1 = cfg).
    { intros now.
      destruct (BreakerTheory.fields_eq _ _ (BreakerTheory.fields_onSuccess now b))
        as (F1 & F2 & _ & _ & F5 & _ & _ & F8 & _).
      simpl in F1, F2, F5, F8. rewrite Hs in F1, F2.
      repeat split; congruence. }
    destruct op as [now later | out now later | | now | | l | i]; simpl.
    - rewrite BreakerTheory.enter_not_open by (rewrite Hs; discriminate).
      simpl. repeat split; assumption.
    - destruct out as [| e].
      + rewrite BreakerTheory.settle_fulfilled.
        destruct (Hok now) as (K1 & K2 & K3 & K4).
        destruct (onSuccess now b) as [b1 [thrown |]]; simpl in *;
          [| repeat split; assumption].
        rewrite rethrow_after.
        destruct (BreakerTheory.fields_eq _ _ (Hfail later thrown b1 K4))
          as (F1 & F2 & _ & _ & F5 & _ & _ & F8 & _).
        simpl in F1, F2, F5, F8. repeat split; congruence.
      + destruct (BreakerTheory.settle_failed e now later b) as [-> _].
        destruct (BreakerTheory.fields_eq _ _ (Hfail now e b Hcfg))
          as (F1 & F2 & _ & _ & F5 & _ & _ & F8 & _).
        simpl in F1, F2, F5, F8. repeat split; congruence.
    - repeat split. exact Hcfg.
    - exfalso. apply (Hops now). apply elem_of_app. right.
      apply list_elem_of_singleton. reflexivity.
    - repeat split; assumption.
    - repeat split; assumption.
    - repeat split; assumption. }
  destruct H as (Hs & Hf & Hl & _). repeat split; assumption.
Qed.

Lemma uncounted_failures_never_open_witness :
  state (run {| failureThreshold := 1; successThreshold := 2; timeout := 30000;
                volumeThreshold := 1; errorFilter := None |}
             [Subscribe (fun _ => Some (PlainError "subscriber"));
              Enter 1 1; Settle (Failed (PlainError "down")) 2 2;
              Enter 3 3; Settle Fulfilled 4 5]) = closed.
Proof.
  set (cfg := {| failureThreshold := 1; successThreshold := 2; timeout := 30000;
                 volumeThreshold := 1; errorFilter := None |}).
  set (ops := [Subscribe (fun _ => Some (PlainError "subscriber"));
               Enter 1 1; Settle (Failed (PlainError "down")) 2 2;
               Enter 3 3; Settle Fulfilled 4 5]).
  assert (Hc : forall e, counted cfg e = false) by reflexivity.
  assert (Hops : forall now, ForceOpen now ∉ ops).
  { intros now Hin. unfold ops in Hin.
    repeat (apply elem_of_cons in Hin; destruct Hin as [Hin | Hin]; [discriminate |]).
    inversion Hin. }
  pose proof (uncounted_failures_never_open cfg ops Hc Hops) as H.
  cbv zeta in H. apply H.
Defined.

(** X14: the [retryAfter] of a [CircuitOpenError] is the time that is
    left of the cooldown when [getTimeUntilNextAttempt] reads the clock,
    which is after [shouldAttemptReset] has read it: it is 0 if the
    cooldown has ended between the two readings.  A call made that much
    after the second reading, or later, is not failed fast: it moves the
    breaker to half-open, and calls the operation if no subscriber throws
    at that.  If the time left is not 0, any call made sooner fails fast
    again. *)
Theorem retryAfter_is_time_left (b : CircuitBreaker) (c : Call) (t : Z) :
  state b = open -> lastFailure b = Some t ->
  shouldAttemptReset (calledAt c) b = false ->
  let ra := Z.max 0 (t + timeout (config b) - rejectedAt c) in
  thrown (execute c b) = Some (CircuitOpenError "Circuit breaker is open" ra) /\
  (ra = 0 <-> t + timeout (config b) <= rejectedAt c) /\
  (forall c', rejectedAt c + ra <= calledAt c' ->
     state (enter (calledAt c') (rejectedAt c') b).1 = half_open /\
     (quiet b -> invoked (execute c' b) = true)) /\
  (0 < ra -> forall c', calledAt c' < rejectedAt c + ra ->
     invoked (execute c' b) = false /\ after (execute c' b) = b).
Proof.
  intros Hs Hl Hr ra.
  assert (Ht : t <> 0).
  { intros ->. unfold shouldAttemptReset in Hr. rewrite Hl in Hr. discriminate. }
  assert (Helapsed : forall c', rejectedAt c + ra <= calledAt c' ->
            shouldAttemptReset (calledAt c') b = true).
  { intros c' Hc'.
    rewrite (BreakerTheory.shouldAttemptReset_after_failure _ t b Hl Ht).
    apply Z.leb_le. unfold ra in Hc'. lia. }
  assert (Hhalf : forall c', rejectedAt c + ra <= calledAt c' ->
            state (enter (calledAt c') (rejectedAt c') b).1 = half_open /\
            (quiet b -> invoked (execute c' b) = true)).
  { intros c' Hc'. unfold execute.
    rewrite (BreakerTheory.enter_open_elapsed _ _ b Hs (Helapsed c' Hc')).
    unfold andThen, transitionTo, notifyListeners, returns. simpl.
    split.
    - destruct (forEach _ _); reflexivity.
    - intros Hq. rewrite Hq. reflexivity. }
  split; [| split; [unfold ra; lia | split]].
  - rewrite (BreakerTheory.execute_open_cooling b c Hs Hr). simpl.
    rewrite (BreakerTheory.getTimeUntilNextAttempt_after_failure _ t b Hl Ht).
    do 2 f_equal. unfold ra. lia.
  - exact Hhalf.
  - intros Hpos c' Hc'.
    rewrite (BreakerTheory.execute_open_cooling b c' Hs); [split; reflexivity |].
    rewrite (BreakerTheory.shouldAttemptReset_after_failure _ t b Hl Ht).
    apply Z.leb_gt. unfold ra in Hc', Hpos. lia.
Qed.

Lemma retryAfter_is_time_left_witness :
  thrown (execute (fulfilling 1000 1001) threeFailures) =
  Some (CircuitOpenError "Circuit breaker is open" 29150).
Proof.
  assert (Hs : state threeFailures = open) by reflexivity.
  assert (Hl : lastFailure threeFailures = Some 150) by reflexivity.
  assert (Hr : shouldAttemptReset (calledAt (fulfilling 1000 1001)) threeFailures = false)
    by reflexivity.
  pose proof (retryAfter_is_time_left threeFailures (fulfilling 1000 1001) 150
                Hs Hl Hr) as H.
  cbv zeta in H. apply H.
Defined.

(** ** Notifications *)

Lemma keptUpToDate_refl (b : CircuitBreaker) : keptUpToDate b b.
Proof. split; [reflexivity | left; split; reflexivity]. Qed.

Lemma keptUpToDate_trans (b1 b2 b3 : CircuitBreaker) :
  keptUpToDate b1 b2 -> keptUpToDate b2 b3 -> keptUpToDate b1 b3.
Proof.
  intros [P12 H12] [P23 H23]. split; [etransitivity; eassumption |].
  destruct H23 as [[Hd Hs] | Hlast]; [| right; exact Hlast].
  destruct H12 as [[Hd' Hs'] | (stats & Hl & Hst)].
  - left. split; congruence.
  - right. exists stats. rewrite Hd, Hs. split; assumption.
Qed.

(** A step that writes fields other than the state and notifies nobody. *)
Lemma keptUpToDate_silent (b b' : CircuitBreaker) :
  delivered b' = delivered b -> state b' = state b -> keptUpToDate b b'.
Proof. intros Hd Hs. split; [rewrite Hd; reflexivity | left; split; assumption]. Qed.

(** A notification, whatever was written before it. *)
Lemma keptUpToDate_notify (b b' : CircuitBreaker) :
  delivered b' = delivered b -> keptUpToDate b (notifyListeners b').1.
Proof.
  intros Hd. split; simpl.
  - rewrite Hd. apply prefix_app_r. reflexivity.
  - right. exists (getStats b'). split; [apply last_snoc | reflexivity].
Qed.

Lemma keptUpToDate_logged (b b' : CircuitBreaker) (stats : CircuitBreakerStats) :
  delivered b' = delivered b ++ [stats] -> Stats.state stats = state b' ->
  keptUpToDate b b'.
Proof.
  intros Hd Hs. split.
  - rewrite Hd. apply prefix_app_r. reflexivity.
  - right. exists stats. split; [rewrite Hd; apply last_snoc | exact Hs].
Qed.

Lemma keptUpToDate_andThen (b : CircuitBreaker) (first : Completion)
    (next : CircuitBreaker -> Completion) :
  keptUpToDate b first.1 -> (forall b', keptUpToDate b' (next b').1) ->
  keptUpToDate b (andThen first next).1.
Proof.
  intros H1 H2. destruct first as [b1 [thrown |]]; simpl in *; [exact H1 |].
  apply (keptUpToDate_trans b b1); [exact H1 | apply H2].
Qed.

Lemma keptUpToDate_notifyListeners (b : CircuitBreaker) :
  keptUpToDate b (notifyListeners b).1.
Proof. apply keptUpToDate_notify. reflexivity. Qed.

Lemma keptUpToDate_transitionTo (newState : CircuitState) (b : CircuitBreaker) :
  keptUpToDate b (transitionTo newState b).1.
Proof. apply keptUpToDate_notify. reflexivity. Qed.

Lemma keptUpToDate_onSuccess (now : Z) (b : CircuitBreaker) :
  keptUpToDate b (onSuccess now b).1.
Proof.
  unfold onSuccess.
  apply keptUpToDate_andThen; [| apply keptUpToDate_notifyListeners].
  simpl. destruct (state b) eqn:Hs; simpl.
  - apply keptUpToDate_silent; [reflexivity | simpl; congruence].
  - apply keptUpToDate_silent; [reflexivity | simpl; congruence].
  - destruct (_ <=? _); simpl.
    + eapply keptUpToDate_logged; simpl; reflexivity.
    + apply keptUpToDate_silent; [reflexivity | simpl; congruence].
Qed.

Lemma keptUpToDate_onFailure (now : Z) (error : JsError) (b : CircuitBreaker) :
  keptUpToDate b (onFailure now error b).1.
Proof.
  unfold onFailure. destruct (counted (config b) error); simpl;
    [| apply keptUpToDate_refl].
  apply keptUpToDate_andThen; [| apply keptUpToDate_notifyListeners].
  simpl. destruct (state b) eqn:Hs; simpl.
  - destruct (_ && _); simpl.
    + eapply keptUpToDate_logged; simpl; reflexivity.
    + apply keptUpToDate_silent; [reflexivity | simpl; congruence].
  - apply keptUpToDate_silent; [reflexivity | simpl; congruence].
  - eapply keptUpToDate_logged; simpl; reflexivity.
Qed.

Lemma keptUpToDate_apply (b : CircuitBreaker) (op : Op) : keptUpToDate b (apply b op).
Proof.
  destruct op as [now later | out now later | | now | | l | i]; cbn [apply].
  - unfold enter. apply keptUpToDate_andThen.
    + destruct (decide (state b = open)); [| apply keptUpToDate_refl].
      destruct (shouldAttemptReset now b);
        [apply keptUpToDate_transitionTo | apply keptUpToDate_refl].
    + intros b'. apply keptUpToDate_silent; reflexivity.
  - destruct out as [| error].
    + rewrite BreakerTheory.settle_fulfilled.
      pose proof (keptUpToDate_onSuccess now b) as H.
      destruct (onSuccess now b) as [b1 [thrown |]]; simpl in *; [| exact H].
      rewrite rethrow_after.
      apply (keptUpToDate_trans b b1); [exact H | apply keptUpToDate_onFailure].
    + destruct (BreakerTheory.settle_failed error now later b) as [-> _].
      apply keptUpToDate_onFailure.
  - unfold reset. apply keptUpToDate_notify. reflexivity.
  - unfold forceOpen. apply keptUpToDate_andThen.
    + apply keptUpToDate_transitionTo.
    + intros b'. apply keptUpToDate_silent; reflexivity.
  - apply keptUpToDate_transitionTo.
  - apply keptUpToDate_silent; reflexivity.
  - apply keptUpToDate_silent; reflexivity.
Qed.

(** X15: the snapshots handed to the subscribers are only ever added
    to, and whenever an operation changes the state of the breaker the
    last snapshot it hands out carries the new state, also when a
    subscriber throws. *)
Theorem state_changes_are_notified (b : CircuitBreaker) (op : Op) :
  delivered b `prefix_of` delivered (apply b op) /\
  (state (apply b op) <> state b ->
   exists st, last (delivered (apply b op)) = Some st /\
              Stats.state st = state (apply b op)).
Proof.
  destruct (keptUpToDate_apply b op) as [Hp H]. split; [exact Hp |].
  intros Hne. destruct H as [[_ Hs] | Hlast]; [contradiction | exact Hlast].
Qed.

(** X16: a [CircuitOpenError] is not an error that [isRetryableError]
    retries.  So when the operation given to [withRetry] goes through a
    breaker that is open and cooling down, the rejection of the breaker
    ends the call at once, with the default [shouldRetry]: no sleep, no
    further attempt. *)
Theorem open_circuit_is_not_retried {T : Type} (o : Retry.RetryOptions)
    (s : Retry.RetryState T) (b : CircuitBreaker) (c : Call) (random : Q) :
  (forall e attempt, Retry.shouldRetry o e attempt = isRetryableError e) ->
  state b = open -> shouldAttemptReset (calledAt c) b = false ->
  Retry.phase s = Retry.Running ->
  exists e,
    thrown (execute c b) = Some e /\
    Retry.phase (Retry.retryStep o s (Retry.OpRejected e random)) =
      Retry.Rejected (Some e) /\
    Retry.calls (Retry.retryStep o s (Retry.OpRejected e random)) = Retry.calls s.
Proof.
  intros Hsr Hs Hr Hp.
  rewrite (BreakerTheory.execute_open_cooling b c Hs Hr). simpl.
  eexists. split; [reflexivity |].
  unfold Retry.retryStep. rewrite Hp.
  unfold Retry.onCatch, Retry.setPhase; simpl. rewrite Hsr. simpl.
  rewrite orb_true_r. destruct (Retry.aborted s); simpl; split; reflexivity.
Qed.

Lemma open_circuit_is_not_retried_witness :
  exists e,
    thrown (execute (fulfilling 1000 1001) threeFailures) = Some e /\
    Retry.phase (Retry.retryStep Retry.defaultOptions
                   (Retry.withRetry (T := unit) Retry.defaultOptions false)
                   (Retry.OpRejected e 0)) = Retry.Rejected (Some e).
Proof.
  assert (Hsr : forall e attempt,
             Retry.shouldRetry Retry.defaultOptions e attempt = isRetryableError e)
    by reflexivity.
  assert (Hs : state threeFailures = open) by reflexivity.
  assert (Hr : shouldAttemptReset (calledAt (fulfilling 1000 1001)) threeFailures = false)
    by reflexivity.
  assert (Hp : Retry.phase (Retry.withRetry (T := unit) Retry.defaultOptions false) =
               Retry.Running) by reflexivity.
  destruct (open_circuit_is_not_retried Retry.defaultOptions
              (Retry.withRetry (T := unit) Retry.defaultOptions false)
              threeFailures (fulfilling 1000 1001) 0 Hsr Hs Hr Hp) as (e & H1 & H2 & _).
  exists e. split; assumption.
Defined.

End BreakerMore.

(* ===================================================================== *)
(** * Further properties of hooks/useJobQueue.ts *)
(* ===================================================================== *)

Module QueueMore.
Import Errors Queue.

Section Invariants.

Context {T R : Type}.
Implicit Types (o : QueueOptions T R) (s : Hook T) (j : QueueJob T) (t : Task T)
  (evs : list (Event T R)).

(** ** Retry counts *)

Lemma processNext_inBounds o s :
  Forall (jobInBounds o) (queueRef s) -> Forall (taskInBounds o) (tasks s) ->
  Forall (jobInBounds o) (queueRef (processNext o s)) /\
  Forall (taskInBounds o) (tasks (processNext o s)).
Proof.
  intros Hq Ht. unfold processNext.
  destruct (isPausedRef s); [split; assumption |].
  destruct (_ <=? _); [split; assumption |].
  destruct (sortByPriority (queueRef s)) as [| j rest] eqn:Hsort.
  - destruct (decide _); split; assumption.
  - assert (Hs : Forall (jobInBounds o) (j :: rest)).
    { rewrite <- Hsort.
      eapply Permutation_Forall; [| exact Hq].
      symmetry. apply QueueTheory.sortByPriority_perm. }
    apply Forall_cons in Hs. destruct Hs as [Hj Hrest].
    unfold processJob.
    destruct (onJobStart o j); simpl; destruct (_ && _); simpl;
      (split; [exact Hrest |]); try exact Ht.
    all: apply Forall_app; split; [exact Ht |].
    all: apply Forall_singleton; split; [exact Hj | exact I].
Qed.

Lemma finally_inBounds o i j s :
  Forall (jobInBounds o) (queueRef s) -> Forall (taskInBounds o) (tasks s) ->
  Forall (jobInBounds o) (queueRef (finally o i j s)) /\
  Forall (taskInBounds o) (tasks (finally o i j s)).
Proof.
  intros Hq Ht. unfold finally. apply processNext_inBounds; simpl.
  - exact Hq.
  - apply Forall_delete. exact Ht.
Qed.

Lemma onCatch_inBounds o i t error s :
  taskInBounds o t ->
  Forall (jobInBounds o) (queueRef s) -> Forall (taskInBounds o) (tasks s) ->
  Forall (jobInBounds o) (queueRef (onCatch o i t error s)) /\
  Forall (taskInBounds o) (tasks (onCatch o i t error s)).
Proof.
  intros [Hj _] Hq Ht. unfold onCatch.
  destruct (String.eqb _ _); [apply finally_inBounds; assumption |].
  destruct Hj as (r & Hr & Hr0).
  destruct (Z.leb_spec (default 0 (retries (job t)) + 1) (maxRetries o)) as [Hle | Hgt].
  - destruct (onJobRetry _ _ _ _).
    + apply finally_inBounds; assumption.
    + match goal with |- context [handleError ?x] =>
        destruct (QueueTheory.handleError_rest x) as (Eq & Et & _);
        destruct (handleError x) as [s' penalty]
      end.
      simpl in Eq, Et |- *. rewrite Eq, Et. split; [exact Hq |].
      apply Forall_insert; [exact Ht |].
      split; [exists r; split; assumption |]. simpl.
      rewrite Hr in *. simpl in *. lia.
  - apply finally_inBounds; assumption.
Qed.

Lemma step_inBounds o s ev :
  Forall (jobInBounds o) (queueRef s) -> Forall (taskInBounds o) (tasks s) ->
  Forall (jobInBounds o) (queueRef (step o s ev)) /\
  Forall (taskInBounds o) (tasks (step o s ev)).
Proof.
  intros Hq Ht. destruct ev as [jobs now | | | | | i out | i]; simpl.
  - apply processNext_inBounds; simpl; [| exact Ht].
    apply Forall_app. split; [exact Hq |].
    apply Forall_forall. intros j Hin. apply list_elem_of_In, in_map_iff in Hin.
    destruct Hin as (j0 & <- & _). exists 0. simpl. split; [reflexivity | lia].
  - split; assumption.
  - apply processNext_inBounds; assumption.
  - split; [constructor | exact Ht].
  - destruct (microtasks s); [split; assumption |].
    apply processNext_inBounds; assumption.
  - destruct (tasks s !! i) as [t |] eqn:Hl; [| split; assumption].
    destruct (point t) eqn:Hp; try (split; assumption).
    pose proof (proj1 (Forall_lookup _ _) Ht i t Hl) as Hti.
    destruct out as [result random | error]; simpl.
    + match goal with |- context [handleSuccess o random ?x] =>
        destruct (QueueTheory.handleSuccess_rest o random x) as (Eq & Et & _)
      end.
      simpl in Eq, Et.
      destruct (onJobComplete o (job t) result);
        [apply onCatch_inBounds | apply finally_inBounds];
        rewrite ?Eq, ?Et; assumption.
    + apply onCatch_inBounds; assumption.
  - destruct (tasks s !! i) as [t |] eqn:Hl; [| split; assumption].
    pose proof (proj1 (Forall_lookup _ _) Ht i t Hl) as [Hj Hpt].
    unfold onWake. destruct (point t) as [| n penalty | n delay]; simpl.
    + split; assumption.
    + split; [exact Hq |]. apply Forall_insert; [exact Ht |].
      split; [exact Hj | exact Hpt].
    + apply finally_inBounds; simpl; [| exact Ht].
      constructor; [| exact Hq]. exists n. simpl. split; [reflexivity | lia].
Qed.

(** X17: in every reachable state the retry count of each pending job and
    of each job in flight is between 0 and [maxRetries], and a job that
    waits to be retried has a next retry count between 1 and
    [maxRetries]. *)
Theorem retries_within_bounds o evs :
  Forall (jobInBounds o) (queueRef (run o evs)) /\
  Forall (taskInBounds o) (tasks (run o evs)).
Proof.
  unfold run. induction evs as [| ev evs IH] using rev_ind.
  - split; constructor.
  - rewrite fold_left_app; simpl. destruct IH as [Hq Ht].
    apply step_inBounds; assumption.
Qed.

(** ** Accounting *)

Lemma processNext_accounted o s :
  metricsRef (processNext o s) = metricsRef s /\
  (length (queueRef (processNext o s)) + length (tasks (processNext o s)) <=
   length (queueRef s) + length (tasks s))%nat.
Proof.
  split; [apply QueueTheory.processNext_metrics |].
  unfold processNext.
  destruct (isPausedRef s); [lia |].
  destruct (_ <=? _); [lia |].
  destruct (sortByPriority (queueRef s)) as [| j rest] eqn:Hsort.
  - destruct (decide _); simpl; lia.
  - pose proof (Permutation_length (QueueTheory.sortByPriority_perm (queueRef s))) as Hlen.
    rewrite Hsort in Hlen. simpl in Hlen.
    unfold processJob.
    destruct (onJobStart o j); simpl; destruct (_ && _); simpl;
      rewrite ?length_app; simpl; lia.
Qed.

Lemma finally_accounted o i j s :
  is_Some (tasks s !! i) ->
  metricsRef (finally o i j s) = metricsRef s /\
  (length (queueRef (finally o i j s)) + S (length (tasks (finally o i j s))) <=
   length (queueRef s) + length (tasks s))%nat.
Proof.
  intros Hi. unfold finally.
  match goal with |- context [processNext o ?x] =>
    destruct (processNext_accounted o x) as [Hm Hl]
  end.
  simpl in Hm, Hl |- *. rewrite length_delete in Hl by exact Hi.
  split; [exact Hm |].
  destruct Hi as [t Ht]. apply lookup_lt_Some in Ht. lia.
Qed.

Lemma onCatch_accounted o i t error s :
  tasks s !! i = Some t ->
  accounted (onCatch o i t error s) <= accounted s /\
  total (metricsRef (onCatch o i t error s)) = total (metricsRef s).
Proof.
  intros Hi. unfold onCatch, accounted.
  assert (His : forall m, is_Some (tasks (setMetrics m s) !! i)) by (intros; simpl; eauto).
  destruct (String.eqb _ _).
  { destruct (finally_accounted o i (job t) s ltac:(eauto)) as [Hm Hl].
    rewrite Hm. split; [lia | reflexivity]. }
  destruct (_ <=? _).
  - destruct (onJobRetry _ _ _ _).
    + match goal with |- context [finally o i (job t) ?x] =>
        destruct (finally_accounted o i (job t) x (His _)) as [Hm Hl]
      end.
      rewrite Hm. simpl in *. split; [lia | reflexivity].
    + match goal with |- context [handleError ?x] =>
        destruct (QueueTheory.handleError_rest x) as (Eq & Et & Em & _);
        destruct (handleError x) as [s' penalty]
      end.
      simpl in Eq, Et, Em |- *. rewrite Eq, Em, length_insert, Et. simpl.
      split; [lia | reflexivity].
  - match goal with |- context [finally o i (job t) ?x] =>
      destruct (finally_accounted o i (job t) x (His _)) as [Hm Hl]
    end.
    rewrite Hm. simpl in *. split; [lia | reflexivity].
Qed.

Lemma step_accounted o s ev :
  (forall j result, onJobComplete o j result = None) ->
  accounted s <= total (metricsRef s) ->
  accounted (step o s ev) <= total (metricsRef (step o s ev)).
Proof.
  intros Hoc Hinv. unfold accounted in *.
  destruct ev as [jobs now | | | | | i out | i];
    unfold step, addJobs, resume, pause, cancelAll.
  - match goal with |- context [processNext o ?x] =>
      destruct (processNext_accounted o x) as [Hm Hl]
    end.
    rewrite Hm. simpl in *. rewrite length_app, length_map in Hl. lia.
  - exact Hinv.
  - match goal with |- context [processNext o ?x] =>
      destruct (processNext_accounted o x) as [Hm Hl]
    end.
    rewrite Hm. simpl in *. lia.
  - simpl. lia.
  - destruct (microtasks s); [exact Hinv |].
    match goal with |- context [processNext o ?x] =>
      destruct (processNext_accounted o x) as [Hm Hl]
    end.
    rewrite Hm. simpl in *. lia.
  - destruct (tasks s !! i) as [t |] eqn:Hi; [| exact Hinv].
    destruct (point t); try exact Hinv.
    destruct out as [result random | error]; simpl.
    + rewrite Hoc.
      match goal with |- context [handleSuccess o random ?x] =>
        destruct (QueueTheory.handleSuccess_rest o random x) as (Eq & Et & Em & _);
        set (s0 := handleSuccess o random x) in *
      end.
      simpl in Eq, Et, Em.
      destruct (finally_accounted o i (job t) s0) as [Hm Hl].
      { rewrite Et. eauto. }
      rewrite Hm, Em, Eq, Et in *. simpl. lia.
    + destruct (onCatch_accounted o i t error s Hi) as [Ha Ht].
      unfold accounted in Ha. lia.
  - destruct (tasks s !! i) as [t |] eqn:Hi; [| exact Hinv].
    unfold onWake. destruct (point t) as [| n penalty | n delay]; simpl.
    + exact Hinv.
    + rewrite length_insert. exact Hinv.
    + destruct (finally_accounted o i (job t) (requeue (job t) n s)) as [Hm Hl].
      { simpl. eauto. }
      rewrite Hm. simpl in *. lia.
Qed.

(** X18: when [onJobComplete] does not throw, no job is counted twice:
    in every reachable state the jobs counted as completed or failed, the
    pending jobs and the jobs in flight are together at most the jobs
    that were ever added. *)
Theorem no_job_counted_twice o evs :
  (forall j result, onJobComplete o j result = None) ->
  accounted (run o evs) <= total (metricsRef (run o evs)).
Proof.
  intros Hoc. unfold run. induction evs as [| ev evs IH] using rev_ind.
  - unfold accounted; simpl. lia.
  - rewrite fold_left_app; simpl. apply step_accounted; assumption.
Qed.

(** ** Terminal outcomes *)

Lemma processNext_adaptive o s :
  currentConcurrencyRef (processNext o s) = currentConcurrencyRef s /\
  consecutiveErrorsRef (processNext o s) = consecutiveErrorsRef s.
Proof.
  unfold processNext, processJob.
  repeat (case_match; simpl; try (split; reflexivity)).
Qed.

Lemma finally_summary o i j s :
  metricsRef (finally o i j s) = metricsRef s /\
  currentConcurrencyRef (finally o i j s) = currentConcurrencyRef s /\
  consecutiveErrorsRef (finally o i j s) = consecutiveErrorsRef s /\
  (forall j', j' ∈ queueRef (finally o i j s) -> j' ∈ queueRef s) /\
  (exists started,
      tasks (finally o i j s) = delete i (tasks s) ++ started /\
      forall t', t' ∈ started -> point t' = AwaitProcessor /\ job t' ∈ queueRef s).
Proof.
  unfold finally.
  match goal with |- context [processNext o ?x] => set (s0 := x) end.
  destruct (processNext_adaptive o s0) as [Hc He].
  split; [rewrite QueueTheory.processNext_metrics; reflexivity |].
  split; [rewrite Hc; reflexivity |]. split; [rewrite He; reflexivity |]. split.
  - intros j' Hj. apply (QueueTheory.processNext_queue o s0 j' Hj).
  - apply (QueueTheory.processNext_tasks o s0).
Qed.

(** X19: a job whose processor rejects with an [AbortError] is dropped
    without a trace in the counters: it is not counted as completed,
    failed or retried, the adaptive controller sees neither a success nor
    an error, and the job does not go back to the backlog. *)
Theorem aborted_job_leaves_no_trace o s (i : nat) t (error : JsError) :
  tasks s !! i = Some t -> point t = AwaitProcessor ->
  String.eqb (name error) "AbortError" = true ->
  let s' := step o s (Settle i (Failed error)) in
  metricsRef s' = metricsRef s /\
  currentConcurrencyRef s' = currentConcurrencyRef s /\
  consecutiveErrorsRef s' = consecutiveErrorsRef s /\
  (forall j, j ∈ queueRef s' -> j ∈ queueRef s) /\
  (exists started,
      tasks s' = delete i (tasks s) ++ started /\
      forall t', t' ∈ started -> point t' = AwaitProcessor /\ job t' ∈ queueRef s).
Proof.
  intros Ht Hp Hab s'. unfold s'; simpl. rewrite Ht, Hp; simpl.
  unfold onCatch. rewrite Hab. apply finally_summary.
Qed.


(** ** Pause *)

Lemma processNext_paused o s : isPausedRef s = true -> processNext o s = s.
Proof. intros Hp. unfold processNext. rewrite Hp. reflexivity. Qed.

Lemma handleError_host s :
  controllers (handleError s).1 = controllers s.
Proof. unfold handleError; simpl. destruct (_ && _); reflexivity. Qed.

Lemma handleSuccess_host o random s :
  controllers (handleSuccess o random s) = controllers s /\
  isPausedRef (handleSuccess o random s) = isPausedRef s.
Proof. unfold handleSuccess; simpl. destruct (_ && _); split; reflexivity. Qed.

Lemma onCatch_paused o i t error s :
  isPausedRef s = true ->
  controllers (onCatch o i t error s) = controllers s /\
  isPausedRef (onCatch o i t error s) = true /\
  queueRef (onCatch o i t error s) = queueRef s.
Proof.
  intros Hp. unfold onCatch, finally.
  destruct (String.eqb _ _); [rewrite processNext_paused by exact Hp; repeat split; assumption |].
  destruct (_ <=? _).
  - destruct (onJobRetry _ _ _ _).
    + rewrite processNext_paused by exact Hp. repeat split; assumption.
    + match goal with |- context [handleError ?x] =>
        pose proof (handleError_host x) as Hh;
        destruct (QueueTheory.handleError_rest x) as (Eq & _ & _ & _ & Ep);
        destruct (handleError x) as [s' penalty]
      end.
      simpl in *. rewrite Hh, Ep, Eq. repeat split; assumption.
  - rewrite processNext_paused by exact Hp. repeat split; assumption.
Qed.

(** X21: while the queue is paused nothing but [resume()] starts a job:
    every other event leaves the number of jobs started so far as it is,
    and unless the event is [cancelAll()] the queue stays paused with its
    backlog unchanged. *)
Theorem paused_starts_nothing o s (ev : Event T R) :
  isPausedRef s = true -> ev <> Resume ->
  controllers (step o s ev) = controllers s /\
  (ev <> CancelAll ->
   isPausedRef (step o s ev) = true /\
   forall j, j ∈ queueRef s -> j ∈ queueRef (step o s ev)).
Proof.
  intros Hp Hne.
  destruct ev as [jobs now | | | | | i out | i];
    unfold step, addJobs, resume, pause, cancelAll.
  - rewrite processNext_paused by exact Hp. simpl.
    split; [reflexivity |]. intros _. split; [exact Hp |].
    intros j Hj. apply elem_of_app. left. exact Hj.
  - simpl. split; [reflexivity |]. intros _. split; [reflexivity | auto].
  - contradiction.
  - simpl. split; [reflexivity |]. intros H; contradiction.
  - destruct (microtasks s).
    + split; [reflexivity |]. intros _. split; [exact Hp | auto].
    + rewrite processNext_paused by exact Hp. simpl.
      split; [reflexivity |]. intros _. split; [exact Hp | auto].
  - destruct (tasks s !! i) as [t |];
      [| split; [reflexivity |]; intros _; split; [exact Hp | auto]].
    destruct (point t);
      try (split; [reflexivity |]; intros _; split; [exact Hp | auto]).
    destruct out as [result random | error]; simpl.
    + match goal with |- context [handleSuccess o random ?x] =>
        destruct (handleSuccess_host o random x) as [Hc Hpp];
        destruct (QueueTheory.handleSuccess_rest o random x) as (Eq & _);
        set (s0 := handleSuccess o random x) in *
      end.
      simpl in Hc, Hpp, Eq. rewrite Hp in Hpp.
      destruct (onJobComplete o (job t) result).
      * destruct (onCatch_paused o i t j s0 Hpp) as (Q1 & Q2 & Q3).
        rewrite Q1, Q2, Q3, Hc, Eq. split; [reflexivity |]. intros _. split; auto.
      * unfold finally. rewrite processNext_paused by exact Hpp. simpl.
        rewrite Hc, Hpp, Eq. split; [reflexivity |]. intros _. split; auto.
    + destruct (onCatch_paused o i t error s Hp) as (Q1 & Q2 & Q3).
      rewrite Q1, Q2, Q3. split; [reflexivity |]. intros _. split; auto.
  - destruct (tasks s !! i) as [t |];
      [| split; [reflexivity |]; intros _; split; [exact Hp | auto]].
    unfold onWake. destruct (point t) as [| n penalty | n delay]; simpl.
    + split; [reflexivity |]. intros _. split; [exact Hp | auto].
    + split; [reflexivity |]. intros _. split; [exact Hp | auto].
    + unfold finally. rewrite processNext_paused by exact Hp. simpl.
      split; [reflexivity |]. intros _. split; [exact Hp |].
      intros j Hj. apply elem_of_cons. right. exact Hj.
Qed.

(** ** Priority *)

Lemma sortByPriority_head (l : list (QueueJob T)) j rest :
  sortByPriority l = j :: rest ->
  exists l1 l2, l = l1 ++ j :: l2 /\
    (forall x, x ∈ l1 -> priorityOf x < priorityOf j) /\
    (forall x, x ∈ l2 -> priorityOf x <= priorityOf j).
Proof.
  revert j rest. induction l as [| x l IH]; intros j rest Hs; [discriminate |].
  simpl in Hs. destruct (sortByPriority l) as [| y r] eqn:Hl.
  - apply (proj1 (QueueTheory.sortByPriority_nil l)) in Hl. subst l.
    simpl in Hs. injection Hs as <- <-.
    exists [], []. split; [reflexivity |]. split; intros z Hz; inversion Hz.
  - destruct (IH y r eq_refl) as (l1 & l2 & -> & H1 & H2).
    simpl in Hs. destruct (Z.leb_spec (priorityOf y) (priorityOf x)) as [Hle | Hlt].
    + injection Hs as <- <-. exists [], (l1 ++ y :: l2).
      split; [reflexivity |]. split; [intros z Hz; inversion Hz |].
      intros z Hz. apply elem_of_app in Hz. destruct Hz as [Hz | Hz].
      * specialize (H1 z Hz). lia.
      * apply elem_of_cons in Hz. destruct Hz as [-> | Hz]; [exact Hle |].
        specialize (H2 z Hz). lia.
    + injection Hs as <- <-. exists (x :: l1), l2.
      split; [reflexivity |]. split; [| exact H2].
      intros z Hz. apply elem_of_cons in Hz. destruct Hz as [-> | Hz]; [exact Hlt |].
      apply H1. exact Hz.
Qed.

(** X22: when the queue is not paused, has a free slot and a non-empty
    backlog, [processNext] starts the first of the pending jobs that have
    the highest priority: no job before it in the backlog has a priority
    as high, none after it has a higher one.  The job gets a new
    controller in the map of active jobs and leaves the backlog, which
    keeps all the other jobs. *)
Theorem dispatch_takes_first_of_highest_priority o s :
  isPausedRef s = false -> active s < currentConcurrencyRef s -> queueRef s <> [] ->
  exists j l1 l2,
    queueRef s = l1 ++ j :: l2 /\
    (forall x, x ∈ l1 -> priorityOf x < priorityOf j) /\
    (forall x, x ∈ l2 -> priorityOf x <= priorityOf j) /\
    activeJobsRef (processNext o s) = <[id j := controllers s]> (activeJobsRef s) /\
    controllers (processNext o s) = S (controllers s) /\
    queueRef (processNext o s) ≡ₚ l1 ++ l2 /\
    (onJobStart o j = None ->
     tasks (processNext o s) =
       tasks s ++ [{| job := j; controller := controllers s; point := AwaitProcessor |}]).
Proof.
  intros Hp Hlt Hne. unfold processNext, active in *. rewrite Hp.
  destruct (Z.leb_spec (currentConcurrencyRef s) (Z.of_nat (size (activeJobsRef s))));
    [lia |].
  destruct (sortByPriority (queueRef s)) as [| j rest] eqn:Hsort.
  { apply (proj1 (QueueTheory.sortByPriority_nil _)) in Hsort. contradiction. }
  destruct (sortByPriority_head _ _ _ Hsort) as (l1 & l2 & Hq & H1 & H2).
  exists j, l1, l2.
  assert (Hperm : rest ≡ₚ l1 ++ l2).
  { apply (Permutation_cons_inv (a := j)).
    rewrite <- Hsort, QueueTheory.sortByPriority_perm, Hq.
    symmetry. apply Permutation_middle. }
  split; [exact Hq |]. split; [exact H1 |]. split; [exact H2 |].
  unfold processJob.
  destruct (onJobStart o j); simpl; destruct (_ && _); simpl;
    repeat split; try exact Hperm; try discriminate; reflexivity.
Qed.

(** ** cancelAll and jobs that wait for a retry *)

(** X23: [cancelAll()] does not cancel a job that is waiting out its
    back-off.  When the timer of that wait fires after [cancelAll()], the
    job is put into the emptied backlog and, the queue being idle and not
    paused, started at once with its updated retry count. *)
Theorem cancelAll_does_not_stop_backoff o s (i : nat) t (n : Z) (delay : Q) :
  tasks s !! i = Some t -> point t = AwaitBackoff n delay ->
  1 <= currentConcurrencyRef s ->
  onJobStart o (withRetries (job t) n) = None ->
  let s' := step o (cancelAll s) (Wake i) in
  tasks s' =
    delete i (tasks s) ++
    [{| job := withRetries (job t) n; controller := controllers s;
        point := AwaitProcessor |}] /\
  activeJobsRef s' = {[ id (job t) := controllers s ]} /\
  queueRef s' = [] /\
  isPausedRef s' = false.
Proof.
  intros Ht Hp Hc Hst s'. unfold s', step, cancelAll; simpl. rewrite Ht.
  unfold onWake. rewrite Hp. unfold finally, requeue, processNext; simpl.
  rewrite delete_empty, map_size_empty.
  destruct (Z.leb_spec (currentConcurrencyRef s) (Z.of_nat 0)); [simpl in *; lia |].
  simpl. unfold processJob; simpl. rewrite Hst. simpl.
  rewrite andb_false_r. simpl. rewrite insert_empty. repeat split.
Qed.

End Invariants.

Lemma no_job_counted_twice_witness :
  accounted (run defaults [AddJobs [jobNo 1; jobNo 2] 0; Settle 0 (Fulfilled tt 0)]) <= 2.
Proof.
  assert (Hoc : forall (j : QueueJob unit) (result : unit),
             onJobComplete defaults j result = None) by reflexivity.
  apply (no_job_counted_twice defaults
           [AddJobs [jobNo 1; jobNo 2] 0; Settle 0 (Fulfilled tt 0)] Hoc).
Defined.

Lemma aborted_job_leaves_no_trace_witness :
  metricsRef (run defaults [AddJobs [jobNo 1] 0;
                            Settle 0 (Failed (DOMException "Aborted" "AbortError"))]) =
  metricsRef (run defaults [AddJobs [jobNo 1] 0]).
Proof.
  set (t := {| job := {| id := IdNum 1; data := tt; priority := None;
                         retries := Some 0; jobMaxRetries := None;
                         createdAt := Some 0 |};
               controller := 0%nat; point := AwaitProcessor |}).
  assert (Ht : tasks (run defaults [AddJobs [jobNo 1] 0]) !! 0%nat = Some t)
    by reflexivity.
  assert (Hp : point t = AwaitProcessor) by reflexivity.
  assert (Hab : String.eqb (name (DOMException "Aborted" "AbortError")) "AbortError" = true)
    by reflexivity.
  pose proof (aborted_job_leaves_no_trace (R := unit) defaults
                (run defaults [AddJobs [jobNo 1] 0]) 0 t
                (DOMException "Aborted" "AbortError") Ht Hp Hab) as H.
  cbv zeta in H. apply H.
Defined.


Lemma paused_starts_nothing_witness :
  controllers (run defaults [Pause; AddJobs [jobNo 1; jobNo 2] 0]) = 0%nat.
Proof.
  assert (Hp : isPausedRef (run defaults [Pause]) = true) by reflexivity.
  assert (Hne : AddJobs (R := unit) [jobNo 1; jobNo 2] 0 <> Resume) by discriminate.
  pose proof (paused_starts_nothing defaults (run defaults [Pause])
                (AddJobs [jobNo 1; jobNo 2] 0) Hp Hne) as H.
  apply H.
Defined.

Lemma dispatch_takes_first_of_highest_priority_witness :
  let s := setQueue [jobNo 1;
                     {| id := IdNum 2; data := tt; priority := Some 10;
                        retries := None; jobMaxRetries := None; createdAt := None |}]
                    (useJobQueue defaults) in
  exists (j : QueueJob unit) l1 l2,
    queueRef s = l1 ++ j :: l2 /\
    (forall x, x ∈ l1 -> priorityOf x < priorityOf j) /\
    controllers (processNext defaults s) = 1%nat.
Proof.
  intros s.
  assert (Hp : isPausedRef s = false) by reflexivity.
  assert (Hlt : active s < currentConcurrencyRef s) by (vm_compute; reflexivity).
  assert (Hne : queueRef s <> []) by discriminate.
  destruct (dispatch_takes_first_of_highest_priority defaults s Hp Hlt Hne)
    as (j & l1 & l2 & Hq & H1 & _ & _ & Hc & _).
  exists j, l1, l2. repeat split; assumption.
Defined.

Lemma cancelAll_does_not_stop_backoff_witness :
  queueRef (step defaults
              (cancelAll (run defaults [AddJobs [jobNo 1] 0; Settle 0 down; Wake 0]))
              (Wake 0)) = [].
Proof.
  set (s := run defaults [AddJobs [jobNo 1] 0; Settle 0 down; Wake 0]).
  set (t := {| job := {| id := IdNum 1; data := tt; priority := None;
                         retries := Some 0; jobMaxRetries := None;
                         createdAt := Some 0 |};
               controller := 0%nat; point := AwaitBackoff 1 4000 |}).
  assert (Ht : tasks s !! 0%nat = Some t) by reflexivity.
  assert (Hp : point t = AwaitBackoff 1 4000) by reflexivity.
  assert (Hc : 1 <= currentConcurrencyRef s) by (vm_compute; discriminate).
  assert (Hst : onJobStart defaults (withRetries (job t) 1) = None) by reflexivity.
  pose proof (cancelAll_does_not_stop_backoff defaults s 0 t 1 4000 Ht Hp Hc Hst) as H.
  cbv zeta in H. apply H.
Defined.

End QueueMore.

(* ===================================================================== *)
(** * Properties of services/cache.ts *)
(* ===================================================================== *)

Module CacheTheory.
Module C := LRUCache.

Section Proofs.

Context {T : Type}.
Implicit Types (c : C.LRUCache T) (m : gmap string (C.CacheEntry T))
  (order : list string) (key k : string).

(** ** The access order *)

Lemma removeFirst_notin key order : key ∉ order -> C.removeFirst key order = order.
Proof.
  induction order as [| x l IH]; intros Hn; simpl; [reflexivity |].
  destruct (decide (x = key)) as [-> | Hne].
  - exfalso. apply Hn. apply elem_of_cons. left. reflexivity.
  - f_equal. apply IH. intros Hin. apply Hn. apply elem_of_cons. right. exact Hin.
Qed.

Lemma removeFirst_elem key order k :
  NoDup order -> k ∈ C.removeFirst key order <-> k ∈ order /\ k <> key.
Proof.
  induction order as [| x l IH]; intros Hnd; simpl.
  - split; [intros H; inversion H | intros [H _]; inversion H].
  - apply NoDup_cons in Hnd. destruct Hnd as [Hx Hnd].
    destruct (decide (x = key)) as [-> | Hne].
    + split.
      * intros Hin. split; [apply elem_of_cons; right; exact Hin |].
        intros ->. contradiction.
      * intros [Hin Hk]. apply elem_of_cons in Hin. destruct Hin as [-> | Hin];
          [contradiction | exact Hin].
    + rewrite !elem_of_cons, (IH Hnd). split.
      * intros [-> | [Hin Hk]]; split; auto.
      * intros [[-> | Hin] Hk]; auto.
Qed.

Lemma removeFirst_NoDup key order : NoDup order -> NoDup (C.removeFirst key order).
Proof.
  induction order as [| x l IH]; intros Hnd; simpl; [constructor |].
  apply NoDup_cons in Hnd. destruct Hnd as [Hx Hnd].
  destruct (decide (x = key)); [exact Hnd |].
  apply NoDup_cons. split; [| apply IH; exact Hnd].
  intros Hin. apply (removeFirst_elem key l x Hnd) in Hin. destruct Hin. contradiction.
Qed.

(** ** Each operation keeps the access order in step with the map *)

Lemma delete_cache key c : C.cache (C.delete key c).1 = base.delete key (C.cache c).
Proof.
  unfold C.delete. destruct (C.cache c !! key) eqn:Hl; simpl; [reflexivity |].
  symmetry. apply delete_id. exact Hl.
Qed.

Lemma delete_config key c : C.config (C.delete key c).1 = C.config c.
Proof. unfold C.delete. destruct (C.cache c !! key); reflexivity. Qed.

Lemma delete_wf key c : C.wf c -> C.wf (C.delete key c).1.
Proof.
  intros [Hnd Hdom]. unfold C.delete.
  destruct (C.cache c !! key) eqn:Hl; simpl; [| split; assumption].
  split; simpl; [apply removeFirst_NoDup; exact Hnd |].
  intros k. rewrite (removeFirst_elem key _ k Hnd), Hdom.
  destruct (decide (k = key)) as [-> | Hne].
  - rewrite lookup_delete_eq. split; [intros [_ H]; contradiction |].
    intros [? H]; discriminate.
  - rewrite lookup_delete_ne by auto. split; [intros [H _]; exact H | auto].
Qed.

Lemma updateAccessOrder_wf key c :
  C.wf c -> is_Some (C.cache c !! key) -> C.wf (C.updateAccessOrder key c).
Proof.
  intros [Hnd Hdom] Hk. split; simpl.
  - apply NoDup_app. split; [apply removeFirst_NoDup; exact Hnd |].
    split; [| apply NoDup_singleton].
    intros x Hx Hx'. apply list_elem_of_singleton in Hx'. subst x.
    apply (removeFirst_elem key _ key Hnd) in Hx. destruct Hx. contradiction.
  - intros k. rewrite elem_of_app, list_elem_of_singleton,
      (removeFirst_elem key _ k Hnd), Hdom.
    destruct (decide (k = key)) as [-> | Hne].
    + split; [intros _; exact Hk | intros _; right; reflexivity].
    + split; [intros [[H _] | H]; [exact H | contradiction] |].
      intros H. left. split; assumption.
Qed.

Lemma get_wf key now c : C.wf c -> C.wf (C.get key now c).1.
Proof.
  intros Hwf. unfold C.get. destruct (C.cache c !! key) as [entry |] eqn:Hl;
    [| exact Hwf].
  destruct (_ <? _); simpl; [apply delete_wf; exact Hwf |].
  apply updateAccessOrder_wf; [exact Hwf | rewrite Hl; eauto].
Qed.

Lemma has_wf key now c : C.wf c -> C.wf (C.has key now c).1.
Proof.
  intros Hwf. unfold C.has. destruct (C.cache c !! key) as [entry |]; [| exact Hwf].
  destruct (_ <? _); simpl; [apply delete_wf; exact Hwf | exact Hwf].
Qed.

Lemma evictWhileFull_not_full (cfg : C.CacheConfig) order m :
  C.full cfg m = false -> C.evictWhileFull cfg order m = Some (order, m).
Proof. intros Hf. destruct order; simpl; rewrite Hf; reflexivity. Qed.

Lemma evictWhileFull_result (cfg : C.CacheConfig) order m order' m' :
  NoDup order -> (forall k, k ∈ order <-> is_Some (m !! k)) ->
  C.evictWhileFull cfg order m = Some (order', m') ->
  NoDup order' /\ (forall k, k ∈ order' <-> is_Some (m' !! k)) /\
  C.full cfg m' = false /\ m' ⊆ m.
Proof.
  intros Hnd. revert m. induction order as [| oldest rest IH]; intros m Hdom He;
    simpl in He.
  - destruct (C.full cfg m) eqn:Hf; [discriminate |]. injection He as <- <-.
    split; [constructor |]. split; [exact Hdom |]. split; [exact Hf | reflexivity].
  - apply NoDup_cons in Hnd. destruct Hnd as [Hx Hnd].
    destruct (C.full cfg m) eqn:Hf.
    + destruct (IH Hnd (base.delete oldest m)) as (Hn' & Hd' & Hf' & Hsub); [| exact He |].
      { intros k. destruct (decide (k = oldest)) as [-> | Hne].
        - rewrite lookup_delete_eq. split; [contradiction | intros [? H]; discriminate].
        - rewrite lookup_delete_ne by auto. rewrite <- Hdom, elem_of_cons.
          split; [auto | intros [-> | H]; [contradiction | exact H]]. }
      split; [exact Hn' |]. split; [exact Hd' |]. split; [exact Hf' |].
      etrans; [exact Hsub | apply delete_subseteq].
    + injection He as <- <-.
      split; [apply NoDup_cons; split; assumption |].
      split; [exact Hdom |]. split; [exact Hf | reflexivity].
Qed.

Lemma evictWhileFull_ends (cfg : C.CacheConfig) order m :
  NoDup order -> (forall k, k ∈ order <-> is_Some (m !! k)) ->
  1 <= C.maxSize cfg -> is_Some (C.evictWhileFull cfg order m).
Proof.
  intros Hnd. revert m. induction order as [| oldest rest IH]; intros m Hdom Hmax;
    simpl.
  - assert (Hm : m = ∅).
    { apply map_empty. intros k. apply eq_None_not_Some. rewrite <- Hdom.
      intros H; inversion H. }
    subst m. unfold C.full. rewrite map_size_empty.
    destruct (Z.leb_spec (C.maxSize cfg) (Z.of_nat 0)); [simpl in *; lia | eauto].
  - apply NoDup_cons in Hnd. destruct Hnd as [Hx Hnd].
    destruct (C.full cfg m); [| eauto].
    apply IH; [exact Hnd | | exact Hmax].
    intros k. destruct (decide (k = oldest)) as [-> | Hne].
    + rewrite lookup_delete_eq. split; [contradiction | intros [? H]; discriminate].
    + rewrite lookup_delete_ne by auto. rewrite <- Hdom, elem_of_cons.
      split; [auto | intros [-> | H]; [contradiction | exact H]].
Qed.

Lemma evictWhileFull_loops (cfg : C.CacheConfig) order m :
  C.maxSize cfg <= 0 -> C.evictWhileFull cfg order m = None.
Proof.
  intros Hmax. revert m. induction order as [| oldest rest IH]; intros m; simpl.
  - unfold C.full. destruct (Z.leb_spec (C.maxSize cfg) (Z.of_nat (size m)));
      [reflexivity | lia].
  - unfold C.full at 1. destruct (Z.leb_spec (C.maxSize cfg) (Z.of_nat (size m)));
      [apply IH | lia].
Qed.

Lemma touch_inserted key order m (entry : C.CacheEntry T) :
  NoDup order -> (forall k, k ∈ order <-> is_Some (m !! k)) ->
  NoDup (C.removeFirst key order ++ [key]) /\
  forall k, k ∈ C.removeFirst key order ++ [key] <-> is_Some (<[key := entry]> m !! k).
Proof.
  intros Hnd Hdom. split.
  - apply NoDup_app. split; [apply removeFirst_NoDup; exact Hnd |].
    split; [| apply NoDup_singleton].
    intros x Hx Hx'. apply list_elem_of_singleton in Hx'. subst x.
    apply (removeFirst_elem key _ key Hnd) in Hx. destruct Hx. contradiction.
  - intros k. rewrite elem_of_app, list_elem_of_singleton,
      (removeFirst_elem key _ k Hnd), Hdom.
    destruct (decide (k = key)) as [-> | Hne].
    + rewrite lookup_insert_eq. split; [eauto | intros _; right; reflexivity].
    + rewrite lookup_insert_ne by auto.
      split; [intros [[H _] | H]; [exact H | contradiction] |].
      intros H. left. split; assumption.
Qed.

Lemma set_wf key (d : T) ttl now c c' :
  C.wf c -> C.set key d ttl now c = Some c' ->
  C.wf c' /\ C.config c' = C.config c /\
  Z.of_nat (size (C.cache c')) <= C.maxSize (C.config c).
Proof.
  intros [Hnd Hdom] Hs. unfold C.set in Hs.
  destruct (C.evictWhileFull _ _ _) as [[order m] |] eqn:He; [| discriminate].
  injection Hs as <-.
  destruct (evictWhileFull_result _ _ _ _ _ Hnd Hdom He) as (Hn' & Hd' & Hf' & Hsub).
  split; [| split; [reflexivity |]].
  - unfold C.wf, C.updateAccessOrder; simpl. apply touch_inserted; assumption.
  - simpl. unfold C.full in Hf'. apply Z.leb_gt in Hf'.
    rewrite map_size_insert. destruct (m !! key); simpl; lia.
Qed.

Lemma prune_fold (now : Z) c (l : list (string * C.CacheEntry T)) :
  C.wf c ->
  let r := foldr (fun '(key, entry) '(c, pruned) =>
                    if C.expiresAt entry <? now then ((C.delete key c).1, S pruned)
                    else (c, pruned))
                 (c, 0%nat) l in
  C.wf r.1 /\ C.config r.1 = C.config c /\
  r.2 = length (filter (fun p => C.expiresAt p.2 < now) l) /\
  (forall k, (exists entry, (k, entry) ∈ l /\ C.expiresAt entry < now) ->
             C.cache r.1 !! k = None) /\
  (forall k, (forall entry, (k, entry) ∈ l -> ~ C.expiresAt entry < now) ->
             C.cache r.1 !! k = C.cache c !! k).
Proof.
  intros Hwf. induction l as [| [key entry] l IH]; simpl.
  - split; [exact Hwf |]. split; [reflexivity |]. split; [reflexivity |].
    split; [intros k (entry & Hin & _); inversion Hin | reflexivity].
  - destruct IH as (Hw & Hc & Hn & Hgone & Hkept).
    destruct (foldr _ _ l) as [c0 pruned] eqn:Hr. simpl in *.
    destruct (Z.ltb_spec (C.expiresAt entry) now) as [Hexp | Hlive]; simpl.
    + rewrite filter_cons_True by exact Hexp. simpl.
      split; [apply delete_wf; exact Hw |].
      split; [rewrite delete_config; exact Hc |].
      split; [f_equal; exact Hn |]. rewrite delete_cache. split.
      * intros k (e' & Hin & He'). destruct (decide (k = key)) as [-> | Hne];
          [apply lookup_delete_eq |].
        rewrite lookup_delete_ne by auto. apply Hgone.
        apply elem_of_cons in Hin. destruct Hin as [[= -> ->] | Hin]; [contradiction |].
        exists e'. split; assumption.
      * intros k Hall. destruct (decide (k = key)) as [-> | Hne].
        -- exfalso. apply (Hall entry); [apply elem_of_cons; left; reflexivity | exact Hexp].
        -- rewrite lookup_delete_ne by auto. apply Hkept.
           intros e' Hin. apply Hall. apply elem_of_cons. right. exact Hin.
    + rewrite filter_cons_False by (simpl; lia).
      split; [exact Hw |]. split; [exact Hc |]. split; [exact Hn |]. split.
      * intros k (e' & Hin & He'). apply Hgone.
        apply elem_of_cons in Hin. destruct Hin as [[= -> ->] | Hin]; [lia |].
        exists e'. split; assumption.
      * intros k Hall. apply Hkept.
        intros e' Hin. apply Hall. apply elem_of_cons. right. exact Hin.
Qed.

Lemma prune_wf now c : C.wf c -> C.wf (C.prune now c).1 /\ C.config (C.prune now c).1 = C.config c.
Proof.
  intros Hwf. destruct (prune_fold now c (map_to_list (C.cache c)) Hwf) as (H1 & H2 & _).
  split; assumption.
Qed.

Lemma prune_size now c : C.wf c -> (size (C.cache (C.prune now c).1) <= size (C.cache c))%nat.
Proof.
  intros Hwf. apply map_subseteq_size. apply map_subseteq_spec. intros k e Hk.
  destruct (prune_fold now c (map_to_list (C.cache c)) Hwf) as (_ & _ & _ & Hgone & Hkept).
  fold (C.prune now c) in Hgone, Hkept.
  destruct (C.cache c !! k) as [e0 |] eqn:Hl.
  - destruct (Z.ltb_spec (C.expiresAt e0) now) as [Hexp | Hlive].
    + rewrite (Hgone k) in Hk; [discriminate |].
      exists e0. split; [apply elem_of_map_to_list; exact Hl | exact Hexp].
    + rewrite (Hkept k) in Hk; [congruence |].
      intros e' Hin. apply elem_of_map_to_list in Hin. rewrite Hl in Hin.
      injection Hin as <-. lia.
  - rewrite (Hkept k) in Hk; [congruence |].
    intros e' Hin. apply elem_of_map_to_list in Hin. congruence.
Qed.

(** ** The cache after any sequence of calls *)

Lemma call_keeps (op : C.Call T) c c' :
  C.wf c -> Z.of_nat (size (C.cache c)) <= Z.max 0 (C.maxSize (C.config c)) ->
  C.call c op = Some c' ->
  C.wf c' /\ C.config c' = C.config c /\
  Z.of_nat (size (C.cache c')) <= Z.max 0 (C.maxSize (C.config c')).
Proof.
  intros Hwf Hsz Hc.
  destruct op as [key now | key d ttl now | key | key now | | now]; simpl in Hc.
  - injection Hc as <-. split; [apply get_wf; exact Hwf |].
    unfold C.get. destruct (C.cache c !! key) as [entry |]; [| auto].
    destruct (_ <? _); simpl; [| auto].
    rewrite delete_config, delete_cache. split; [reflexivity |].
    pose proof (map_size_delete key (C.cache c)) as Hd.
    destruct (C.cache c !! key); simpl in Hd; lia.
  - destruct (set_wf key d ttl now c c' Hwf Hc) as (H1 & H2 & H3).
    split; [exact H1 |]. split; [exact H2 |]. rewrite H2. lia.
  - injection Hc as <-. split; [apply delete_wf; exact Hwf |].
    rewrite delete_config, delete_cache. split; [reflexivity |].
    pose proof (map_size_delete key (C.cache c)) as Hd.
    destruct (C.cache c !! key); simpl in Hd; lia.
  - injection Hc as <-. split; [apply has_wf; exact Hwf |].
    unfold C.has. destruct (C.cache c !! key) as [entry |]; [| auto].
    destruct (_ <? _); simpl; [| auto].
    rewrite delete_config, delete_cache. split; [reflexivity |].
    pose proof (map_size_delete key (C.cache c)) as Hd.
    destruct (C.cache c !! key); simpl in Hd; lia.
  - injection Hc as <-. split; [| split; [reflexivity |]].
    + split; simpl; [constructor |]. intros k. rewrite lookup_empty.
      split; [intros H; inversion H | intros [? H]; discriminate].
    + simpl. rewrite map_size_empty. lia.
  - injection Hc as <-. destruct (prune_wf now c Hwf) as [H1 H2].
    split; [exact H1 |]. split; [exact H2 |]. rewrite H2.
    pose proof (prune_size now c Hwf). lia.
Qed.

Lemma new_wf (maxSize defaultTTL : option Z) :
  C.wf (C.new (T := T) maxSize defaultTTL) /\
  Z.of_nat (size (C.cache (C.new (T := T) maxSize defaultTTL))) <=
    Z.max 0 (C.maxSize (C.config (C.new (T := T) maxSize defaultTTL))).
Proof.
  split.
  - split; simpl; [constructor |]. intros k. rewrite lookup_empty.
    split; [intros H; inversion H | intros [? H]; discriminate].
  - simpl. rewrite map_size_empty. lia.
Qed.

Lemma calls_keep (ops : list (C.Call T)) c0 c :
  C.wf c0 ->
  Z.of_nat (size (C.cache c0)) <= Z.max 0 (C.maxSize (C.config c0)) ->
  C.calls c0 ops = Some c ->
  C.wf c /\ C.config c = C.config c0 /\
  Z.of_nat (size (C.cache c)) <= Z.max 0 (C.maxSize (C.config c)).
Proof.
  revert c0 c. induction ops as [| op ops IH]; intros c0 c Hwf Hsz Hc; simpl in Hc.
  - injection Hc as <-. auto.
  - destruct (C.call c0 op) as [c1 |] eqn:H1; [| discriminate].
    destruct (call_keeps op c0 c1 Hwf Hsz H1) as (Q1 & Q2 & Q3).
    destruct (IH c1 c Q1 Q3 Hc) as (R1 & R2 & R3).
    split; [exact R1 |]. split; [congruence | exact R3].
Qed.

(** X24: after any sequence of calls on a new cache, the access order
    lists exactly the keys of the map, each once, and the cache holds at
    most [maxSize] entries (none when [maxSize] is below 1). *)
Theorem cache_stays_consistent (maxSize defaultTTL : option Z)
    (ops : list (C.Call T)) c :
  C.calls (C.new maxSize defaultTTL) ops = Some c ->
  C.wf c /\
  C.config c = C.config (C.new (T := T) maxSize defaultTTL) /\
  Z.of_nat (C.size c) <= Z.max 0 (C.maxSize (C.config c)).
Proof.
  intros Hc. destruct (new_wf maxSize defaultTTL) as [Hwf Hsz].
  apply (calls_keep ops _ c Hwf Hsz Hc).
Qed.

(** X25: on a cache whose access order is in step with its map, [set]
    returns exactly when [maxSize] is at least 1.  With a [maxSize] of 0
    or less the eviction loop of [set] never ends, even on an empty
    cache: its condition stays true and [evictOldest] has nothing left to
    remove. *)
Theorem set_returns_iff_room key (d : T) ttl now c :
  C.wf c ->
  (is_Some (C.set key d ttl now c) <-> 1 <= C.maxSize (C.config c)).
Proof.
  intros [Hnd Hdom]. unfold C.set. split.
  - intros Hs. destruct (Z.le_gt_cases 1 (C.maxSize (C.config c))) as [H | H];
      [exact H |].
    rewrite evictWhileFull_loops in Hs by lia. destruct Hs; discriminate.
  - intros Hmax.
    destruct (evictWhileFull_ends (C.config c) _ _ Hnd Hdom Hmax) as [[order m] He].
    rewrite He. eauto.
Qed.

(** X26: a value that was [set] is read back by [get] until its time to
    live has passed: [get] at a time up to [now + ttl] returns the value
    and makes the key the most recently used; [get] at a later time
    returns [null] and removes the entry. *)
Theorem get_after_set key (d : T) ttl now now' c c' :
  C.wf c -> C.set key d ttl now c = Some c' ->
  let expiry := now + default (C.defaultTTL (C.config c)) ttl in
  (now' <= expiry ->
     (C.get key now' c').2 = Some d /\
     last (C.accessOrder (C.get key now' c').1) = Some key) /\
  (expiry < now' ->
     (C.get key now' c').2 = None /\
     C.cache (C.get key now' c').1 !! key = None).
Proof.
  intros Hwf Hs expiry.
  assert (Hl : C.cache c' !! key =
               Some {| C.data := d; C.timestamp := now; C.expiresAt := expiry |}).
  { unfold C.set in Hs.
    destruct (C.evictWhileFull _ _ _) as [[order m] |]; [| discriminate].
    injection Hs as <-. simpl. apply lookup_insert_eq. }
  unfold C.get. rewrite Hl. simpl. split.
  - intros Hle. destruct (Z.ltb_spec expiry now'); [lia |]. simpl.
    split; [reflexivity | apply last_snoc].
  - intros Hgt. destruct (Z.ltb_spec expiry now'); [| lia]. simpl.
    split; [reflexivity |]. rewrite delete_cache. apply lookup_delete_eq.
Qed.

Lemma set_at_capacity key (d : T) ttl now c oldest rest :
  C.wf c -> C.accessOrder c = oldest :: rest ->
  Z.of_nat (size (C.cache c)) = C.maxSize (C.config c) ->
  C.set key d ttl now c =
  Some {| C.cache :=
            <[key := {| C.data := d; C.timestamp := now;
                        C.expiresAt := now + default (C.defaultTTL (C.config c)) ttl |}]>
              (base.delete oldest (C.cache c));
          C.accessOrder := C.removeFirst key rest ++ [key];
          C.config := C.config c |}.
Proof.
  intros [Hnd Hdom] Ho Hfull. unfold C.set. rewrite Ho. simpl.
  assert (Hin : is_Some (C.cache c !! oldest)).
  { apply Hdom. rewrite Ho. apply elem_of_cons. left. reflexivity. }
  assert (Hf : C.full (C.config c) (C.cache c) = true).
  { unfold C.full. apply Z.leb_le. lia. }
  rewrite Hf.
  assert (Hnf : C.full (C.config c) (base.delete oldest (C.cache c)) = false).
  { unfold C.full. apply Z.leb_gt.
    rewrite map_size_delete. destruct Hin as [e He]. rewrite He. simpl.
    assert (0 < size (C.cache c))%nat; [| lia].
    destruct (size (C.cache c)) eqn:Hz; [| lia].
    apply map_size_empty_inv in Hz. rewrite Hz, lookup_empty in He. discriminate. }
  rewrite (evictWhileFull_not_full _ _ _ Hnf). reflexivity.
Qed.

(** X27: [set] on a cache that holds [maxSize] entries evicts one entry,
    the least recently used one, which heads the access order; every
    other entry stays as it is, and the key that was set becomes the
    most recently used.  The eviction takes place also when the key that
    is set is already in the cache. *)
Theorem set_evicts_least_recently_used key (d : T) ttl now c oldest rest :
  C.wf c -> C.accessOrder c = oldest :: rest ->
  Z.of_nat (size (C.cache c)) = C.maxSize (C.config c) ->
  exists c',
    C.set key d ttl now c = Some c' /\
    (oldest <> key -> C.cache c' !! oldest = None) /\
    (forall k, k <> oldest -> k <> key -> C.cache c' !! k = C.cache c !! k) /\
    (exists entry, C.cache c' !! key = Some entry /\ C.data entry = d) /\
    last (C.accessOrder c') = Some key.
Proof.
  intros Hwf Ho Hfull. eexists. split; [apply set_at_capacity; eassumption |].
  simpl. split; [| split; [| split]].
  - intros Hne. rewrite lookup_insert_ne by auto. apply lookup_delete_eq.
  - intros k H1 H2. rewrite lookup_insert_ne by auto. apply lookup_delete_ne. auto.
  - eexists. split; [apply lookup_insert_eq | reflexivity].
  - apply last_snoc.
Qed.

(** X28: reading an entry protects it.  When the least recently used
    entry of a full cache is read by [get] while it is live, the next
    [set] of a new key evicts the entry that was second in the access
    order and keeps the one that was read. *)
Theorem get_protects_from_eviction key next key' (d : T) ttl now now' c rest entry :
  C.wf c -> C.accessOrder c = key :: next :: rest ->
  Z.of_nat (size (C.cache c)) = C.maxSize (C.config c) ->
  C.cache c !! key = Some entry -> now <= C.expiresAt entry ->
  C.cache c !! key' = None ->
  exists c',
    C.set key' d ttl now' (C.get key now c).1 = Some c' /\
    C.cache c' !! key = Some entry /\
    C.cache c' !! next = None /\
    (exists e', C.cache c' !! key' = Some e' /\ C.data e' = d).
Proof.
  intros Hwf Ho Hfull Hk Hlive Hnew.
  assert (Hg : (C.get key now c).1 = C.updateAccessOrder key c).
  { unfold C.get. rewrite Hk. destruct (Z.ltb_spec (C.expiresAt entry) now); [lia |].
    reflexivity. }
  assert (Hwf' : C.wf (C.updateAccessOrder key c)).
  { apply updateAccessOrder_wf; [exact Hwf | rewrite Hk; eauto]. }
  destruct Hwf as [Hnd Hdom].
  assert (Hnk : next <> key).
  { rewrite Ho in Hnd. apply NoDup_cons in Hnd. destruct Hnd as [Hn _].
    intros ->. apply Hn. apply elem_of_cons. left. reflexivity. }
  assert (Hord : C.accessOrder (C.updateAccessOrder key c) = next :: (rest ++ [key])).
  { simpl. rewrite Ho. simpl. destruct (decide (key = key)); [| contradiction].
    reflexivity. }
  assert (Hk'k : key' <> key) by (intros ->; congruence).
  assert (Hk'n : key' <> next).
  { intros ->. assert (Hs : is_Some (C.cache c !! next)).
    { apply Hdom. rewrite Ho. apply elem_of_cons. right. apply elem_of_cons. left.
      reflexivity. }
    rewrite Hnew in Hs. destruct Hs; discriminate. }
  rewrite Hg. eexists.
  split; [apply (set_at_capacity key' d ttl now' _ next (rest ++ [key]) Hwf' Hord Hfull) |].
  simpl. split; [| split].
  - rewrite lookup_insert_ne by auto. rewrite lookup_delete_ne by auto. exact Hk.
  - rewrite lookup_insert_ne by auto. apply lookup_delete_eq.
  - eexists. split; [apply lookup_insert_eq | reflexivity].
Qed.

(** X29: [prune] removes the entries whose expiry time has passed and no
    others, leaves the remaining entries as they were, keeps the access
    order in step with the map, and returns the number of entries it
    removed. *)
Theorem prune_removes_exactly_expired now c :
  C.wf c ->
  (forall k, C.cache (C.prune now c).1 !! k =
             match C.cache c !! k with
             | Some entry => if C.expiresAt entry <? now then None else Some entry
             | None => None
             end) /\
  (C.prune now c).2 =
    length (filter (fun p => C.expiresAt p.2 < now) (map_to_list (C.cache c))) /\
  C.wf (C.prune now c).1.
Proof.
  intros Hwf.
  destruct (prune_fold now c (map_to_list (C.cache c)) Hwf)
    as (Hw & _ & Hn & Hgone & Hkept).
  fold (C.prune now c) in Hw, Hn, Hgone, Hkept.
  split; [| split; assumption].
  intros k. destruct (C.cache c !! k) as [e0 |] eqn:Hl.
  - destruct (Z.ltb_spec (C.expiresAt e0) now) as [Hexp | Hlive].
    + apply Hgone. exists e0. split; [apply elem_of_map_to_list; exact Hl | exact Hexp].
    + rewrite (Hkept k); [exact Hl |].
      intros e' Hin. apply elem_of_map_to_list in Hin. rewrite Hl in Hin.
      injection Hin as <-. lia.
  - rewrite (Hkept k); [exact Hl |].
    intros e' Hin. apply elem_of_map_to_list in Hin. congruence.
Qed.

End Proofs.

Lemma twoKeyCache_calls :
  LRUCache.calls (LRUCache.new (Some 2) None)
    [LRUCache.DoSet "a" 1 None 0; LRUCache.DoSet "b" 2 None 10] = Some twoKeyCache.
Proof. vm_compute. reflexivity. Qed.

Lemma twoKeyCache_wf : LRUCache.wf twoKeyCache.
Proof.
  destruct (new_wf (T := Z) (Some 2) None) as [Hwf Hsz].
  apply (calls_keep _ _ _ Hwf Hsz twoKeyCache_calls).
Qed.

Lemma cache_stays_consistent_witness :
  Z.of_nat (LRUCache.size twoKeyCache) <= Z.max 0 (LRUCache.maxSize (LRUCache.config twoKeyCache)).
Proof.
  assert (H : LRUCache.calls (LRUCache.new (Some 2) None)
                [LRUCache.DoSet "a" 1 None 0; LRUCache.DoSet "b" 2 None 10] =
              Some twoKeyCache) by (vm_compute; reflexivity).
  apply (cache_stays_consistent (Some 2) None _ twoKeyCache H).
Defined.

Lemma set_returns_iff_room_witness :
  is_Some (LRUCache.set "c" 3 None 20 twoKeyCache).
Proof.
  apply (set_returns_iff_room "c" 3 None 20 twoKeyCache twoKeyCache_wf).
  vm_compute. discriminate.
Defined.

Lemma get_after_set_witness :
  (LRUCache.get "c" 50
     (default twoKeyCache (LRUCache.set "c" 3 (Some 100) 20 twoKeyCache))).2 = Some 3.
Proof.
  assert (Hs : LRUCache.set "c" 3 (Some 100) 20 twoKeyCache =
               Some (default twoKeyCache (LRUCache.set "c" 3 (Some 100) 20 twoKeyCache)))
    by (vm_compute; reflexivity).
  pose proof (get_after_set "c" 3 (Some 100) 20 50 twoKeyCache _ twoKeyCache_wf Hs) as H.
  cbv zeta in H. destruct H as [H _]. apply H. simpl. lia.
Defined.

Lemma set_evicts_least_recently_used_witness :
  exists c', LRUCache.set "c" 3 None 20 twoKeyCache = Some c' /\
             LRUCache.cache c' !! "a" = None.
Proof.
  assert (Ho : LRUCache.accessOrder twoKeyCache = "a" :: ["b"])
    by (vm_compute; reflexivity).
  assert (Hfull : Z.of_nat (size (LRUCache.cache twoKeyCache)) =
                  LRUCache.maxSize (LRUCache.config twoKeyCache))
    by (vm_compute; reflexivity).
  destruct (set_evicts_least_recently_used "c" 3 None 20 twoKeyCache "a" ["b"]
              twoKeyCache_wf Ho Hfull) as (c' & Hs & Hgone & _).
  exists c'. split; [exact Hs | apply Hgone; discriminate].
Defined.

Lemma get_protects_from_eviction_witness :
  exists c', LRUCache.set "c" 3 None 30 (LRUCache.get "a" 20 twoKeyCache).1 = Some c' /\
             LRUCache.cache c' !! "b" = None.
Proof.
  assert (Ho : LRUCache.accessOrder twoKeyCache = "a" :: "b" :: [])
    by (vm_compute; reflexivity).
  assert (Hfull : Z.of_nat (size (LRUCache.cache twoKeyCache)) =
                  LRUCache.maxSize (LRUCache.config twoKeyCache))
    by (vm_compute; reflexivity).
  assert (Hk : LRUCache.cache twoKeyCache !! "a" =
               Some {| LRUCache.data := 1; LRUCache.timestamp := 0;
                       LRUCache.expiresAt := 300000 |})
    by (vm_compute; reflexivity).
  assert (Hlive : 20 <= LRUCache.expiresAt
                          {| LRUCache.data := 1; LRUCache.timestamp := 0;
                             LRUCache.expiresAt := 300000 |}) by (simpl; lia).
  assert (Hnew : LRUCache.cache twoKeyCache !! "c" = None) by (vm_compute; reflexivity).
  destruct (get_protects_from_eviction "a" "b" "c" 3 None 20 30 twoKeyCache [] _
              twoKeyCache_wf Ho Hfull Hk Hlive Hnew) as (c' & Hs & _ & Hb & _).
  exists c'. split; assumption.
Defined.

Lemma prune_removes_exactly_expired_witness :
  LRUCache.wf (LRUCache.prune 500000 twoKeyCache).1.
Proof.
  apply (prune_removes_exactly_expired 500000 twoKeyCache twoKeyCache_wf).
Defined.

End CacheTheory.
